(** * Chartonics: from a Drawflow state chart to VHDL

    A shallow embedding of the compilation pipeline of the server
    (parser, path finder, table maker, VHDL generator) together with the
    properties its specification states about it.

    The parser is modelled on arbitrary JSON documents, with the
    exceptions Python raises.  The stages after it are modelled on nodes
    of the shape the editor writes: an integer id, a string for the type
    and for the text, ports that map to lists of connections.  Such
    dictionaries are records with one field per key the code reads, a
    missing key being [None] (or the default the code passes to [.get]);
    dictionaries whose iteration order matters are association lists in
    insertion order; the [nodes_map] index and the equation maps are
    finite maps. *)

From Stdlib Require Import ZArith String Ascii List Bool Lia.
From stdpp Require Import base option list gmap sets strings pretty sorting.

Set Warnings "-clear-no-such-hyp,-register-all".

Local Open Scope string_scope.
Local Open Scope list_scope.
Local Open Scope nat_scope.

(** ** Python values shared by all stages *)

Module Py.

(** A Python call either returns or raises; [Raise] carries the name of
    the exception class. *)
Inductive outcome (A : Type) : Type :=
| Ok (a : A)
| Raise (exc : string).
Arguments Ok {A} a.
Arguments Raise {A} exc.

Definition bind {A B} (x : outcome A) (k : A → outcome B) : outcome B :=
  match x with
  | Ok a => k a
  | Raise e => Raise e
  end.

Definition returns {A} (x : outcome A) : Prop := ∃ a, x = Ok a.

(** [str(i)] for an [int]. *)
Definition str (i : Z) : string := pretty i.

(** A loop whose body may stop the whole computation ([None]): the
    body sees the state left by the previous iteration. *)
Fixpoint for_each {A S : Type} (l : list A) (body : A → S → option S) (s : S)
  : option S :=
  match l with
  | [] => Some s
  | a :: l' =>
      match body a s with
      | Some s' => for_each l' body s'
      | None => None
      end
  end.


(** A loop whose body may raise. *)
Fixpoint fold_outcome {A S : Type} (body : S → A → outcome S) (s : S) (l : list A)
  : outcome S :=
  match l with
  | [] => Ok s
  | a :: l' =>
      match body s a with
      | Ok s' => fold_outcome body s' l'
      | Raise e => Raise e
      end
  end.

(** Dictionaries whose iteration order is observed are association lists
    in insertion order, with at most one entry per key. *)
Fixpoint dict_get {K A} `{EqDecision K} (key : K) (d : list (K * A)) : option A :=
  match d with
  | [] => None
  | (k, a) :: d' => if decide (k = key) then Some a else dict_get key d'
  end.

(** [d[key] = a]: an existing key keeps its place. *)
Fixpoint dict_set {K A} `{EqDecision K} (key : K) (a : A) (d : list (K * A))
  : list (K * A) :=
  match d with
  | [] => [(key, a)]
  | (k, b) :: d' =>
      if decide (k = key) then (k, a) :: d' else (k, b) :: dict_set key a d'
  end.

(** [t[i]] on a tuple or a list. *)
Definition item {A} (t : list A) (i : nat) : outcome A :=
  match t !! i with
  | Some a => Ok a
  | None => Raise "IndexError"
  end.

(** [sorted(l)] for a total order given by [leb]. *)
Fixpoint insert_sorted {A} (leb : A → A → bool) (a : A) (l : list A) : list A :=
  match l with
  | [] => [a]
  | b :: l' => if leb a b then a :: b :: l' else b :: insert_sorted leb a l'
  end.

Definition sorted {A} (leb : A → A → bool) (l : list A) : list A :=
  foldr (insert_sorted leb) [] l.

(** Strings compare by code point. *)
Definition str_leb (a b : string) : bool :=
  match String.compare a b with
  | Gt => false
  | _ => true
  end.

(** [sep.join(l)]. *)
Fixpoint join (sep : string) (l : list string) : string :=
  match l with
  | [] => ""
  | [a] => a
  | a :: l' => a +:+ sep +:+ join sep l'
  end.

(** The line boundaries of [str.splitlines] within ASCII. *)
Definition is_line_break (c : ascii) : bool :=
  bool_decide (c ∈ ["010"; "011"; "012"; "013"; "028"; "029"; "030"]%char).

(** [s.splitlines()]; a carriage return followed by a line feed is one
    boundary.  Boundaries outside ASCII are not modelled. *)
Fixpoint splitlines_from (line : string) (s : string) : list string :=
  match s with
  | EmptyString => if decide (line = "") then [] else [line]
  | String c rest =>
      if is_line_break c then
        match c, rest with
        | "013"%char, String "010"%char rest' => line :: splitlines_from "" rest'
        | _, _ => line :: splitlines_from "" rest
        end
      else splitlines_from (line +:+ String c "") rest
  end.

Definition splitlines (s : string) : list string := splitlines_from "" s.

Fixpoint pos_binary (p : positive) : string :=
  match p with
  | xH => "1"
  | xO p' => pos_binary p' +:+ "0"
  | xI p' => pos_binary p' +:+ "1"
  end.

(** [bin(i)[2:]]. *)
Definition binary (i : nat) : string :=
  match N.of_nat i with
  | N0 => "0"
  | Npos p => pos_binary p
  end.

Fixpoint repeat_char (c : ascii) (n : nat) : string :=
  match n with
  | O => ""
  | S n' => String c (repeat_char c n')
  end.

(** [format(i, f'0{width}b')]. *)
Definition format_binary (i width : nat) : string :=
  repeat_char "0" (width - String.length (binary i)) +:+ binary i.

(** [needle in hay] on strings. *)
Fixpoint contains (needle hay : string) : bool :=
  String.prefix needle hay ||
  match hay with
  | EmptyString => false
  | String _ rest => contains needle rest
  end.

End Py.

#[global] Instance outcome_bind : MBind Py.outcome := λ A B k x, Py.bind x k.
#[global] Instance outcome_ret : MRet Py.outcome := @Py.Ok.

(** ** The node table *)

(** A connection object: [{"node": ..., "input": ...}] on an input port,
    [{"node": ..., "output": ...}] on an output port.  Only the keys
    ['node'] and ['input'] are ever read. *)
Record connection := Connection {
  c_node : option string;
  c_input : option string
}.

(** A port object; a missing ['connections'] key reads as the empty list. *)
Record port := Port { connections : list connection }.

(** A filtered node as [parse_drawflow_data] builds it. *)
Record node := Node {
  id : option Z;
  type : string;
  inputs : list (string * port);
  outputs : list (string * port);
  node_data : string
}.

(** ** Path finder (app/processing/path_finder.py) *)

Module PathFinder.

Inductive diagnostic :=
| NodeNotFound (node_id : string)
| TargetMissing (target_node_id current_node_id : string)
| CycleDetected (walk : list string).

(** [link_paths] is the list the search appends to; [diagnostics] is
    what it prints, in order. *)
Record search := Search {
  link_paths : list (list string);
  diagnostics : list diagnostic
}.

Definition found (p : list string) (st : search) : search :=
  Search (link_paths st ++ [p]) (diagnostics st).

Definition report (d : diagnostic) (st : search) : search :=
  Search (link_paths st) (diagnostics st ++ [d]).

(** The body of the inner loop of [_dfs_find_paths], for one connection.
    [recurse] is the recursive call. *)
Definition visit_connection
    (recurse : string → list string → gset string → search → option search)
    (nodes_map : gmap string node) (current_node_id : string)
    (current_path : list string) (visited_in_path : gset string)
    (conn : connection) (st : search) : option search :=
  match c_node conn with
  | None => Some st
  | Some target_node_id =>
      if decide (target_node_id = "") then Some st
      else
        match nodes_map !! target_node_id with
        | None => Some (report (TargetMissing target_node_id current_node_id) st)
        | Some target_node =>
            if decide (type target_node = "state") then
              Some (found (current_path ++ [target_node_id]) st)
            else if decide (target_node_id ∈ visited_in_path) then
              Some (report (CycleDetected (current_path ++ [target_node_id])) st)
            else
              recurse target_node_id (current_path ++ [target_node_id])
                      visited_in_path st
        end
  end.

(** [_dfs_find_paths].  [depth] bounds the nesting of recursive calls:
    a call made with budget 0 is the only way to get [None].  The set
    handed to a recursive call is a copy, and the caller never reads
    its own set after the loop, so the set is passed by value and the
    final [remove] has no observable effect. *)
Fixpoint _dfs_find_paths (depth : nat) (nodes_map : gmap string node)
    (current_node_id : string) (current_path : list string)
    (visited_in_path : gset string) (st : search) : option search :=
  match depth with
  | O => None
  | S depth' =>
      match nodes_map !! current_node_id with
      | None => Some (report (NodeNotFound current_node_id) st)
      | Some current_node =>
          let visited_in_path := {[current_node_id]} ∪ visited_in_path in
          match outputs current_node with
          | [] => Some st
          | outs =>
              Py.for_each outs
                (λ '(output_port, port_data),
                   Py.for_each (connections port_data)
                     (visit_connection (_dfs_find_paths depth' nodes_map)
                        nodes_map current_node_id current_path
                        visited_in_path))
                st
          end
      end
  end.

(** The first loop of [find_link_paths]: the index and the seeds. *)
Definition index_node (acc : gmap string node * list string) (n : node)
  : gmap string node * list string :=
  match id n with
  | Some node_id =>
      (<[Py.str node_id := n]> (acc.1),
       if decide (type n = "state") then acc.2 ++ [Py.str node_id] else acc.2)
  | None => acc
  end.

Definition build_index (filtered_nodes : list node)
  : gmap string node * list string :=
  foldl index_node (∅, []) filtered_nodes.

Definition find_link_paths_within (depth : nat) (filtered_nodes : list node)
  : option search :=
  match filtered_nodes with
  | [] => Some (Search [] [])
  | _ =>
      let '(nodes_map, start_node_ids) := build_index filtered_nodes in
      if decide (nodes_map = ∅) then Some (Search [] [])
      else
        match start_node_ids with
        | [] => Some (Search [] [])
        | _ =>
            Py.for_each start_node_ids
              (λ start_id, _dfs_find_paths depth nodes_map start_id [start_id] ∅)
              (Search [] [])
        end
  end.

(** [find_link_paths]: the recursion is given as many levels as there
    are nodes; this budget is never exhausted, and a larger one changes
    nothing (see the termination theorem below). *)
Definition find_link_paths (filtered_nodes : list node) : option (list (list string)) :=
  link_paths <$> find_link_paths_within (length filtered_nodes) filtered_nodes.

(** The two nested loops of [_dfs_find_paths] over the ports of a node and
    the connections of each port, named for the proofs (see [dfs_unfold]). *)
Definition outputs_loop
    (recurse : string → list string → gset string → search → option search)
    (m : gmap string node) (cur : string) (path : list string)
    (visited : gset string) (current_node : node) (st : search)
  : option search :=
  Py.for_each (outputs current_node)
    (λ '(output_port, port_data),
       Py.for_each (connections port_data)
         (visit_connection recurse m cur path visited))
    st.


(** *** What the specification says about paths *)

(** The key under which a node is indexed: [str(node['id'])]. *)
Definition node_key (n : node) : option string := Py.str <$> id n.

(** Node ids are pairwise distinct, as the keys of the document are. *)
Definition distinct_ids (nodes : list node) : Prop := NoDup (omap node_key nodes).

Definition is_node (nodes : list node) (k : string) (n : node) : Prop :=
  n ∈ nodes ∧ node_key n = Some k.

Definition state_id (nodes : list node) (k : string) : Prop :=
  ∃ n, is_node nodes k n ∧ type n = "state".

Definition intermediate_id (nodes : list node) (k : string) : Prop :=
  ∃ n, is_node nodes k n ∧ type n ≠ "state".

(** The elements of a path strictly between its first and its last. *)
Definition interior (p : list string) : list string := removelast (tail p).

Record well_formed (nodes : list node) (p : list string) : Prop := WellFormed {
  wf_length : 2 ≤ length p;
  wf_first : ∃ s, head p = Some s ∧ state_id nodes s;
  wf_last : ∃ t, last p = Some t ∧ state_id nodes t;
  wf_interior : ∀ x, x ∈ interior p → ¬ state_id nodes x;
  wf_no_repeat : NoDup (interior p)
}.

(** [a] has an output connection to [b]. *)
Definition edge (nodes : list node) (a b : string) : Prop :=
  ∃ n output_port port_data conn,
    is_node nodes a n ∧ (output_port, port_data) ∈ outputs n ∧
    conn ∈ connections port_data ∧ c_node conn = Some b.

(** A walk from [a] to [b] along output connections whose intermediate
    nodes, [l], are all of a type other than ['state']. *)
Fixpoint walk (nodes : list node) (a : string) (l : list string) (b : string) : Prop :=
  match l with
  | [] => edge nodes a b
  | x :: l' => edge nodes a x ∧ intermediate_id nodes x ∧ walk nodes x l' b
  end.

(** *** Invariants of the search *)

(** A path the search may append while it explores from [start]. *)
Definition emitted (nodes : list node) (start : string) (p : list string) : Prop :=
  ∃ l t, p = start :: l ++ [t] ∧ state_id nodes t ∧
         Forall (intermediate_id nodes) l ∧ NoDup l.

(** A cycle is only ever reported at an intermediate node. *)
Definition benign (nodes : list node) (d : diagnostic) : Prop :=
  match d with
  | CycleDetected w => ∃ t, last w = Some t ∧ intermediate_id nodes t
  | _ => True
  end.

End PathFinder.

(** ** The symbolic-algebra engine (SymPy)

    The pipeline builds its equations with SymPy's [Symbol], [And], [Or],
    [Not], [true] and [false].  The engine is a dependency of the
    repository, not part of it; this module models the part of its
    behaviour the pipeline observes: the automatic evaluation performed by
    the constructors and the order of [expr.args].  Names are taken to be
    identifiers, so that [symbols(name)] is the one symbol of that name. *)

Module Sympy.

(** [Other t] stands for an object of a class [t] that is none of the
    Boolean classes; only the VHDL renderer can meet one. *)
Inductive bexpr : Type :=
| BTrue
| BFalse
| Symbol (name : string)
| Not (arg : bexpr)
| And (args : list bexpr)
| Or (args : list bexpr)
| Other (type_name : string).

(** Structural equality ([==] on expressions). *)
Fixpoint eqb (a b : bexpr) {struct a} : bool :=
  let fix eqb_list (l k : list bexpr) {struct l} : bool :=
    match l, k with
    | [], [] => true
    | x :: l', y :: k' => eqb x y && eqb_list l' k'
    | _, _ => false
    end in
  match a, b with
  | BTrue, BTrue => true
  | BFalse, BFalse => true
  | Symbol x, Symbol y => bool_decide (x = y)
  | Not x, Not y => eqb x y
  | And l, And k => eqb_list l k
  | Or l, Or k => eqb_list l k
  | Other x, Other y => bool_decide (x = y)
  | _, _ => false
  end.

(** The truth value of an expression under a valuation of the symbols. *)
Fixpoint eval (v : string → bool) (e : bexpr) : bool :=
  match e with
  | BTrue => true
  | BFalse => false
  | Symbol name => v name
  | Not arg => negb (eval v arg)
  | And args => forallb (eval v) args
  | Or args => existsb (eval v) args
  | Other _ => false
  end.

(** A name that [symbols] takes as one symbol: not empty, and free of the
    separators (comma, white space) and of the range sign (colon). *)
Definition plain_name (name : string) : bool :=
  bool_decide (name ≠ "") &&
  forallb (λ c, negb (bool_decide
             (c ∈ [","; ":"; " "; "009"; "010"; "011"; "012"; "013";
                   "028"; "029"; "030"; "031"]%char)))
          (list_ascii_of_string name).

(** [symbols('Y:n')]: the tuple [Y0, ..., Y(n-1)], by name. *)
Definition state_symbol_names (num_bits : nat) : list string :=
  (λ i, "Y" +:+ pretty i) <$> seq 0 num_bits.

Definition state_symbols (num_bits : nat) : list bexpr :=
  Symbol <$> state_symbol_names num_bits.

(** What [symbols(','.join(names))] returns: a single [Symbol] for one
    name, a tuple otherwise. *)
Inductive symbols_result :=
| OneSymbol (s : bexpr)
| SymbolTuple (l : list bexpr).

Definition symbols (names : list string) : symbols_result :=
  match names with
  | [name] => OneSymbol (Symbol name)
  | _ => SymbolTuple (Symbol <$> names)
  end.

(** *** The order of [expr.args]

    The arguments of [And] and [Or] are kept in the order of [ordered]:
    by number of nodes first, then by the sort key (class, number of
    arguments, arguments from left to right; symbols by name). *)

Fixpoint node_count (e : bexpr) : nat :=
  match e with
  | Not arg => S (node_count arg)
  | And args | Or args => S (foldr (λ a n, node_count a + n) 0 args)
  | _ => 1
  end.

Definition class_rank (e : bexpr) : nat :=
  match e with
  | Symbol _ => 0
  | And _ => 1
  | BFalse => 2
  | BTrue => 3
  | Not _ => 4
  | Or _ => 5
  | Other _ => 6
  end.

Definition then_compare (c : comparison) (d : comparison) : comparison :=
  match c with
  | Eq => d
  | _ => c
  end.

Fixpoint key_compare (a b : bexpr) {struct a} : comparison :=
  let fix args_compare (l k : list bexpr) {struct l} : comparison :=
    match l, k with
    | [], [] => Eq
    | [], _ :: _ => Lt
    | _ :: _, [] => Gt
    | x :: l', y :: k' => then_compare (key_compare x y) (args_compare l' k')
    end in
  then_compare (Nat.compare (class_rank a) (class_rank b))
    match a, b with
    | Symbol x, Symbol y => String.compare x y
    | Other x, Other y => String.compare x y
    | Not x, Not y => key_compare x y
    | And l, And k | Or l, Or k =>
        then_compare (Nat.compare (length l) (length k)) (args_compare l k)
    | _, _ => Eq
    end.

Definition precedes (a b : bexpr) : bool :=
  match then_compare (Nat.compare (node_count a) (node_count b)) (key_compare a b) with
  | Gt => false
  | _ => true
  end.

Fixpoint insert_ordered (a : bexpr) (l : list bexpr) : list bexpr :=
  match l with
  | [] => [a]
  | b :: l' => if precedes a b then a :: b :: l' else b :: insert_ordered a l'
  end.

Definition ordered (l : list bexpr) : list bexpr := foldr insert_ordered [] l.

(** *** Automatic evaluation of the constructors *)

Fixpoint distinct (l : list bexpr) : list bexpr :=
  match l with
  | [] => []
  | a :: l' => if existsb (eqb a) l' then distinct l' else a :: distinct l'
  end.

(** [Not(arg)]: constants are negated and a double negation cancelled. *)
Definition py_Not (arg : bexpr) : bexpr :=
  match arg with
  | BTrue => BFalse
  | BFalse => BTrue
  | Not x => x
  | _ => Not arg
  end.

(** [And(a, b, ...)]: an argument [false] absorbs, [true] is dropped,
    the arguments of a nested [And] take its place, duplicates are merged;
    no argument left gives [true], one argument gives that argument. *)
Definition py_And (args : list bexpr) : bexpr :=
  if existsb (eqb BFalse) args then BFalse
  else
    let flat :=
      mjoin ((λ a, match a with And l => l | _ => [a] end) <$>
             filter (λ a, eqb BTrue a = false) args) in
    match ordered (distinct flat) with
    | [] => BTrue
    | [a] => a
    | l => And l
    end.

(** [Or(a, b, ...)], dually. *)
Definition py_Or (args : list bexpr) : bexpr :=
  if existsb (eqb BTrue) args then BTrue
  else
    let flat :=
      mjoin ((λ a, match a with Or l => l | _ => [a] end) <$>
             filter (λ a, eqb BFalse a = false) args) in
    match ordered (distinct flat) with
    | [] => BFalse
    | [a] => a
    | l => Or l
    end.

End Sympy.

(** ** Path annotation (app/processing/parser.py) *)

Module Annotator.

(** One formatted step, [[id, node_data, type, indicator]]. *)
Record step := Step {
  s_id : option Z;
  s_data : string;
  s_type : string;
  indicator : option bool
}.

(** [str(conn.get('node'))]. *)
Definition str_of_node (conn : connection) : string :=
  match c_node conn with
  | Some target => target
  | None => "None"
  end.

(** [current_inputs.get('input_1', {}).get('connections', [])]. *)
Definition input_1_connections (n : node) : list connection :=
  match Py.dict_get "input_1" (inputs n) with
  | Some port_data => connections port_data
  | None => []
  end.

(** The loop over [input_1_connections]: the first connection that comes
    from the previous node settles the indicator, whatever its port. *)
Fixpoint find_indicator (input_1_conns : list connection) (previous_node_id : string)
  : option bool :=
  match input_1_conns with
  | [] => None
  | conn :: rest =>
      if decide (str_of_node conn = previous_node_id) then
        match c_input conn with
        | Some originating_port =>
            if decide (originating_port = "output_1") then Some true
            else if decide (originating_port = "output_2") then Some false
            else None
        | None => None
        end
      else find_indicator rest previous_node_id
  end.

(** The dictionary comprehension that indexes the nodes. *)
Definition index_nodes (filtered_nodes : list node) : gmap string node :=
  foldl (λ acc n, match id n with
                  | Some node_id => <[Py.str node_id := n]> acc
                  | None => acc
                  end) ∅ filtered_nodes.

(** The body of the loop over one path; a missing node gives the
    placeholder [None]. *)
Definition format_node (nodes_map : gmap string node) (single_path_ids : list string)
    (node_index : nat) (node_id : string) : option step :=
  match nodes_map !! node_id with
  | Some current_node =>
      let indicator :=
        if decide (0 < node_index) then
          match single_path_ids !! (node_index - 1) with
          | Some previous_node_id =>
              find_indicator (input_1_connections current_node) previous_node_id
          | None => None
          end
        else None in
      Some (Step (id current_node) (node_data current_node) (type current_node)
                 indicator)
  | None => None
  end.

(** [get_formatted_details_for_all_paths].  Every path handed over by the
    path finder is a list, so the placeholder for a path that is not a
    list does not arise. *)
Definition get_formatted_details_for_all_paths
    (all_paths_ids : list (list string)) (filtered_nodes : list node)
  : list (list (option step)) :=
  match all_paths_ids, filtered_nodes with
  | [], _ | _, [] => []
  | _, _ =>
      let nodes_map := index_nodes filtered_nodes in
      if decide (nodes_map = ∅) then []
      else (λ single_path_ids,
              imap (format_node nodes_map single_path_ids) single_path_ids)
           <$> all_paths_ids
  end.

(** *** What the specification says about indicators *)

(** [conn] is the first connection of [conns] that comes from [previous]. *)
Definition first_from (previous : string) (conns : list connection)
    (conn : connection) : Prop :=
  ∃ j, conns !! j = Some conn ∧ str_of_node conn = previous ∧
       ∀ j' conn', j' < j → conns !! j' = Some conn' → str_of_node conn' ≠ previous.

(** The indicator the specification describes for a step at node [n]
    reached from [previous]. *)
Definition indicator_rule (n : node) (previous : string) (ind : option bool) : Prop :=
  (ind = Some true ↔
     ∃ conn, first_from previous (input_1_connections n) conn ∧
             c_input conn = Some "output_1") ∧
  (ind = Some false ↔
     ∃ conn, first_from previous (input_1_connections n) conn ∧
             c_input conn = Some "output_2") ∧
  (ind = None ↔
     ∀ conn, first_from previous (input_1_connections n) conn →
             c_input conn ≠ Some "output_1" ∧ c_input conn ≠ Some "output_2").

(** The last clause of the specification: a step whose predecessor is not
    a Decision has no indicator. *)
Definition none_after_non_decision (annotated : list (option step)) : Prop :=
  ∀ k previous current,
    annotated !! k = Some (Some previous) →
    annotated !! (S k) = Some (Some current) →
    s_type previous ≠ "decision" →
    indicator current = None.

End Annotator.

(** ** Table maker (app/processing/table_maker.py) *)

Module TableMaker.
Import Py Sympy Annotator.

(** [prepare_table_elements] returns three lists on an empty node list
    and four values otherwise. *)
Inductive table :=
| Table3 (states inputs outputs : list string)
| Table4 (states_list : list Z) (inputs_list event_outputs : list string)
         (state_outputs : list (Z * list string)).

(** The state of the loop of [prepare_table_elements]. *)
Record elements := Elements {
  states : list Z;
  unique_inputs : list string;
  event_outputs : list string;
  state_outputs : list (Z * list string)
}.

Definition collect (acc : elements) (n : node) : elements :=
  if decide (type n = "state") then
    match id n with
    | Some node_id =>
        Elements (states acc ++ [node_id]) (unique_inputs acc) (event_outputs acc)
          (if decide (node_data n = "") then state_outputs acc
           else dict_set node_id (splitlines (node_data n)) (state_outputs acc))
    | None => acc
    end
  else if decide (type n = "decision") then
    if decide (node_data n = "") then acc
    else Elements (states acc) (unique_inputs acc ++ [node_data n])
           (event_outputs acc) (state_outputs acc)
  else if decide (type n = "event") then
    if decide (node_data n = "") then acc
    else Elements (states acc) (unique_inputs acc)
           (event_outputs acc ++ [node_data n]) (state_outputs acc)
  else acc.

Definition prepare_table_elements (filtered_nodes : list node) : table :=
  match filtered_nodes with
  | [] => Table3 [] [] []
  | _ =>
      let acc := foldl collect (Elements [] [] [] []) filtered_nodes in
      Table4 (sorted Z.leb (states acc))
             (sorted str_leb (remove_dups (unique_inputs acc)))
             (sorted str_leb (remove_dups (event_outputs acc)))
             (state_outputs acc)
  end.

(** [math.ceil(math.log2(num_states)) if num_states > 1 else 1]; the
    logarithm is taken exactly, as the floating-point one is for every
    number of states a chart can have. *)
Definition bits_for (num_states : nat) : nat :=
  if decide (1 < num_states) then Nat.log2_up num_states else 1.

(** [assign_state_codes]: the dictionary from state id to code, in the
    order of [states_list]. *)
Definition assign_state_codes (states_list : list Z) : list (Z * string) :=
  match states_list with
  | [] => []
  | _ =>
      let num_bits := bits_for (length states_list) in
      foldl (λ state_codes '(i, state_id),
               dict_set state_id (format_binary i num_bits) state_codes)
            [] (imap (λ i state_id, (i, state_id)) states_list)
  end.

(** The two equation maps, keyed by the name of the symbol. *)
Definition equations : Type := gmap string bexpr * gmap string bexpr.

(** [d[key]] on an equation map. *)
Definition equation (d : gmap string bexpr) (key : string) : outcome bexpr :=
  match d !! key with
  | Some e => Ok e
  | None => Raise "KeyError"
  end.

(** The minterm of a state code: [Y[i]] where the code has ['1'] at
    string index [i], [Not(Y[i])] elsewhere. *)
Fixpoint minterm_from (Y : list string) (i : nat) (code : string) (term : bexpr)
  : outcome bexpr :=
  match code with
  | EmptyString => Ok term
  | String bit rest =>
      y ← item Y i;
      minterm_from Y (S i) rest
        (py_And [term; if decide (bit = "1"%char) then Symbol y else py_Not (Symbol y)])
  end.

Definition state_minterm (Y : list string) (code : string) : outcome bexpr :=
  minterm_from Y 0 code BTrue.

(** One turn of the loop that adds the conditions of the decisions. *)
Definition add_input_condition (path : list (option step)) (input_vars_list : list string)
    (path_condition : bexpr) (i : nat) : bexpr :=
  match path !! i, path !! (i - 1) with
  | Some (Some current_node_details), Some (Some prev_node_details) =>
      if decide (s_type prev_node_details = "decision") then
        let decision_var_name := s_data prev_node_details in
        if decide (decision_var_name ∈ input_vars_list) then
          match indicator current_node_details with
          | Some true => py_And [path_condition; Symbol decision_var_name]
          | Some false => py_And [path_condition; py_Not (Symbol decision_var_name)]
          | None => path_condition
          end
        else path_condition
      else path_condition
  | _, _ => path_condition
  end.

(** The loop over the characters of the code of the end state. *)
Fixpoint assign_next_state (Y_next : list string) (i : nat) (code : string)
    (path_condition : bexpr) (next_state_eqns : gmap string bexpr)
  : outcome (gmap string bexpr) :=
  match code with
  | EmptyString => Ok next_state_eqns
  | String bit rest =>
      if decide (bit = "1"%char) then
        y ← item Y_next i;
        old ← equation next_state_eqns y;
        assign_next_state Y_next (S i) rest path_condition
          (<[y := py_Or [old; path_condition]]> next_state_eqns)
      else assign_next_state Y_next (S i) rest path_condition next_state_eqns
  end.

(** The loop over the nodes of a path that looks for event outputs. *)
Definition assign_event (event_outputs_list : list string) (path_condition : bexpr)
    (output_eqns : gmap string bexpr) (node_details : option step)
  : outcome (gmap string bexpr) :=
  match node_details with
  | None => Ok output_eqns
  | Some details =>
      if decide (s_type details = "event" ∧ s_data details ∈ event_outputs_list) then
        old ← equation output_eqns (s_data details);
        Ok (<[s_data details := py_Or [old; path_condition]]> output_eqns)
      else Ok output_eqns
  end.

(** The body of the loop over the annotated paths. *)
Definition process_path (Y : list string) (state_codes : list (Z * string))
    (input_vars_list event_outputs_list : list string)
    (eqns : equations) (path : list (option step)) : outcome equations :=
  match path with
  | [] | None :: _ => Ok eqns
  | Some start_node_details :: _ =>
      match s_id start_node_details ≫= λ i, dict_get i state_codes with
      | None => Ok eqns
      | Some start_state_code =>
          present_state_term ← state_minterm Y start_state_code;
          let path_condition :=
            foldl (add_input_condition path input_vars_list) present_state_term
                  (seq 1 (length path - 1)) in
          match last path with
          | Some (Some end_node_details) =>
              if decide (s_type end_node_details = "state") then
                match s_id end_node_details ≫= λ i, dict_get i state_codes with
                | None => Ok eqns
                | Some end_state_code =>
                    next_state_eqns ←
                      assign_next_state Y 0 end_state_code path_condition eqns.1;
                    output_eqns ←
                      fold_outcome (assign_event event_outputs_list path_condition)
                        eqns.2 path;
                    Ok (next_state_eqns, output_eqns)
                end
              else Ok eqns
          | _ => Ok eqns
          end
      end
  end.

(** The body of the loop that builds the Moore output equations;
    [outputs_sym] holds the names that have an output symbol. *)
Definition assign_moore (Y : list string) (state_codes : list (Z * string))
    (outputs_sym : list string) (state_id : Z)
    (output_eqns : gmap string bexpr) (output_name : string)
  : outcome (gmap string bexpr) :=
  if decide (output_name ∈ outputs_sym) then
    match dict_get state_id state_codes with
    | Some state_code =>
        if decide (state_code = "") then Ok output_eqns
        else
          state_minterm ← state_minterm Y state_code;
          old ← equation output_eqns output_name;
          Ok (<[output_name := py_Or [old; state_minterm]]> output_eqns)
    | None => Ok output_eqns
    end
  else Ok output_eqns.

Definition all_output_names (event_outputs_list : list string)
    (state_outputs_dict : list (Z * list string)) : list string :=
  event_outputs_list ++ mjoin (snd <$> state_outputs_dict).

(** [generate_boolean_equations]. *)
Definition generate_boolean_equations
    (all_paths_formatted_details : list (list (option step)))
    (state_codes : list (Z * string))
    (input_vars_list event_outputs_list : list string)
    (state_outputs_dict : list (Z * list string)) : outcome equations :=
  match all_paths_formatted_details, state_codes with
  | [], _ | _, [] => Ok (∅, ∅)
  | _, (_, first_code) :: _ =>
      let num_bits := String.length first_code in
      if decide (num_bits = 0) then Ok (∅, ∅)
      else
        let Y := state_symbol_names num_bits in
        let outputs_sym := all_output_names event_outputs_list state_outputs_dict in
        let next_state_eqns : gmap string bexpr :=
          foldl (λ d y, <[y := BFalse]> d) ∅ Y in
        let output_eqns : gmap string bexpr :=
          foldl (λ d out_name, <[out_name := BFalse]> d) ∅ outputs_sym in
        eqns ← fold_outcome
                 (process_path Y state_codes input_vars_list event_outputs_list)
                 (next_state_eqns, output_eqns) all_paths_formatted_details;
        output_eqns ←
          fold_outcome
            (λ output_eqns '(state_id, output_list),
               fold_outcome (assign_moore Y state_codes outputs_sym state_id)
                 output_eqns output_list)
            eqns.2 state_outputs_dict;
        Ok (eqns.1, output_eqns)
  end.

(** *** What the specification says about Moore outputs *)

(** All state codes have the same, non-zero width. *)
Definition uniform_codes (state_codes : list (Z * string)) (width : nat) : Prop :=
  0 < width ∧ ∀ k code, (k, code) ∈ state_codes → String.length code = width.

(** [generate_boolean_equations] returns, [output_eqns] binds every output
    symbol, and for each pair of the Moore table whose state has a code,
    the minterm of that code is a disjunct of the equation of the output:
    the equation holds wherever the minterm does. *)
Definition plain_names (input_vars_list event_outputs_list : list string)
    (state_outputs_dict : list (Z * list string)) : Prop :=
  Forall (λ name, plain_name name = true)
    (input_vars_list ++ all_output_names event_outputs_list state_outputs_dict).


(** Every name of [names] has an equation in [d]. *)
Definition bound (names : list string) (d : gmap string bexpr) : Prop :=
  ∀ name, name ∈ names → is_Some (d !! name).

(** An equation map only gains disjuncts. *)
Definition grows (d d' : gmap string bexpr) : Prop :=
  ∀ key e, d !! key = Some e →
    ∃ e', d' !! key = Some e' ∧ ∀ v, eval v e = true → eval v e' = true.

(** The valuation [v] of the state bits is the state code [code], read
    from string index [i] on. *)
Fixpoint code_holds (v : string → bool) (i : nat) (code : string) : bool :=
  match code with
  | EmptyString => true
  | String bit rest =>
      Bool.eqb (v ("Y" +:+ pretty i)) (bool_decide (bit = "1"%char)) &&
      code_holds v (S i) rest
  end.

End TableMaker.

(** ** VHDL generator (app/processing/vhdl_generator.py)

    The module is modelled with SymPy installed ([sympy_available] is
    [True]), which is how the server runs it. *)

Module VhdlGenerator.
Import Py Sympy.

Definition nl : string := String "010"%char "".
Definition quote : string := String "034"%char "".

(** [s.ljust(width)]. *)
Definition ljust (s : string) (width : nat) : string :=
  s +:+ repeat_char " " (width - String.length s).

(** [c.isspace()] within ASCII. *)
Definition is_space (c : ascii) : bool :=
  bool_decide (c ∈ ["009"; "010"; "011"; "012"; "013"; "028"; "029"; "030"; "031"; " "]%char).

(** [s.rstrip()]. *)
Fixpoint rstrip (s : string) : string :=
  match s with
  | EmptyString => ""
  | String c rest =>
      let r := rstrip rest in
      if bool_decide (r = "") && is_space c then "" else String c r
  end.

(** [s.removesuffix(';')]. *)
Fixpoint removesuffix_semicolon (s : string) : string :=
  match s with
  | EmptyString => ""
  | String c rest =>
      if bool_decide (rest = "") then
        if bool_decide (c = ";"%char) then "" else s
      else String c (removesuffix_semicolon rest)
  end.

(** [state_vars.index(symbol)]. *)
Definition index (symbol : bexpr) (state_vars : list bexpr) : outcome nat :=
  match list_find (λ s, eqb symbol s = true) state_vars with
  | Some (i, _) => Ok i
  | None => Raise "ValueError"
  end.

Definition symbol_name (symbol : bexpr) : string :=
  match symbol with
  | Symbol name => name
  | _ => ""
  end.

(** [_get_state_bit_vhdl]: the [ValueError] of [index] is caught. *)
Definition _get_state_bit_vhdl (symbol : bexpr) (state_vars : list bexpr)
    (signal_name : string) : outcome string :=
  match index symbol state_vars with
  | Ok i => Ok (signal_name +:+ "(" +:+ pretty i +:+ ")")
  | Raise exc =>
      if decide (exc = "ValueError") then Ok ("'" +:+ symbol_name symbol +:+ "_ERROR'")
      else Raise exc
  end.

(** [sympy_expr_to_vhdl]. *)
Fixpoint sympy_expr_to_vhdl (expr : bexpr) (state_vars : list bexpr)
    (state_signal_name : string) : outcome string :=
  match expr with
  | BTrue => Ok "'1'"
  | BFalse => Ok "'0'"
  | Not arg =>
      operand_vhdl ← sympy_expr_to_vhdl arg state_vars state_signal_name;
      Ok ("(not " +:+ operand_vhdl +:+ ")")
  | And args =>
      args_vhdl ← mapM (λ arg,
                     s ← sympy_expr_to_vhdl arg state_vars state_signal_name;
                     Ok ("(" +:+ s +:+ ")")) args;
      Ok (join " and " args_vhdl)
  | Or args =>
      args_vhdl ← mapM (λ arg,
                     s ← sympy_expr_to_vhdl arg state_vars state_signal_name;
                     Ok ("(" +:+ s +:+ ")")) args;
      Ok (join " or " args_vhdl)
  | Symbol name =>
      if existsb (eqb expr) state_vars then
        _get_state_bit_vhdl expr state_vars state_signal_name
      else Ok name
  | Other type_name => Ok ("'UNEXPECTED_EXPR_" +:+ type_name +:+ "'")
  end.

(** The port list of the entity, up to and including the last port. *)
Definition port_list (entity_name : string) (inputs_list outputs_list : list string)
  : string :=
  let vhdl_code :=
    nl +:+ "library IEEE;" +:+ nl +:+
    "use IEEE.STD_LOGIC_1164.ALL;" +:+ nl +:+ nl +:+
    "entity " +:+ entity_name +:+ " is" +:+ nl +:+
    "    port (" +:+ nl +:+
    "        clk     : in  std_logic;" +:+ nl +:+
    "        reset   : in  std_logic;" +:+ nl in
  let vhdl_code :=
    match inputs_list with
    | [] => vhdl_code
    | _ =>
        foldl (λ code input_name,
                 code +:+ "        " +:+ ljust input_name 8 +:+ ": in  std_logic;" +:+ nl)
              (vhdl_code +:+ nl +:+ "        -- Inputs" +:+ nl) inputs_list
    end in
  match outputs_list, inputs_list with
  | _ :: _, _ =>
      let vhdl_code :=
        match inputs_list with
        | [] => vhdl_code
        | _ => removesuffix_semicolon (rstrip vhdl_code) +:+ ";" +:+ nl
        end in
      foldl (λ code '(i, output_name),
               code +:+ "        " +:+ ljust output_name 8 +:+ ": out std_logic" +:+
               (if decide (i < length outputs_list - 1) then ";" +:+ nl else nl))
            (vhdl_code +:+ nl +:+ "        -- Outputs" +:+ nl)
            (imap (λ i output_name, (i, output_name)) outputs_list)
  | [], _ :: _ => removesuffix_semicolon (rstrip vhdl_code) +:+ nl
  | [], [] => vhdl_code
  end.

(** The assignments to [next_state]. *)
Definition next_state_logic (num_bits : nat) (Y : list bexpr)
    (simplified_next_state_eqns : gmap string bexpr) (vhdl_code : string)
  : outcome string :=
  if decide (0 < num_bits) then
    fold_outcome
      (λ code i,
         next_state_var ← item (state_symbol_names num_bits) i;
         match simplified_next_state_eqns !! next_state_var with
         | Some eqn =>
             eqn_str ← sympy_expr_to_vhdl eqn Y "current_state";
             Ok (code +:+ "        next_state(" +:+ pretty i +:+ ") <= " +:+
                 eqn_str +:+ ";" +:+ nl)
         | None =>
             Ok (code +:+ "        next_state(" +:+ pretty i +:+
                 ") <= '0'; -- Default/missing equation for Y_next" +:+
                 pretty i +:+ nl)
         end)
      vhdl_code (seq 0 num_bits)
  else Ok (vhdl_code +:+ "        -- No next state logic (0 state bits)." +:+ nl).

(** The assignments to the outputs. *)
Definition output_logic (outputs_list outputs_sym_map : list string) (Y : list bexpr)
    (simplified_output_eqns : gmap string bexpr) (vhdl_code : string)
  : outcome string :=
  match outputs_list with
  | [] => Ok (vhdl_code +:+ "        -- No output logic defined." +:+ nl)
  | _ =>
      fold_outcome
        (λ code output_name,
           match (if decide (output_name ∈ outputs_sym_map)
                  then simplified_output_eqns !! output_name else None) with
           | Some eqn =>
               eqn_str ← sympy_expr_to_vhdl eqn Y "current_state";
               Ok (code +:+ "        " +:+ output_name +:+ " <= " +:+ eqn_str +:+ ";" +:+ nl)
           | None =>
               Ok (code +:+ "        " +:+ output_name +:+
                   " <= '0'; -- Default/missing equation for " +:+ output_name +:+ nl)
           end)
        vhdl_code outputs_list
  end.

(** [generate_vhdl].  [list(set(outputs_list))] is modelled as the list
    without its repetitions; the order Python gives a set of strings is
    not fixed by the language. *)
Definition generate_vhdl (entity_name : string) (inputs_list outputs_list : list string)
    (state_codes : list (Z * string))
    (simplified_next_state_eqns simplified_output_eqns : gmap string bexpr)
  : outcome string :=
  match state_codes with
  | [] => Ok "-- VHDL Generation Error: Missing state codes or equations."
  | (_, first_code) :: _ =>
      if decide (simplified_next_state_eqns = ∅ ∧ simplified_output_eqns = ∅) then
        Ok "-- VHDL Generation Error: Missing state codes or equations."
      else
        let outputs_list := remove_dups outputs_list in
        let num_bits := String.length first_code in
        if decide (num_bits = 0) then
          Ok "-- VHDL Generation Error: Invalid state codes (0 bits)."
        else
          let Y := state_symbols num_bits in
          let reset_state_code := repeat_char "0" num_bits in
          let vhdl_code := port_list entity_name inputs_list outputs_list in
          let vhdl_code :=
            vhdl_code +:+ "    );" +:+ nl +:+
            "end entity " +:+ entity_name +:+ ";" +:+ nl +:+ nl +:+
            "architecture Behavioral of " +:+ entity_name +:+ " is" +:+ nl +:+ nl +:+
            "    -- State register and next state logic signals" +:+ nl in
          let vhdl_code :=
            if decide (0 < num_bits) then
              vhdl_code +:+ "    signal current_state, next_state : std_logic_vector(" +:+
              pretty (num_bits - 1) +:+ " downto 0);" +:+ nl
            else vhdl_code +:+ "    -- No state bits defined." +:+ nl in
          outputs_sym_map ←
            match outputs_list with
            | [] => Ok []
            | _ =>
                match symbols outputs_list with
                | SymbolTuple syms => Ok (symbol_name <$> syms)
                | OneSymbol _ => Raise "TypeError"
                end
            end;
          let vhdl_code :=
            vhdl_code +:+ nl +:+ "begin" +:+ nl +:+ nl +:+
            "    -- Combinational logic for next state and outputs" +:+ nl +:+
            "    process (current_state" in
          let vhdl_code :=
            match inputs_list with
            | [] => vhdl_code
            | _ => vhdl_code +:+ ", " +:+ join ", " inputs_list
            end in
          let vhdl_code := vhdl_code +:+ ")" +:+ nl +:+ "    begin" +:+ nl in
          let vhdl_code := vhdl_code +:+ nl +:+ "        -- Next State Logic" +:+ nl in
          vhdl_code ← next_state_logic num_bits Y simplified_next_state_eqns vhdl_code;
          let vhdl_code := vhdl_code +:+ nl +:+ "        -- Output Logic" +:+ nl in
          vhdl_code ← output_logic outputs_list outputs_sym_map Y
                        simplified_output_eqns vhdl_code;
          let vhdl_code :=
            vhdl_code +:+ nl +:+ "    end process;" +:+ nl +:+ nl +:+
            "    -- State Register (Sequential logic)" +:+ nl +:+
            "    process (clk, reset)" +:+ nl +:+
            "    begin" +:+ nl +:+
            "        if reset = '1' then" +:+ nl in
          let vhdl_code :=
            if decide (0 < num_bits) then
              vhdl_code +:+ "            current_state <= " +:+ quote +:+
              reset_state_code +:+ quote +:+ "; -- Reset state" +:+ nl
            else vhdl_code +:+ "            -- No state register to reset." +:+ nl in
          let vhdl_code := vhdl_code +:+ "        elsif rising_edge(clk) then" +:+ nl in
          let vhdl_code :=
            if decide (0 < num_bits) then
              vhdl_code +:+ "            current_state <= next_state;" +:+ nl
            else vhdl_code +:+ "            -- No state register to update." +:+ nl in
          Ok (vhdl_code +:+
              "        end if;" +:+ nl +:+
              "    end process;" +:+ nl +:+ nl +:+
              "end architecture Behavioral;" +:+ nl)
  end.

End VhdlGenerator.

(** ** Graph normalizer (app/processing/parser.py)

    [parse_drawflow_data] receives whatever JSON document the request
    carries, so it is modelled on JSON values, with the exceptions Python
    raises when a method is missing on a value. *)

Module Parser.
Import Py.

(** A parsed JSON document.  A float is kept as the text [str] gives it;
    the keys of a [JDict] are pairwise distinct and in document order. *)
Inductive json : Type :=
| JNull
| JBool (b : bool)
| JInt (i : Z)
| JFloat (text : string)
| JStr (s : string)
| JList (l : list json)
| JDict (items : list (string * json)).

(** The dictionary [parse_drawflow_data] builds for a node. *)
Record filtered_node := FilteredNode {
  f_id : json;
  f_type : json;
  f_inputs : json;
  f_outputs : json;
  f_node_data : json
}.

Inductive warning :=
| NotADictionary
| IdMismatch (key : string)
| InvalidShape (key : string).

Record parsed := Parsed {
  filtered_nodes : list filtered_node;
  warnings : list warning
}.

(** [x.get(key, default)]: only a dictionary has the method. *)
Definition get (x : json) (key : string) (default : json) : outcome json :=
  match x with
  | JDict items =>
      Ok match dict_get key items with
         | Some a => a
         | None => default
         end
  | _ => Raise "AttributeError"
  end.

Section parse.

(** How Python prints a list or a dictionary. *)
Variable repr : json → string.

(** [str(x)]. *)
Definition str (x : json) : string :=
  match x with
  | JNull => "None"
  | JBool true => "True"
  | JBool false => "False"
  | JInt i => pretty i
  | JFloat text => text
  | JStr s => s
  | JList _ | JDict _ => repr x
  end.

Definition required_keys : list string := ["id"; "name"; "inputs"; "outputs"; "data"].

(** The body of the loop over the entries of the node collection. *)
Definition parse_node (acc : parsed) (entry : string * json) : outcome parsed :=
  let '(node_id, node_obj) := entry in
  match node_obj with
  | JDict items =>
      if forallb (λ k, bool_decide (is_Some (dict_get k items))) required_keys then
        id_value ← get node_obj "id" JNull;
        if decide (str id_value ≠ node_id) then
          Ok (Parsed (filtered_nodes acc) (warnings acc ++ [IdMismatch node_id]))
        else
          data ← get node_obj "data" (JDict []);
          node_specific_data_content ← get data "data" (JStr "");
          name ← get node_obj "name" JNull;
          inputs ← get node_obj "inputs" (JDict []);
          outputs ← get node_obj "outputs" (JDict []);
          Ok (Parsed
                (filtered_nodes acc ++
                 [FilteredNode id_value name inputs outputs node_specific_data_content])
                (warnings acc))
      else Ok (Parsed (filtered_nodes acc) (warnings acc ++ [InvalidShape node_id]))
  | _ => Ok (Parsed (filtered_nodes acc) (warnings acc ++ [InvalidShape node_id]))
  end.

(** [parse_drawflow_data]. *)
Definition parse_drawflow_data (drawflow_data : json) : outcome parsed :=
  drawflow ← get drawflow_data "drawflow" (JDict []);
  home ← get drawflow "Home" (JDict []);
  nodes_data ← get home "data" (JDict []);
  match nodes_data with
  | JDict items => fold_outcome parse_node (Parsed [] []) items
  | _ => Ok (Parsed [] [NotADictionary])
  end.

(** The keys under which the path finder will index the parsed nodes:
    [str(node['id'])]. *)
Definition parsed_keys (r : parsed) : list string :=
  (λ n, str (f_id n)) <$> filtered_nodes r.

End parse.

End Parser.

(** ** Equation simplification and the request handler
    (app/processing/state_reducer.py, main.py) *)

Module Main.
Import Py Sympy.

Section pipeline.

(** SymPy's [simplify_logic(expression, form='dnf', force=True)]; it may
    raise. *)
Variable simplify_logic : bexpr → outcome bexpr.

(** [simplify_equations]: an expression whose simplification raises is
    kept as it is. *)
Definition simplify_equations (equations_dict : gmap string bexpr) : gmap string bexpr :=
  (λ expression,
     match simplify_logic expression with
     | Ok simplified_expr => simplified_expr
     | Raise _ => expression
     end) <$> equations_dict.

(** The processing steps of [save_drawflow_data] from the filtered nodes
    to the VHDL text.  A search that exhausts its budget would be a
    [RecursionError]; the termination theorem excludes it. *)
Definition save_drawflow_data (filtered : list node) : outcome string :=
  link_path ← match PathFinder.find_link_paths filtered with
              | Some paths => Ok paths
              | None => Raise "RecursionError"
              end;
  let paths := Annotator.get_formatted_details_for_all_paths link_path filtered in
  match TableMaker.prepare_table_elements filtered with
  | TableMaker.Table3 _ _ _ => Raise "ValueError"
  | TableMaker.Table4 state_list input_list event_outputs state_outputs =>
      let state_codes := TableMaker.assign_state_codes state_list in
      equation ← TableMaker.generate_boolean_equations paths state_codes input_list
                   event_outputs state_outputs;
      let simplified_state_equations := simplify_equations equation.1 in
      let simplified_output_equations := simplify_equations equation.2 in
      let flat_list := mjoin (snd <$> state_outputs) in
      let total_output := flat_list ++ event_outputs in
      VhdlGenerator.generate_vhdl "test" input_list total_output state_codes
        simplified_state_equations simplified_output_equations
  end.

End pipeline.

(** A reducer to disjunctive normal form has nothing to do on a literal
    or a conjunction of literals: it returns its argument. *)
Definition literal (e : bexpr) : bool :=
  match e with
  | Symbol _ | Not (Symbol _) => true
  | _ => false
  end.

Definition conjunction_of_literals (e : bexpr) : bool :=
  match e with
  | And args => forallb literal args
  | _ => literal e
  end.

Definition keeps_conjunctions (simplify_logic : bexpr → outcome bexpr) : Prop :=
  ∀ e, conjunction_of_literals e = true → simplify_logic e = Ok e.

End Main.

(** ** The scenarios of the specification, as node tables *)

Module Scenarios.

Definition to (target : string) : connection := Connection (Some target) None.
Definition from (source port_name : string) : connection :=
  Connection (Some source) (Some port_name).

(** S1: states A (1) and B (2); A reaches B through the event 3 and B
    reaches A through the event 4, both with text [tick]. *)
Definition toggle : list node := [
  Node (Some 1%Z) "state"
       [("input_1", Port [from "4" "output_1"])]
       [("output_1", Port [to "3"])] "";
  Node (Some 2%Z) "state"
       [("input_1", Port [from "3" "output_1"])]
       [("output_1", Port [to "4"])] "";
  Node (Some 3%Z) "event"
       [("input_1", Port [from "1" "output_1"])]
       [("output_1", Port [to "2"])] "tick";
  Node (Some 4%Z) "event"
       [("input_1", Port [from "2" "output_1"])]
       [("output_1", Port [to "1"])] "tick"
].

(** S2: states S0 (1), S1 (2), S2 (3) and a decision (4) on [x]; S0 leads
    to the decision, whose [output_1] leads to S1 and [output_2] to S2. *)
Definition branch : list node := [
  Node (Some 1%Z) "state"
       [("input_1", Port [])]
       [("output_1", Port [to "4"])] "";
  Node (Some 2%Z) "state"
       [("input_1", Port [from "4" "output_1"])]
       [("output_1", Port [])] "";
  Node (Some 3%Z) "state"
       [("input_1", Port [from "4" "output_2"])]
       [("output_1", Port [])] "";
  Node (Some 4%Z) "decision"
       [("input_1", Port [from "1" "output_1"])]
       [("output_1", Port [to "2"]); ("output_2", Port [to "3"])] "x"
].


(** Two states (1, 2) wired directly to one another: no input, no output. *)
Definition flip : list node := [
  Node (Some 1%Z) "state"
       [("input_1", Port [from "2" "output_1"])]
       [("output_1", Port [to "2"])] "";
  Node (Some 2%Z) "state"
       [("input_1", Port [from "1" "output_1"])]
       [("output_1", Port [to "1"])] ""
].

Definition flip_state_codes : list (Z * string) := [(1%Z, "0"); (2%Z, "1")].

(** A document whose [drawflow] entry is not an object, and one whose only
    node carries a string where its [data] object should be. *)
Definition scalar_drawflow : Parser.json :=
  Parser.JDict [("drawflow", Parser.JInt 5)].

Definition string_data : Parser.json :=
  Parser.JDict [("drawflow", Parser.JDict [("Home", Parser.JDict [("data",
    Parser.JDict [("1", Parser.JDict [
      ("id", Parser.JInt 1); ("name", Parser.JStr "state");
      ("inputs", Parser.JDict []); ("outputs", Parser.JDict []);
      ("data", Parser.JStr "led")])])])])].

(** A document without the node collection. *)
Definition empty_document : Parser.json := Parser.JDict [].

(** What the specification expects in the VHDL of S2, and what the
    pipeline writes. *)
Definition branch_expected_0 : string :=
  "next_state(0) <= ((not current_state(1)) and (not current_state(0)) and x)".
Definition branch_expected_1 : string :=
  "next_state(1) <= ((not current_state(1)) and (not current_state(0)) and (not x))".
Definition branch_emitted_0 : string :=
  "next_state(0) <= ((not current_state(0))) and ((not current_state(1))) and ((not x));".
Definition branch_emitted_1 : string :=
  "next_state(1) <= (x) and ((not current_state(0))) and ((not current_state(1)));".

(** The last port of an entity without inputs and outputs, as written. *)
Definition dangling_semicolon : string :=
  "reset   : in  std_logic;" +:+ VhdlGenerator.nl +:+ "    );".

(** The claim of the specification about S2, for a given reducer. *)
Definition branch_as_specified (simplify_logic : Sympy.bexpr → Py.outcome Sympy.bexpr)
  : Prop :=
  TableMaker.assign_state_codes [1; 2; 3]%Z = [(1, "00"); (2, "01"); (3, "10")]%Z ∧
  ∃ vhdl_code,
    Main.save_drawflow_data simplify_logic branch = Py.Ok vhdl_code ∧
    Py.contains branch_expected_0 vhdl_code = true ∧
    Py.contains branch_expected_1 vhdl_code = true.

(** What the pipeline does on S2. *)
Definition branch_as_emitted (simplify_logic : Sympy.bexpr → Py.outcome Sympy.bexpr)
  : Prop :=
  TableMaker.prepare_table_elements branch = TableMaker.Table4 [1; 2; 3]%Z ["x"] [] [] ∧
  TableMaker.assign_state_codes [1; 2; 3]%Z = [(1, "00"); (2, "01"); (3, "10")]%Z ∧
  ∃ vhdl_code,
    Main.save_drawflow_data simplify_logic branch = Py.Ok vhdl_code ∧
    Py.contains branch_emitted_0 vhdl_code = true ∧
    Py.contains branch_emitted_1 vhdl_code = true.

(** The VHDL text of S2 with a reducer that leaves the equations alone. *)
Definition branch_vhdl : string :=
  Eval vm_compute in
    match Main.save_drawflow_data Py.Ok branch with
    | Py.Ok vhdl_code => vhdl_code
    | Py.Raise _ => ""
    end.

End Scenarios.

(** ** Further notions about paths *)

Module Paths.
Import PathFinder.

(** The nodes [l] follow one another along output connections from [a],
    and all of them are of a type other than ['state']. *)
Fixpoint trail (nodes : list node) (a : string) (l : list string) : Prop :=
  match l with
  | [] => True
  | x :: l' => edge nodes a x ∧ intermediate_id nodes x ∧ trail nodes x l'
  end.

(** The node a trail from [a] along [l] ends at. *)
Definition trail_end (a : string) (l : list string) : string := List.last l a.

(** A path that follows the connections of the chart from a state to a
    state through intermediate nodes. *)
Definition traced (nodes : list node) (p : list string) : Prop :=
  ∃ s l t, p = s :: l ++ [t] ∧ state_id nodes s ∧ state_id nodes t ∧
           walk nodes s l t.

(** A reported cycle: a trail from a state that leads back to one of its
    own intermediate nodes. *)
Definition revisits (nodes : list node) (w : list string) : Prop :=
  ∃ s l x, w = s :: l ++ [x] ∧ state_id nodes s ∧ trail nodes s l ∧
           edge nodes (trail_end s l) x ∧ x ∈ l.

End Paths.

(** ** A chart with a cycle *)

Module Cyclic.
Import Scenarios.

(** A state (1) leads to a decision (2); its [output_1] leads to a second
    decision (3) and its [output_2] to a state (4); the second decision
    leads back to the first through [output_1] and to the state through
    [output_2]. *)
Definition chart : list node := [
  Node (Some 1%Z) "state"
       [("input_1", Port [])]
       [("output_1", Port [to "2"])] "";
  Node (Some 2%Z) "decision"
       [("input_1", Port [from "1" "output_1"; from "3" "output_1"])]
       [("output_1", Port [to "3"]); ("output_2", Port [to "4"])] "x";
  Node (Some 3%Z) "decision"
       [("input_1", Port [from "2" "output_1"])]
       [("output_1", Port [to "2"]); ("output_2", Port [to "4"])] "y";
  Node (Some 4%Z) "state"
       [("input_1", Port [from "2" "output_2"; from "3" "output_2"])]
       [("output_1", Port [])] ""
].

End Cyclic.

(** ** Readings of the tables (app/processing/table_maker.py)

    What the tables and equations of the table maker say, in terms of
    the nodes and of valuations of the symbols. *)

Module Tables.
Import Py Sympy Annotator TableMaker.

(** The Moore table of [prepare_table_elements] for the nodes [nodes]:
    one entry per state id; each entry holds the lines of the text of a
    state node with that id and a non-empty text; every such node has an
    entry. *)
Definition moore_table_of (nodes : list node) (d : list (Z * list string)) : Prop :=
  NoDup d.*1 ∧
  (∀ state_id output_list, (state_id, output_list) ∈ d →
     ∃ n, n ∈ nodes ∧ type n = "state" ∧ id n = Some state_id ∧ node_data n ≠ "" ∧
          output_list = splitlines (node_data n)) ∧
  (∀ n state_id, n ∈ nodes → type n = "state" → id n = Some state_id →
     node_data n ≠ "" → is_Some (dict_get state_id d)).

(** [int(code, 2)] on a string of binary digits. *)
Fixpoint int_of_binary_from (acc : nat) (code : string) : nat :=
  match code with
  | EmptyString => acc
  | String bit rest =>
      int_of_binary_from (2 * acc + (if decide (bit = "1"%char) then 1 else 0)) rest
  end.

Definition int_of_binary (code : string) : nat := int_of_binary_from 0 code.

(** [code[i] == '1'], false past the end of the code. *)
Definition bit_set (code : string) (i : nat) : bool :=
  match String.get i code with
  | Some bit => bool_decide (bit = "1"%char)
  | None => false
  end.

(** The codes of the states a path starts and ends in, for a path the
    loop of [generate_boolean_equations] does not skip: its first entry
    is present and has a code, its last entry is present, is of type
    ['state'] and has a code. *)
Definition transition (state_codes : list (Z * string)) (path : list (option step))
  : option (string * string) :=
  match path with
  | Some start_node_details :: _ =>
      start_state_code ← s_id start_node_details ≫= (λ i, dict_get i state_codes);
      match last path with
      | Some (Some end_node_details) =>
          if decide (s_type end_node_details = "state") then
            end_state_code ← s_id end_node_details ≫= (λ i, dict_get i state_codes);
            Some (start_state_code, end_state_code)
          else None
      | _ => None
      end
  | _ => None
  end.

(** The condition the step into [path[i]] adds to the path condition:
    the value the indicator of [path[i]] asks of the variable of the
    decision [path[i-1]], when that variable is an input. *)
Definition step_holds (v : string → bool) (path : list (option step))
    (input_vars_list : list string) (i : nat) : bool :=
  match path !! i, path !! (i - 1) with
  | Some (Some current_node_details), Some (Some prev_node_details) =>
      if decide (s_type prev_node_details = "decision" ∧
                 s_data prev_node_details ∈ input_vars_list) then
        match indicator current_node_details with
        | Some b => Bool.eqb (v (s_data prev_node_details)) b
        | None => true
        end
      else true
  | _, _ => true
  end.

(** The valuation [v] lets the machine take the path: the state bits
    spell the code of the start state and every decision on the path
    goes the way the path does. *)
Definition path_holds (v : string → bool) (state_codes : list (Z * string))
    (input_vars_list : list string) (path : list (option step)) : bool :=
  match transition state_codes path with
  | Some (start_state_code, _) =>
      code_holds v 0 start_state_code &&
      forallb (step_holds v path input_vars_list) (seq 1 (length path - 1))
  | None => false
  end.

(** The path ends in a state whose code has ['1'] at index [i]. *)
Definition sets_bit (state_codes : list (Z * string)) (path : list (option step))
    (i : nat) : bool :=
  match transition state_codes path with
  | Some (_, end_state_code) => bit_set end_state_code i
  | None => false
  end.

(** The path passes an event node whose text is the event output [name]. *)
Definition emits (event_outputs_list : list string) (path : list (option step))
    (name : string) : bool :=
  bool_decide (name ∈ event_outputs_list) &&
  existsb (λ node_details,
             match node_details with
             | Some details =>
                 bool_decide (s_type details = "event" ∧ s_data details = name)
             | None => false
             end) path.

(** The state bits spell the code of a state that lists [name] among its
    Moore outputs. *)
Definition moore_holds (v : string → bool) (state_codes : list (Z * string))
    (state_outputs_dict : list (Z * list string)) (name : string) : bool :=
  existsb (λ '(state_id, output_list),
             bool_decide (name ∈ output_list) &&
             match dict_get state_id state_codes with
             | Some state_code => code_holds v 0 state_code
             | None => false
             end) state_outputs_dict.

End Tables.

(** ** Binary padding (app/utils/padded_binary.py) *)

Module PaddedBinary.
Import Py.

(** [s.zfill(width)] on a string without a sign. *)
Definition zfill (s : string) (width : Z) : string :=
  repeat_char "0" (Z.to_nat width - String.length s) +:+ s.

(** [padded_binary].  [math.ceil(math.log2(number + 1))] is taken
    exactly, as the floating-point one is for numbers below [2 ^ 32]. *)
Definition padded_binary (number width : Z) : outcome string :=
  if decide (number < 0)%Z then Raise "ValueError"
  else
    let min_width :=
      if decide (0 < number)%Z then Z.log2_up (number + 1) else 1%Z in
    if decide (width < min_width)%Z then Raise "ValueError"
    else Ok (zfill (binary (Z.to_nat number)) width).

End PaddedBinary.

(** ** Readings of the VHDL generator *)

Module Rendering.
Import Py Sympy.

(** The guards of [generate_vhdl] let the call through to the template. *)
Definition reaches_template (state_codes : list (Z * string))
    (next_state_eqns output_eqns : gmap string bexpr) : Prop :=
  ¬ (next_state_eqns = ∅ ∧ output_eqns = ∅) ∧
  ∃ first_id first_code rest,
    state_codes = (first_id, first_code) :: rest ∧ first_code ≠ "".

End Rendering.

(** ** Further examples *)

Module Examples.
Import Annotator.

(** The two link paths of S2, annotated. *)
Definition branch_paths : list (list (option step)) := [
  [Some (Step (Some 1%Z) "" "state" None);
   Some (Step (Some 4%Z) "x" "decision" (Some true));
   Some (Step (Some 2%Z) "" "state" (Some true))];
  [Some (Step (Some 1%Z) "" "state" None);
   Some (Step (Some 4%Z) "x" "decision" (Some true));
   Some (Step (Some 3%Z) "" "state" (Some false))]
].

Definition branch_codes : list (Z * string) := [(1%Z, "00"); (2%Z, "01"); (3%Z, "10")].

(** A chart of one decision node. *)
Definition lone_decision : list node := [Node (Some 1%Z) "decision" [] [] "x"].

(** A document with one state node. *)
Definition one_state_items : list (string * Parser.json) :=
  [("1", Parser.JDict [
      ("id", Parser.JInt 1); ("name", Parser.JStr "state");
      ("inputs", Parser.JDict []); ("outputs", Parser.JDict []);
      ("data", Parser.JDict [("data", Parser.JStr "led")])])].

Definition one_state_home : Parser.json :=
  Parser.JDict [("data", Parser.JDict one_state_items)].

Definition one_state_drawflow : Parser.json := Parser.JDict [("Home", one_state_home)].

Definition one_state_document : Parser.json :=
  Parser.JDict [("drawflow", one_state_drawflow)].

End Examples.

(** * Properties *)

(** ** Loops *)

Section for_each_lemmas.
Context {A S : Type}.
Import Py.
Implicit Types (l : list A) (body : A → S → option S).

Lemma for_each_app l1 l2 body s :
  for_each (l1 ++ l2) body s =
  match for_each l1 body s with
  | Some s' => for_each l2 body s'
  | None => None
  end.
Proof.
  revert s; induction l1 as [|a l1 IH]; intros s; simpl; [done|].
  destruct (body a s); [apply IH | done].
Qed.

(** Every iteration returns, so the loop does. *)
Lemma for_each_total (I : S → Prop) l body s :
  I s →
  (∀ a s, a ∈ l → I s → ∃ s', body a s = Some s' ∧ I s') →
  ∃ s', for_each l body s = Some s' ∧ I s'.
Proof.
  revert s; induction l as [|a l IH]; intros s Hs Hbody; simpl.
  - eauto.
  - destruct (Hbody a s) as (s1 & -> & Hs1); [left | done |].
    apply IH; [done|]. intros b t Hb. apply Hbody. by right.
Qed.

(** A loop invariant. *)
Lemma for_each_inv (I : S → Prop) l body s s' :
  I s →
  (∀ a s s', a ∈ l → I s → body a s = Some s' → I s') →
  for_each l body s = Some s' → I s'.
Proof.
  revert s; induction l as [|a l IH]; intros s Hs Hbody; simpl.
  - by intros [= <-].
  - destruct (body a s) as [s1|] eqn:E; [|done].
    apply IH; [by eapply (Hbody a); [left|..] |].
    intros b t t' Hb. apply Hbody. by right.
Qed.

(** Two bodies that agree wherever the first one returns. *)
Lemma for_each_mono l body body' s s' :
  (∀ a s s', a ∈ l → body a s = Some s' → body' a s = Some s') →
  for_each l body s = Some s' → for_each l body' s = Some s'.
Proof.
  revert s; induction l as [|a l IH]; intros s Hbody; simpl; [done|].
  destruct (body a s) as [s1|] eqn:E; [|done].
  rewrite (Hbody a s s1); [|left|done].
  apply IH. intros b t t' Hb. apply Hbody. by right.
Qed.

(** What one iteration establishes, and the later ones keep, holds at
    the end. *)
Lemma for_each_reach (J : S → Prop) l body a s s' :
  a ∈ l →
  (∀ s s', body a s = Some s' → J s') →
  (∀ b s s', b ∈ l → J s → body b s = Some s' → J s') →
  for_each l body s = Some s' → J s'.
Proof.
  intros Ha Hest Hkeep.
  apply list_elem_of_split in Ha as (l1 & l2 & ->).
  rewrite for_each_app.
  destruct (for_each l1 body s) as [s1|]; [simpl|done].
  destruct (body a s1) as [s2|] eqn:E; [|done].
  apply for_each_inv; [by eapply Hest|].
  intros b t t' Hb. apply Hkeep.
  rewrite elem_of_app. right. by right.
Qed.
End for_each_lemmas.

Section fold_outcome_lemmas.
Context {A S : Type}.
Import Py.
Implicit Types (l : list A) (body : S → A → outcome S).

Lemma fold_outcome_app l1 l2 body s :
  fold_outcome body s (l1 ++ l2) =
  match fold_outcome body s l1 with
  | Ok s' => fold_outcome body s' l2
  | Raise e => Raise e
  end.
Proof.
  revert s; induction l1 as [|a l1 IH]; intros s; simpl; [done|].
  destruct (body s a); [apply IH | done].
Qed.

(** A loop whose every turn returns and keeps [I] returns and keeps [I]. *)
Lemma fold_outcome_total (I : S → Prop) l body s :
  I s →
  (∀ s a, a ∈ l → I s → ∃ s', body s a = Ok s' ∧ I s') →
  ∃ s', fold_outcome body s l = Ok s' ∧ I s'.
Proof.
  revert s; induction l as [|a l IH]; intros s Hs Hbody; simpl.
  - eauto.
  - destruct (Hbody s a) as (s1 & -> & Hs1); [left | done |].
    apply IH; [done|]. intros t b Hb. apply Hbody. by right.
Qed.

Lemma fold_outcome_inv (I : S → Prop) l body s s' :
  I s →
  (∀ s a s', a ∈ l → I s → body s a = Ok s' → I s') →
  fold_outcome body s l = Ok s' → I s'.
Proof.
  revert s; induction l as [|a l IH]; intros s Hs Hbody; simpl.
  - by intros [= <-].
  - destruct (body s a) as [s1|] eqn:E; [|done].
    apply IH; [by eapply (Hbody s a); [left|..] |].
    intros t b t' Hb. apply Hbody. by right.
Qed.

End fold_outcome_lemmas.

(** ** Path finder: the search returns *)

Section path_finder_termination.
Import Py PathFinder.
Implicit Types (m : gmap string node) (visited : gset string) (st : search).

Lemma visited_grows cur visited :
  cur ∉ visited → size ({[cur]} ∪ visited) = S (size visited).
Proof.
  intros Hcur. rewrite size_union; [|set_solver]. by rewrite size_singleton.
Qed.

Lemma visit_connection_returns recurse m cur path visited conn st :
  (∀ target p st', is_Some (m !! target) → target ∉ visited →
     is_Some (recurse target p visited st')) →
  is_Some (visit_connection recurse m cur path visited conn st).
Proof.
  intros Hrec. unfold visit_connection.
  destruct (c_node conn) as [target|]; [|done].
  case_decide; [done|].
  destruct (m !! target) as [target_node|] eqn:Htarget; [|done].
  case_decide; [done|]. case_decide; [done|].
  apply Hrec; [by rewrite Htarget | done].
Qed.

Lemma dfs_unfold depth m cur path visited st :
  _dfs_find_paths (S depth) m cur path visited st =
  match m !! cur with
  | None => Some (report (NodeNotFound cur) st)
  | Some current_node =>
      outputs_loop (_dfs_find_paths depth m) m cur path ({[cur]} ∪ visited)
        current_node st
  end.
Proof.
  simpl. destruct (m !! cur) as [current_node|]; [|done].
  unfold outputs_loop. by destruct (outputs current_node).
Qed.

Lemma outputs_loop_returns recurse m cur path visited current_node st :
  (∀ target p st', is_Some (m !! target) → target ∉ visited →
     is_Some (recurse target p visited st')) →
  is_Some (outputs_loop recurse m cur path visited current_node st).
Proof.
  intros Hrec. unfold outputs_loop.
  destruct (for_each_total (λ _, True) (outputs current_node)
    (λ '(output_port, port_data),
       for_each (connections port_data)
         (visit_connection recurse m cur path visited)) st)
    as (st' & Hst' & _); [done| |by rewrite Hst'].
  intros [output_port port_data] st1 _ _.
  destruct (for_each_total (λ _, True) (connections port_data)
    (visit_connection recurse m cur path visited) st1)
    as (st2 & Hst2 & _); [done| |by eauto].
  intros conn st2 _ _.
  destruct (visit_connection_returns recurse m cur path visited conn st2)
    as [st3 Hst3]; by eauto.
Qed.

Lemma dfs_returns depth m cur path visited st :
  is_Some (m !! cur) → cur ∉ visited → visited ⊆ dom m →
  size (dom m) ≤ depth + size visited →
  is_Some (_dfs_find_paths depth m cur path visited st).
Proof.
  revert cur path visited st.
  induction depth as [|depth IH]; intros cur path visited st Hcur Hfresh Hsub Hsize.
  - exfalso.
    assert (size visited < size (dom m)); [|lia].
    apply subset_size. split; [done|].
    intros Hdom. apply Hfresh, Hdom. by apply elem_of_dom.
  - rewrite dfs_unfold. destruct Hcur as [current_node Hcur]. rewrite Hcur.
    apply outputs_loop_returns.
    intros target p st3 Htarget Hnew. apply IH; [done..| |].
    + apply union_subseteq. split; [|done].
      apply singleton_subseteq_l, elem_of_dom. by rewrite Hcur.
    + rewrite visited_grows; [lia|]. done.
Qed.

Lemma visit_connection_mono recurse recurse' m cur path visited conn st r :
  (∀ target p v st' r', recurse target p v st' = Some r' →
     recurse' target p v st' = Some r') →
  visit_connection recurse m cur path visited conn st = Some r →
  visit_connection recurse' m cur path visited conn st = Some r.
Proof.
  intros Hrec. unfold visit_connection.
  repeat (case_match; try done). apply Hrec.
Qed.

Lemma outputs_loop_mono recurse recurse' m cur path visited current_node st r :
  (∀ target p v st' r', recurse target p v st' = Some r' →
     recurse' target p v st' = Some r') →
  outputs_loop recurse m cur path visited current_node st = Some r →
  outputs_loop recurse' m cur path visited current_node st = Some r.
Proof.
  intros Hrec. unfold outputs_loop.
  apply for_each_mono. intros [output_port port_data] st1 r1 _.
  apply for_each_mono. intros conn st2 r2 _.
  by apply visit_connection_mono.
Qed.

(** A larger budget does not change what a search returns. *)
Lemma dfs_depth_mono depth depth' m cur path visited st r :
  depth ≤ depth' →
  _dfs_find_paths depth m cur path visited st = Some r →
  _dfs_find_paths depth' m cur path visited st = Some r.
Proof.
  revert depth' cur path visited st r.
  induction depth as [|depth IH]; intros depth' cur path visited st r Hle; [done|].
  destruct depth' as [|depth']; [lia|]. rewrite !dfs_unfold.
  destruct (m !! cur) as [current_node|]; [|done].
  apply outputs_loop_mono. intros target p v st3 r3.
  apply IH. lia.
Qed.

Lemma index_node_size acc n :
  size (index_node acc n).1 ≤ S (size acc.1).
Proof.
  unfold index_node. destruct (id n) as [node_id|]; simpl; [|lia].
  rewrite map_size_insert. case_match; unfold Datatypes.id; lia.
Qed.

Lemma build_index_size_from acc nodes :
  size (foldl index_node acc nodes).1 ≤ size acc.1 + length nodes.
Proof.
  revert acc; induction nodes as [|n nodes IH]; intros acc; simpl; [lia|].
  etrans; [apply IH|]. pose proof (index_node_size acc n). lia.
Qed.

Lemma build_index_size nodes :
  size (build_index nodes).1 ≤ length nodes.
Proof.
  unfold build_index. etrans; [apply build_index_size_from|].
  simpl. rewrite map_size_empty. lia.
Qed.

Lemma index_node_seeds acc n :
  (∀ k, k ∈ acc.2 → is_Some (acc.1 !! k)) →
  ∀ k, k ∈ (index_node acc n).2 → is_Some ((index_node acc n).1 !! k).
Proof.
  intros Hacc k. unfold index_node.
  destruct (id n) as [node_id|]; simpl; [|by apply Hacc].
  intros Hk. destruct (decide (Py.str node_id = k)) as [->|Hne].
  { by rewrite lookup_insert_eq. }
  rewrite lookup_insert_ne by done.
  apply Hacc. case_decide; [|done].
  apply elem_of_app in Hk as [?|Hk]; [done|].
  apply list_elem_of_singleton in Hk. congruence.
Qed.

Lemma build_index_seeds_from acc nodes :
  (∀ k, k ∈ acc.2 → is_Some (acc.1 !! k)) →
  ∀ k, k ∈ (foldl index_node acc nodes).2 →
       is_Some ((foldl index_node acc nodes).1 !! k).
Proof.
  revert acc; induction nodes as [|n nodes IH]; intros acc Hacc; simpl; [done|].
  apply IH. by apply index_node_seeds.
Qed.

Lemma build_index_seeds nodes k :
  k ∈ (build_index nodes).2 → is_Some ((build_index nodes).1 !! k).
Proof.
  apply build_index_seeds_from. simpl. intros k' Hk'. by apply elem_of_nil in Hk'.
Qed.

Lemma find_link_paths_within_returns depth nodes :
  length nodes ≤ depth → is_Some (find_link_paths_within depth nodes).
Proof.
  intros Hdepth. unfold find_link_paths_within.
  destruct nodes as [|n nodes]; [done|].
  pose proof (build_index_size (n :: nodes)) as Hsize.
  pose proof (build_index_seeds (n :: nodes)) as Hseeds.
  destruct (build_index (n :: nodes)) as [m seeds]; simpl in Hsize, Hseeds.
  case_decide; [done|]. destruct seeds as [|seed seeds]; [done|].
  destruct (for_each_total (λ _, True) (seed :: seeds)
    (λ start_id, _dfs_find_paths depth m start_id [start_id] ∅)
    (Search [] [])) as (r & -> & _); [done| |done].
  intros start_id st Hstart _.
  destruct (dfs_returns depth m start_id [start_id] ∅ st) as [r Hr];
    [by apply Hseeds|set_solver|set_solver| |by eauto].
  rewrite size_empty, size_dom. simpl in Hdepth. lia.
Qed.

Lemma find_link_paths_within_mono depth depth' nodes r :
  depth ≤ depth' →
  find_link_paths_within depth nodes = Some r →
  find_link_paths_within depth' nodes = Some r.
Proof.
  intros Hle. unfold find_link_paths_within.
  destruct nodes as [|n nodes]; [done|].
  destruct (build_index (n :: nodes)) as [m seeds].
  case_decide; [done|]. destruct seeds as [|seed seeds]; [done|].
  apply for_each_mono. intros start_id st r' _. by apply dfs_depth_mono.
Qed.

End path_finder_termination.

(** ** Path finder: what the search appends *)

Lemma pretty_N_go_nonempty (x : N) (s : string) : s ≠ "" → pretty_N_go x s ≠ "".
Proof.
  revert s. induction (N.lt_wf_0 x) as [x _ IH]; intros s Hs.
  destruct (decide (x = 0)%N) as [->|Hx]; [by rewrite pretty_N_go_0|].
  rewrite pretty_N_go_step by lia. apply IH; [|done].
  apply N.div_lt; lia.
Qed.

Lemma str_nonempty (i : Z) : Py.str i ≠ "".
Proof.
  assert (∀ p : positive, pretty p ≠ "") as Hpos.
  { intros p. unfold pretty, pretty_positive, pretty, pretty_N.
    case_decide; [done|]. rewrite pretty_N_go_step by lia.
    by apply pretty_N_go_nonempty. }
  unfold Py.str, pretty, pretty_Z. destruct i as [|p|p]; [done|apply Hpos|done].
Qed.

Section search_invariants.
Import Py PathFinder.
Context (nodes : list node) (m : gmap string node).
Hypothesis Hindex : ∀ k n, m !! k = Some n ↔ is_node nodes k n.
Implicit Types (visited : gset string) (st : search).

Lemma lookup_state k n : m !! k = Some n → type n = "state" → state_id nodes k.
Proof. intros Hk Hn. exists n. split; [by apply Hindex | done]. Qed.

Lemma lookup_intermediate k n :
  m !! k = Some n → type n ≠ "state" → intermediate_id nodes k.
Proof. intros Hk Hn. exists n. split; [by apply Hindex | done]. Qed.

Lemma intermediate_not_state k : intermediate_id nodes k → ¬ state_id nodes k.
Proof.
  intros (n & Hn & Htype) (n' & Hn' & Htype').
  apply Hindex in Hn, Hn'. congruence.
Qed.

Lemma outputs_loop_inv (I : search → Prop) recurse cur path visited current_node st r :
  I st →
  (∀ conn st st', I st →
     visit_connection recurse m cur path visited conn st = Some st' → I st') →
  outputs_loop recurse m cur path visited current_node st = Some r → I r.
Proof.
  intros Hst Hbody. unfold outputs_loop.
  apply for_each_inv; [done|].
  intros [output_port port_data] st1 st1' _ Hst1.
  apply for_each_inv; [done|].
  intros conn st2 st2' _. apply Hbody.
Qed.

Lemma outputs_loop_reach (J : search → Prop) recurse cur path visited
    current_node output_port port_data conn st r :
  (output_port, port_data) ∈ outputs current_node →
  conn ∈ connections port_data →
  (∀ st st', visit_connection recurse m cur path visited conn st = Some st' → J st') →
  (∀ conn' st st', J st →
     visit_connection recurse m cur path visited conn' st = Some st' → J st') →
  outputs_loop recurse m cur path visited current_node st = Some r → J r.
Proof.
  intros Hport Hconn Hest Hkeep. unfold outputs_loop.
  apply (for_each_reach J _ _ (output_port, port_data)); [done|..].
  - intros st1 st1'.
    apply (for_each_reach J _ _ conn); [done|done|].
    intros conn' st2 st2' _. apply Hkeep.
  - intros [output_port' port_data'] st1 st1' _ Hst1.
    apply for_each_inv; [done|].
    intros conn' st2 st2' _. apply Hkeep.
Qed.

(** Whatever appending a path and printing a diagnostic preserve, the
    search preserves. *)
Lemma dfs_keeps (I : search → Prop) :
  (∀ st p, I st → I (found p st)) →
  (∀ st d, I st → I (report d st)) →
  ∀ depth cur path visited st r,
    I st → _dfs_find_paths depth m cur path visited st = Some r → I r.
Proof.
  intros Hfound Hreport. induction depth as [|depth IH];
    intros cur path visited st r Hst; [done|].
  rewrite dfs_unfold. destruct (m !! cur) as [current_node|].
  - apply outputs_loop_inv; [done|].
    intros conn st1 st1' Hst1. unfold visit_connection.
    repeat case_match; intros; simplify_eq; eauto.
  - intros [= <-]. by apply Hreport.
Qed.

(** The invariant behind path well-formedness: the search from [start]
    only appends paths of the shape [emitted], and only reports cycles
    at intermediate nodes. *)
Lemma dfs_invariant (I : search → Prop) start :
  (∀ st p, I st → emitted nodes start p → I (found p st)) →
  (∀ st d, I st → benign nodes d → I (report d st)) →
  ∀ depth cur l visited st r,
    (∀ x, x ∈ start :: l → x ∈ ({[cur]} ∪ visited : gset string)) →
    Forall (intermediate_id nodes) l → NoDup l →
    I st → _dfs_find_paths depth m cur (start :: l) visited st = Some r → I r.
Proof.
  intros Hfound Hreport. induction depth as [|depth IH];
    intros cur l visited st r Hseen Hinter Hdistinct Hst; [done|].
  rewrite dfs_unfold. destruct (m !! cur) as [current_node|]; [|intros [= <-]; by apply Hreport].
  apply outputs_loop_inv; [done|].
  intros conn st1 st1' Hst1. unfold visit_connection.
  destruct (c_node conn) as [target|]; [|by intros [= <-]].
  case_decide; [by intros [= <-]|].
  destruct (m !! target) as [target_node|] eqn:Htarget;
    [|intros [= <-]; by apply Hreport].
  case_decide as Htype.
  { intros [= <-]. apply Hfound; [done|].
    exists l, target. eauto using lookup_state. }
  case_decide as Hvisited.
  { intros [= <-]. apply Hreport; [done|]. simpl.
    exists target. split; [|by eauto using lookup_intermediate].
    by rewrite app_comm_cons, last_snoc. }
  change ((start :: l) ++ [target]) with (start :: (l ++ [target])).
  apply IH; [| | |done].
  - intros x Hx. change (x ∈ (start :: l) ++ [target]) in Hx.
    apply elem_of_app in Hx as [Hx|Hx]; [by apply elem_of_union_r, Hseen|].
    apply list_elem_of_singleton in Hx as ->.
    by apply elem_of_union_l, elem_of_singleton.
  - apply Forall_app. split; [done|].
    apply Forall_singleton. eauto using lookup_intermediate.
  - apply NoDup_app. split; [done|]. split; [|apply NoDup_singleton].
    intros x Hx Hx'. apply list_elem_of_singleton in Hx' as ->.
    apply Hvisited, Hseen. by right.
Qed.

Lemma is_node_key_nonempty k n : is_node nodes k n → k ≠ "".
Proof.
  intros [_ Hkey]. unfold node_key in Hkey.
  destruct (id n) as [i|]; simplify_eq/=. apply str_nonempty.
Qed.

Lemma edge_lookup a b :
  edge nodes a b →
  ∃ n output_port port_data conn,
    m !! a = Some n ∧ (output_port, port_data) ∈ outputs n ∧
    conn ∈ connections port_data ∧ c_node conn = Some b.
Proof.
  intros (n & output_port & port_data & conn & Hn & ?).
  exists n, output_port, port_data, conn. split; [by apply Hindex | done].
Qed.

Lemma visit_connection_keeps (I : search → Prop) depth cur path visited conn st st' :
  (∀ st p, I st → I (found p st)) →
  (∀ st d, I st → I (report d st)) →
  I st →
  visit_connection (_dfs_find_paths depth m) m cur path visited conn st = Some st' →
  I st'.
Proof.
  intros Hfound Hreport Hst. unfold visit_connection.
  repeat case_match; intros; simplify_eq; eauto.
  eapply (dfs_keeps I); eauto.
Qed.

Lemma visit_connection_grows p depth cur path visited conn st st' :
  p ∈ link_paths st →
  visit_connection (_dfs_find_paths depth m) m cur path visited conn st = Some st' →
  p ∈ link_paths st'.
Proof.
  apply (visit_connection_keeps (λ st, p ∈ link_paths st)).
  - intros st2 q Hst2. simpl. apply elem_of_app. by left.
  - by intros st2 d Hst2.
Qed.

(** The search is complete: it appends every walk from the current node
    to a state whose intermediate nodes are distinct and not yet visited. *)
Lemma dfs_complete t :
  state_id nodes t →
  ∀ l depth cur path visited st r,
    walk nodes cur l t → NoDup l →
    (∀ x, x ∈ l → x ∉ ({[cur]} ∪ visited : gset string)) →
    _dfs_find_paths depth m cur path visited st = Some r →
    path ++ l ++ [t] ∈ link_paths r.
Proof.
  intros (target_node & Ht & Htype).
  assert (t ≠ "") as Hnonempty by eauto using is_node_key_nonempty.
  apply Hindex in Ht.
  induction l as [|x l IH]; intros depth cur path visited st r Hwalk Hdistinct Hfresh;
    (destruct depth as [|depth]; [done|]); rewrite dfs_unfold.
  - apply edge_lookup in Hwalk
      as (current_node & output_port & port_data & conn & -> & Hport & Hconn & Hc).
    apply (outputs_loop_reach (λ st, path ++ [t] ∈ link_paths st) _ _ _ _ _
             output_port port_data conn); [done|done|..].
    + intros st1 st1'. unfold visit_connection. rewrite Hc.
      rewrite decide_False by done. rewrite Ht. rewrite decide_True by done.
      intros [= <-]. simpl. apply elem_of_app. right. by left.
    + intros conn' st1 st1'. apply visit_connection_grows.
  - destruct Hwalk as (Hedge & (x_node & Hx & Hxtype) & Hwalk).
    assert (x ≠ "") as Hxnonempty by eauto using is_node_key_nonempty.
    apply Hindex in Hx.
    apply edge_lookup in Hedge
      as (current_node & output_port & port_data & conn & -> & Hport & Hconn & Hc).
    apply NoDup_cons in Hdistinct as [Hxl Hdistinct].
    apply (outputs_loop_reach (λ st, path ++ (x :: l) ++ [t] ∈ link_paths st) _ _ _ _ _
             output_port port_data conn); [done|done|..].
    + intros st1 st1'. unfold visit_connection. rewrite Hc.
      rewrite decide_False by done. rewrite Hx. rewrite decide_False by done.
      rewrite decide_False by (apply Hfresh; by left).
      intros Hrec. eapply IH in Hrec; [|done|done|].
      * by rewrite <-(assoc_L (++)) in Hrec.
      * intros y Hy [Hyx%elem_of_singleton|Hy']%elem_of_union; [congruence|].
        apply (Hfresh y); [by right | done].
    + intros conn' st1 st1'. apply visit_connection_grows.
Qed.

End search_invariants.

(** ** Path finder: the index built from the node list *)

Section path_finder_index.
Import Py PathFinder.

Lemma build_index_snoc nodes n :
  build_index (nodes ++ [n]) = index_node (build_index nodes) n.
Proof. unfold build_index. by rewrite foldl_app. Qed.

Lemma node_key_inv n k : node_key n = Some k → ∃ i, id n = Some i ∧ k = str i.
Proof.
  unfold node_key. destruct (id n) as [i|]; [|done].
  intros [= <-]. by exists i.
Qed.

(** With distinct ids the index holds every node under its key, and
    nothing else. *)
Lemma build_index_lookup nodes :
  distinct_ids nodes →
  ∀ k n, (build_index nodes).1 !! k = Some n ↔ is_node nodes k n.
Proof.
  induction nodes as [|n' nodes IH] using rev_ind; intros Hdistinct k n.
  - unfold is_node. simpl. rewrite lookup_empty, elem_of_nil. naive_solver.
  - unfold distinct_ids in Hdistinct. rewrite omap_app in Hdistinct.
    apply NoDup_app in Hdistinct as (Hnodes & Hfresh & _).
    specialize (IH Hnodes). rewrite build_index_snoc.
    unfold is_node. rewrite elem_of_app, list_elem_of_singleton.
    unfold index_node. destruct (id n') as [i|] eqn:Hid; simpl.
    + destruct (decide (str i = k)) as [<-|Hne].
      * rewrite lookup_insert_eq. split.
        { intros [= <-]. split; [by right|]. unfold node_key. by rewrite Hid. }
        intros [[Hin | ->] Hkey]; [|done]. exfalso.
        apply (Hfresh (str i)).
        -- apply list_elem_of_omap. by exists n.
        -- simpl. unfold node_key at 1. rewrite Hid. simpl. by left.
      * rewrite lookup_insert_ne by done. rewrite IH. unfold is_node.
        split; [naive_solver|].
        intros [[Hin | ->] Hkey]; [done|].
        unfold node_key in Hkey. rewrite Hid in Hkey. naive_solver.
    + rewrite IH. unfold is_node. split; [naive_solver|].
      intros [[Hin | ->] Hkey]; [done|].
      unfold node_key in Hkey. by rewrite Hid in Hkey.
Qed.

(** The seeds are the ids of the state nodes. *)
Lemma build_index_seeds_spec nodes k :
  k ∈ (build_index nodes).2 ↔ state_id nodes k.
Proof.
  induction nodes as [|n nodes IH] using rev_ind.
  - unfold state_id, is_node. simpl. setoid_rewrite elem_of_nil. naive_solver.
  - rewrite build_index_snoc. unfold state_id, is_node.
    setoid_rewrite elem_of_app. setoid_rewrite list_elem_of_singleton.
    unfold index_node. destruct (id n) as [i|] eqn:Hid; simpl.
    + case_decide as Htype.
      * rewrite elem_of_app, list_elem_of_singleton, IH. unfold state_id, is_node.
        split.
        { intros [(n0 & [? ?] & ?)| ->]; [naive_solver|].
          exists n. unfold node_key. rewrite Hid. naive_solver. }
        intros (n0 & [[?| ->] Hkey] & ?); [left; naive_solver|].
        unfold node_key in Hkey. rewrite Hid in Hkey. naive_solver.
      * rewrite IH. unfold state_id, is_node. split; [naive_solver|].
        intros (n0 & [[?| ->] Hkey] & ?); naive_solver.
    + rewrite IH. unfold state_id, is_node. split; [naive_solver|].
      intros (n0 & [[?| ->] Hkey] & ?); [naive_solver|].
      unfold node_key in Hkey. by rewrite Hid in Hkey.
Qed.

Lemma emitted_well_formed nodes start p :
  (∀ k, intermediate_id nodes k → ¬ state_id nodes k) →
  state_id nodes start → emitted nodes start p → well_formed nodes p.
Proof.
  intros Hsep Hstart (l & t & -> & Ht & Hinter & Hdistinct).
  assert (interior (start :: l ++ [t]) = l) as Hl.
  { unfold interior. simpl. apply removelast_last. }
  split.
  - simpl. rewrite length_app. simpl. lia.
  - by exists start.
  - exists t. split; [|done]. by rewrite app_comm_cons, last_snoc.
  - rewrite Hl. intros x Hx. apply Hsep.
    by apply (proj1 (Forall_forall _ _) Hinter).
  - by rewrite Hl.
Qed.



End path_finder_index.

(** ** Path finder: the claims *)

Section path_finder_claims.
Import Py PathFinder.

(** C7.  [find_link_paths] returns on every node list: a recursion
    budget equal to the number of nodes is never exhausted, and any
    larger budget gives the same result.  Each nested call adds one
    node of the index to the visited set, and a target of type ['state']
    is recorded without a nested call. *)
Theorem find_link_paths_terminates (nodes : list node) :
  ∃ r, find_link_paths nodes = Some (link_paths r) ∧
       ∀ extra, find_link_paths_within (length nodes + extra) nodes = Some r.
Proof.
  destruct (find_link_paths_within_returns (length nodes) nodes) as [r Hr]; [done|].
  exists r. split.
  - unfold find_link_paths. by rewrite Hr.
  - intros extra. eapply find_link_paths_within_mono; [|done]. lia.
Qed.

(** Either a guard of [find_link_paths] returns the empty list, or the
    seeds are searched in order. *)
Lemma find_link_paths_within_cases depth nodes r :
  find_link_paths_within depth nodes = Some r →
  (r = Search [] [] ∧
   (nodes = [] ∨ (build_index nodes).1 = ∅ ∨ (build_index nodes).2 = [])) ∨
  for_each (build_index nodes).2
    (λ start_id, _dfs_find_paths depth (build_index nodes).1 start_id [start_id] ∅)
    (Search [] []) = Some r.
Proof.
  unfold find_link_paths_within. destruct nodes as [|n nodes].
  { intros [= <-]. left. eauto. }
  destruct (build_index (n :: nodes)) as [m seeds]; simpl.
  case_decide; [intros [= <-]; left; eauto|].
  destruct seeds as [|seed seeds]; [intros [= <-]; left; eauto|].
  intros Hr. by right.
Qed.

(** C1.  Every path returned by [find_link_paths] is well-formed: at
    least two elements, first and last the ids of state nodes, no state
    id strictly inside, no repetition strictly inside.  The node ids are
    pairwise distinct, as the keys of the parsed document are. *)
Theorem find_link_paths_well_formed (nodes : list node) (paths : list (list string))
    (p : list string) :
  distinct_ids nodes →
  find_link_paths nodes = Some paths →
  p ∈ paths →
  well_formed nodes p.
Proof.
  intros Hdistinct Hpaths Hp. unfold find_link_paths in Hpaths.
  destruct (find_link_paths_within (length nodes) nodes) as [r|] eqn:Hr; [|done].
  simpl in Hpaths. injection Hpaths as <-.
  pose proof (build_index_lookup nodes Hdistinct) as Hindex.
  assert (Forall (well_formed nodes) (link_paths r)) as Hall;
    [|by apply (proj1 (Forall_forall _ _) Hall)].
  clear p Hp.
  apply find_link_paths_within_cases in Hr as [[-> _]|Hr]; [by constructor|].
  revert Hr. apply (for_each_inv (λ st, Forall (well_formed nodes) (link_paths st)));
    [by constructor|].
  intros start st st' Hstart%build_index_seeds_spec Hst.
  apply (dfs_invariant nodes _ Hindex
           (λ st, Forall (well_formed nodes) (link_paths st)) start
           ) with (l := []); [| |by intros x ->%list_elem_of_singleton; apply elem_of_union_l, elem_of_singleton|constructor|constructor|done].
  - intros st1 q Hst1 Hq. simpl. apply Forall_app. split; [done|].
    apply Forall_singleton.
    eapply emitted_well_formed; eauto using intermediate_not_state.
  - by intros st1 d Hst1 _.
Qed.


End path_finder_claims.

(** ** The symbolic-algebra engine: evaluation preserves meaning *)

Section sympy_facts.
Import Sympy.

Lemma bexpr_induction (P : bexpr → Prop) :
  P BTrue → P BFalse → (∀ name, P (Symbol name)) →
  (∀ arg, P arg → P (Not arg)) →
  (∀ args, Forall P args → P (And args)) →
  (∀ args, Forall P args → P (Or args)) →
  (∀ type_name, P (Other type_name)) →
  ∀ e, P e.
Proof.
  intros HT HF HS HN HA HO HX. fix IH 1. intros [| |name|arg|args|args|type_name].
  - exact HT.
  - exact HF.
  - apply HS.
  - apply HN, IH.
  - apply HA. induction args as [|a args IHargs]; constructor; [apply IH | exact IHargs].
  - apply HO. induction args as [|a args IHargs]; constructor; [apply IH | exact IHargs].
  - apply HX.
Qed.

Lemma eqb_eq a b : eqb a b = true → a = b.
Proof.
  revert b. induction a as [| |x|a IH|l IH|l IH|x] using bexpr_induction;
    intros [| |y|b|k|k|y]; simpl; try done.
  - by intros ->%bool_decide_eq_true.
  - by intros ->%IH.
  - intros Hlk. f_equal. revert k Hlk.
    induction IH as [|a l Ha _ IHl]; intros [|b k]; try done.
    intros [->%Ha ->%IHl]%andb_true_iff. done.
  - intros Hlk. f_equal. revert k Hlk.
    induction IH as [|a l Ha _ IHl]; intros [|b k]; try done.
    intros [->%Ha ->%IHl]%andb_true_iff. done.
  - by intros ->%bool_decide_eq_true.
Qed.

Lemma insert_ordered_perm a l : insert_ordered a l ≡ₚ a :: l.
Proof.
  induction l as [|b l IH]; simpl; [done|].
  destruct (precedes a b); [done|]. rewrite IH. apply Permutation_swap.
Qed.

Lemma ordered_perm l : ordered l ≡ₚ l.
Proof.
  induction l as [|a l IH]; simpl; [done|].
  rewrite insert_ordered_perm. by rewrite IH.
Qed.

Section eval.
Context (v : string → bool).

Lemma forallb_perm (l k : list bexpr) : l ≡ₚ k → forallb (eval v) l = forallb (eval v) k.
Proof.
  induction 1 as [|a l k _ IH|a b l|l k m _ IH1 _ IH2]; simpl.
  - done.
  - by rewrite IH.
  - by rewrite !andb_assoc, (andb_comm (eval v b)).
  - by rewrite IH1.
Qed.

Lemma existsb_perm (l k : list bexpr) : l ≡ₚ k → existsb (eval v) l = existsb (eval v) k.
Proof.
  induction 1 as [|a l k _ IH|a b l|l k m _ IH1 _ IH2]; simpl.
  - done.
  - by rewrite IH.
  - by rewrite !orb_assoc, (orb_comm (eval v b)).
  - by rewrite IH1.
Qed.

Lemma existsb_eqb_elem a l : existsb (eqb a) l = true → a ∈ l.
Proof.
  induction l as [|b l IH]; simpl; [done|].
  intros [->%eqb_eq|?]%orb_true_iff; [left | right; auto].
Qed.

Lemma forallb_elem a l : a ∈ l → forallb (eval v) l = true → eval v a = true.
Proof.
  intros Ha Hl. apply (proj1 (forallb_forall _ _) Hl). by apply list_elem_of_In.
Qed.

Lemma existsb_elem a l : a ∈ l → eval v a = true → existsb (eval v) l = true.
Proof.
  intros Ha Hv. apply existsb_exists. exists a. split; [by apply list_elem_of_In | done].
Qed.

Lemma forallb_distinct l : forallb (eval v) (distinct l) = forallb (eval v) l.
Proof.
  induction l as [|a l IH]; simpl; [done|].
  destruct (existsb (eqb a) l) eqn:Hdup; simpl; rewrite IH; [|done].
  apply existsb_eqb_elem in Hdup.
  destruct (forallb (eval v) l) eqn:Hl; [|by rewrite andb_false_r].
  by rewrite (forallb_elem a l).
Qed.

Lemma existsb_distinct l : existsb (eval v) (distinct l) = existsb (eval v) l.
Proof.
  induction l as [|a l IH]; simpl; [done|].
  destruct (existsb (eqb a) l) eqn:Hdup; simpl; rewrite IH; [|done].
  apply existsb_eqb_elem in Hdup.
  destruct (eval v a) eqn:Ha; [|done].
  by rewrite (existsb_elem a l).
Qed.

Lemma forallb_drop_true l :
  forallb (eval v) (filter (λ a, eqb BTrue a = false) l) = forallb (eval v) l.
Proof.
  induction l as [|a l IH]; [done|].
  rewrite filter_cons. case_decide as Ha; cbn [forallb]; rewrite IH; [done|].
  apply not_false_is_true, eqb_eq in Ha as <-. done.
Qed.

Lemma existsb_drop_false l :
  existsb (eval v) (filter (λ a, eqb BFalse a = false) l) = existsb (eval v) l.
Proof.
  induction l as [|a l IH]; [done|].
  rewrite filter_cons. case_decide as Ha; cbn [existsb]; rewrite IH; [done|].
  apply not_false_is_true, eqb_eq in Ha as <-. done.
Qed.

Lemma mjoin_cons {A} (x : list A) (xs : list (list A)) : mjoin (x :: xs) = x ++ mjoin xs.
Proof. done. Qed.

Lemma forallb_flatten l :
  forallb (eval v) (mjoin ((λ a, match a with And k => k | _ => [a] end) <$> l)) =
  forallb (eval v) l.
Proof.
  induction l as [|a l IH]; [done|].
  rewrite fmap_cons, mjoin_cons, forallb_app, IH.
  destruct a; simpl; by rewrite ?andb_true_r.
Qed.

Lemma existsb_flatten l :
  existsb (eval v) (mjoin ((λ a, match a with Or k => k | _ => [a] end) <$> l)) =
  existsb (eval v) l.
Proof.
  induction l as [|a l IH]; [done|].
  rewrite fmap_cons, mjoin_cons, existsb_app, IH.
  destruct a; simpl; by rewrite ?orb_false_r.
Qed.

(** [And] means conjunction. *)
Lemma eval_py_And args : eval v (py_And args) = forallb (eval v) args.
Proof.
  unfold py_And. destruct (existsb (eqb BFalse) args) eqn:Hzero.
  - apply existsb_eqb_elem in Hzero. simpl. symmetry.
    apply not_true_is_false. intros Hall. by apply (forallb_elem _ _ Hzero) in Hall.
  - rewrite <-forallb_drop_true, <-forallb_flatten, <-forallb_distinct.
    rewrite <-(forallb_perm _ _ (ordered_perm _)).
    destruct (ordered _) as [|a [|b l]]; simpl; by rewrite ?andb_true_r.
Qed.

(** [Or] means disjunction. *)
Lemma eval_py_Or args : eval v (py_Or args) = existsb (eval v) args.
Proof.
  unfold py_Or. destruct (existsb (eqb BTrue) args) eqn:Hzero.
  - apply existsb_eqb_elem in Hzero. simpl. symmetry.
    by apply (existsb_elem _ _ Hzero).
  - rewrite <-existsb_drop_false, <-existsb_flatten, <-existsb_distinct.
    rewrite <-(existsb_perm _ _ (ordered_perm _)).
    destruct (ordered _) as [|a [|b l]]; simpl; by rewrite ?orb_false_r.
Qed.

(** [Not] means negation. *)
Lemma eval_py_Not arg : eval v (py_Not arg) = negb (eval v arg).
Proof. destruct arg; simpl; by rewrite ?negb_involutive. Qed.

End eval.

End sympy_facts.

(** ** Table maker: the Moore outputs *)

Section table_maker_facts.
Import Py Sympy Annotator TableMaker.

Lemma dict_get_elem {K A} `{EqDecision K} (key : K) (d : list (K * A)) a :
  dict_get key d = Some a → (key, a) ∈ d.
Proof.
  induction d as [|[k b] d IH]; simpl; [done|].
  case_decide as Hk; [intros [= ->]; subst; by left | right; auto].
Qed.

Lemma item_state_symbol n i :
  i < n → item (state_symbol_names n) i = Ok ("Y" +:+ pretty i).
Proof.
  intros Hi. unfold item, state_symbol_names.
  rewrite list_lookup_fmap, lookup_seq_lt by done. done.
Qed.

Lemma state_symbol_elem n y :
  y ∈ state_symbol_names n ↔ ∃ i, i < n ∧ y = "Y" +:+ pretty i.
Proof.
  unfold state_symbol_names. rewrite list_elem_of_fmap.
  setoid_rewrite elem_of_seq. naive_solver lia.
Qed.

Global Instance grows_refl : Reflexive grows.
Proof. intros d key e He. eauto. Qed.

Global Instance grows_trans : Transitive grows.
Proof.
  intros d1 d2 d3 H12 H23 key e He.
  destruct (H12 key e He) as (e' & He' & Hee').
  destruct (H23 key e' He') as (e'' & He'' & Hee'').
  exists e''. eauto.
Qed.

Lemma grows_insert d key old e :
  d !! key = Some old → (∀ v, eval v old = true → eval v e = true) →
  grows d (<[key := e]> d).
Proof.
  intros Hold Hle key' e' He'. destruct (decide (key = key')) as [<-|Hne].
  - rewrite lookup_insert_eq. exists e. split; [done|].
    rewrite Hold in He'. by injection He' as <-.
  - rewrite lookup_insert_ne by done. eauto.
Qed.

Lemma grows_bound d d' key : grows d d' → is_Some (d !! key) → is_Some (d' !! key).
Proof. intros Hg [e He]. destruct (Hg key e He) as (e' & -> & _). eauto. Qed.

Lemma eval_or_l v a b : eval v a = true → eval v (py_Or [a; b]) = true.
Proof. intros Ha. rewrite eval_py_Or. simpl. by rewrite Ha. Qed.

Lemma eval_or_r v a b : eval v b = true → eval v (py_Or [a; b]) = true.
Proof. intros Hb. rewrite eval_py_Or. simpl. rewrite Hb. by rewrite !orb_true_r. Qed.

Section codes.
Context (n : nat).
Local Abbreviation Y := (state_symbol_names n).

Lemma minterm_from_returns code i term :
  i + String.length code ≤ n → ∃ minterm, minterm_from Y i code term = Ok minterm.
Proof.
  revert i term; induction code as [|bit code IH]; intros i term; simpl; [by eauto|].
  intros Hi. rewrite item_state_symbol by lia. simpl. apply IH. lia.
Qed.

Lemma assign_next_state_returns code i path_condition d :
  i + String.length code ≤ n →
  (∀ y, y ∈ Y → is_Some (d !! y)) →
  ∃ d', assign_next_state Y i code path_condition d = Ok d' ∧
        (∀ y, y ∈ Y → is_Some (d' !! y)).
Proof.
  revert i d; induction code as [|bit code IH]; intros i d; simpl; [by eauto|].
  intros Hi Hd. case_decide; [|apply IH; [lia|done]].
  rewrite item_state_symbol by lia. simpl.
  destruct (Hd ("Y" +:+ pretty i)) as [old Hold].
  { apply state_symbol_elem. exists i. split; [lia|done]. }
  unfold equation. rewrite Hold. simpl. apply IH; [lia|].
  intros y Hy. rewrite lookup_insert. case_decide; [done|]. by apply Hd.
Qed.

Lemma assign_event_returns events path_condition d node_details :
  (∀ name, name ∈ events → is_Some (d !! name)) →
  ∃ d', assign_event events path_condition d node_details = Ok d' ∧ grows d d'.
Proof.
  intros Hd. unfold assign_event.
  destruct node_details as [details|]; [|by exists d].
  case_decide as Hevent; [|by exists d]. destruct Hevent as [_ Hname].
  destruct (Hd _ Hname) as [old Hold]. unfold equation. rewrite Hold. simpl.
  eexists. split; [reflexivity|].
  eapply grows_insert; [done|]. intros v. apply eval_or_l.
Qed.

Lemma bound_grows names d d' : grows d d' → bound names d → bound names d'.
Proof. intros Hg Hd name Hname. eapply grows_bound; [done|]. by apply Hd. Qed.

Lemma process_path_returns state_codes inputs events outputs_sym eqns path :
  uniform_codes state_codes n →
  (∀ name, name ∈ events → name ∈ outputs_sym) →
  bound Y eqns.1 → bound outputs_sym eqns.2 →
  ∃ eqns', process_path Y state_codes inputs events eqns path = Ok eqns' ∧
           bound Y eqns'.1 ∧ bound outputs_sym eqns'.2.
Proof.
  intros [Hwidth Hcodes] Hevents Hns Hout. unfold process_path.
  destruct path as [|[start_node_details|] path']; [by eauto| |by eauto].
  remember (Some start_node_details :: path') as path eqn:Hpath.
  destruct (s_id start_node_details ≫= _) as [start_state_code|] eqn:Hstart; [|by eauto].
  assert (String.length start_state_code = n) as Hlen.
  { destruct (s_id start_node_details) as [i|]; [|done]. simpl in Hstart.
    eapply Hcodes, dict_get_elem, Hstart. }
  unfold state_minterm.
  destruct (minterm_from_returns start_state_code 0 BTrue) as [minterm ->]; [lia|].
  simpl. set (path_condition := foldl _ _ _).
  destruct (last path) as [[end_node_details|]|]; [|by eauto..].
  case_decide; [|by eauto].
  destruct (s_id end_node_details ≫= _) as [end_state_code|] eqn:Hend; [|by eauto].
  assert (String.length end_state_code = n) as Hlen'.
  { destruct (s_id end_node_details) as [i|]; [|done]. simpl in Hend.
    eapply Hcodes, dict_get_elem, Hend. }
  destruct (assign_next_state_returns end_state_code 0 path_condition eqns.1)
    as (ns' & -> & Hns'); [lia|done|]. simpl.
  destruct (fold_outcome_total (bound outputs_sym) path
              (assign_event events path_condition) eqns.2) as (outs' & -> & Houts');
    [done| |by simpl; eauto].
  intros d node_details _ Hd.
  destruct (assign_event_returns events path_condition d node_details)
    as (d' & -> & Hg); [by intros name ?; apply Hd, Hevents|].
  eauto using bound_grows.
Qed.

Lemma assign_moore_returns state_codes outputs_sym state_id d output_name :
  uniform_codes state_codes n → bound outputs_sym d →
  ∃ d', assign_moore Y state_codes outputs_sym state_id d output_name = Ok d' ∧
        grows d d' ∧
        (output_name ∈ outputs_sym →
         ∀ code, dict_get state_id state_codes = Some code →
           ∃ e minterm, d' !! output_name = Some e ∧
             state_minterm Y code = Ok minterm ∧
             ∀ v, eval v minterm = true → eval v e = true).
Proof.
  intros [Hwidth Hcodes] Hd. unfold assign_moore.
  case_decide as Hname; [|by eexists; split; [reflexivity|split; [reflexivity|]]].
  destruct (dict_get state_id state_codes) as [state_code|] eqn:Hcode;
    [|by eexists; split; [reflexivity|split; [reflexivity|]]].
  assert (String.length state_code = n) as Hlen by eapply Hcodes, dict_get_elem, Hcode.
  case_decide as Hempty; [rewrite Hempty in Hlen; simpl in Hlen; lia|].
  unfold state_minterm.
  destruct (minterm_from_returns state_code 0 BTrue) as [minterm Hminterm]; [lia|].
  rewrite Hminterm. simpl.
  destruct (Hd _ Hname) as [old Hold]. unfold equation. rewrite Hold. simpl.
  eexists. split; [reflexivity|]. split.
  - eapply grows_insert; [done|]. intros v. apply eval_or_l.
  - intros _ code [= <-]. exists (py_Or [old; minterm]), minterm.
    rewrite lookup_insert_eq. split; [done|]. split; [done|].
    intros v. apply eval_or_r.
Qed.

(** The minterm of a code holds exactly under the valuations that spell
    that code on the state bits. *)
Lemma minterm_from_eval v code i term minterm :
  minterm_from Y i code term = Ok minterm →
  eval v minterm = eval v term && code_holds v i code.
Proof.
  revert i term; induction code as [|bit code IH]; intros i term; simpl.
  - intros [= <-]. by rewrite andb_true_r.
  - destruct (item Y i) as [y|] eqn:Hy; [simpl|done].
    assert (y = "Y" +:+ pretty i) as ->.
    { unfold item in Hy. destruct (Y !! i) as [y'|] eqn:Hi; [|done].
      injection Hy as <-. unfold state_symbol_names in Hi.
      rewrite list_lookup_fmap in Hi.
      destruct (seq 0 n !! i) as [j|] eqn:Hj; [|done].
      apply lookup_seq in Hj as [-> _]. by injection Hi as <-. }
    intros Hm%IH. rewrite Hm, eval_py_And. simpl. rewrite andb_true_r, <-andb_assoc.
    f_equal. f_equal. case_decide; simpl.
    + rewrite bool_decide_eq_true_2 by done. by destruct (v _).
    + rewrite bool_decide_eq_false_2 by done. by destruct (v _).
Qed.

Lemma assign_moore_list state_codes outputs_sym state_id output_list d :
  uniform_codes state_codes n →
  (∀ name, name ∈ output_list → name ∈ outputs_sym) →
  bound outputs_sym d →
  ∃ d', fold_outcome (assign_moore Y state_codes outputs_sym state_id) d output_list
          = Ok d' ∧
        grows d d' ∧
        ∀ name code, name ∈ output_list → dict_get state_id state_codes = Some code →
          ∃ e minterm, d' !! name = Some e ∧ state_minterm Y code = Ok minterm ∧
            ∀ v, eval v minterm = true → eval v e = true.
Proof.
  intros Hcodes. revert d.
  induction output_list as [|output_name output_list IH]; intros d Hnames Hd; simpl.
  - exists d. split; [done|]. split; [done|]. by intros name code Hname%elem_of_nil.
  - destruct (assign_moore_returns state_codes outputs_sym state_id d output_name)
      as (d1 & -> & Hg1 & Hfirst); [done..|].
    destruct (IH d1) as (d' & -> & Hg' & Hrest);
      [by intros name ?; apply Hnames; right | by eapply bound_grows|].
    exists d'. split; [done|]. split; [by etrans|].
    intros name code [->|Hname]%elem_of_cons Hcode; [|by eapply Hrest].
    destruct (Hfirst (Hnames _ ltac:(by left)) code Hcode) as (e & minterm & He & Hm & Hle).
    destruct (Hg' _ _ He) as (e' & He' & Hle').
    exists e', minterm. eauto.
Qed.

Lemma assign_moore_table state_codes outputs_sym state_outputs_dict d :
  uniform_codes state_codes n →
  (∀ state_id output_list name,
     (state_id, output_list) ∈ state_outputs_dict → name ∈ output_list →
     name ∈ outputs_sym) →
  bound outputs_sym d →
  ∃ d', fold_outcome
          (λ output_eqns '(state_id, output_list),
             fold_outcome (assign_moore Y state_codes outputs_sym state_id)
               output_eqns output_list)
          d state_outputs_dict = Ok d' ∧
        grows d d' ∧
        ∀ state_id output_list name code,
          (state_id, output_list) ∈ state_outputs_dict → name ∈ output_list →
          dict_get state_id state_codes = Some code →
          ∃ e minterm, d' !! name = Some e ∧ state_minterm Y code = Ok minterm ∧
            ∀ v, eval v minterm = true → eval v e = true.
Proof.
  intros Hcodes. revert d.
  induction state_outputs_dict as [|[state_id output_list] table IH];
    intros d Hnames Hd; simpl.
  - exists d. split; [done|]. split; [done|].
    by intros state_id output_list name code Hin%elem_of_nil.
  - destruct (assign_moore_list state_codes outputs_sym state_id output_list d)
      as (d1 & -> & Hg1 & Hfirst);
      [done|by intros name ?; eapply Hnames; [left|]|done|].
    destruct (IH d1) as (d' & -> & Hg' & Hrest);
      [by intros sid l name ? ?; eapply Hnames; [right|] | by eapply bound_grows|].
    exists d'. split; [done|]. split; [by etrans|].
    intros sid l name code [[= -> ->]|Hin]%elem_of_cons Hname Hcode;
      [|by eapply Hrest].
    destruct (Hfirst name code Hname Hcode) as (e & minterm & He & Hm & Hle).
    destruct (Hg' _ _ He) as (e' & He' & Hle').
    exists e', minterm. eauto.
Qed.

End codes.

Lemma initial_equations_bound names :
  bound names (foldl (λ d name, <[name := BFalse]> d) ∅ names).
Proof.
  assert (∀ d : gmap string bexpr,
            (∀ name, is_Some (d !! name) →
               is_Some (foldl (λ d name, <[name := BFalse]> d) d names !! name)) ∧
            bound names (foldl (λ d name, <[name := BFalse]> d) d names)) as H;
    [|apply H].
  induction names as [|a names IH]; intros d; simpl.
  - split; [done|]. by intros name Hname%elem_of_nil.
  - destruct (IH (<[a := BFalse]> d)) as [Hkeep Hbound]. split.
    + intros name Hname. apply Hkeep. rewrite lookup_insert. by case_decide.
    + intros name [->|Hname]%elem_of_cons; [|by apply Hbound].
      apply Hkeep. by rewrite lookup_insert_eq.
Qed.

Lemma moore_output_name event_outputs_list state_outputs_dict state_id output_list name :
  (state_id, output_list) ∈ state_outputs_dict → name ∈ output_list →
  name ∈ all_output_names event_outputs_list state_outputs_dict.
Proof.
  intros Hin Hname. unfold all_output_names. apply elem_of_app. right.
  apply list_elem_of_join. exists output_list. split; [done|].
  apply list_elem_of_fmap. by exists (state_id, output_list).
Qed.


End table_maker_facts.

(** ** Path annotation: the indicator *)

Section annotator_facts.
Import Py Annotator.

Lemma first_from_here previous conn rest conn' :
  str_of_node conn = previous →
  first_from previous (conn :: rest) conn' ↔ conn' = conn.
Proof.
  intros Hfrom. split.
  - intros ([|j] & Hj & _ & Hfirst); [by injection Hj as <-|].
    exfalso. by apply (Hfirst 0 conn); [lia|..].
  - intros ->. exists 0. split; [done|]. split; [done|]. intros j' conn'' Hj'. lia.
Qed.

Lemma first_from_later previous conn rest conn' :
  str_of_node conn ≠ previous →
  first_from previous (conn :: rest) conn' ↔ first_from previous rest conn'.
Proof.
  intros Hother. split.
  - intros ([|j] & Hj & Hfrom & Hfirst).
    { injection Hj as <-. done. }
    exists j. split; [done|]. split; [done|].
    intros j' conn'' Hj' Hconn''. apply (Hfirst (S j') conn''); [lia|done].
  - intros (j & Hj & Hfrom & Hfirst). exists (S j). split; [done|]. split; [done|].
    intros [|j'] conn'' Hj' Hconn''.
    + by injection Hconn'' as <-.
    + apply (Hfirst j' conn''); [lia|done].
Qed.

(** The loop of the annotator finds the first connection that comes from
    the previous node and reads its port. *)
Lemma find_indicator_first previous conns b :
  find_indicator conns previous = Some b ↔
  ∃ conn, first_from previous conns conn ∧
          c_input conn = Some (if b then "output_1" else "output_2").
Proof.
  induction conns as [|conn conns IH]; simpl.
  - split; [done|]. by intros (conn & (j & Hj & _) & _).
  - case_decide as Hfrom.
    + setoid_rewrite (first_from_here _ _ _ _ Hfrom). split.
      * intros Hb. exists conn. split; [done|].
        destruct (c_input conn) as [originating_port|]; [|done].
        repeat case_decide; simplify_eq; done.
      * intros (conn' & -> & ->). destruct b; by repeat case_decide.
    + by setoid_rewrite (first_from_later _ _ _ _ Hfrom).
Qed.

Lemma find_indicator_rule n previous :
  indicator_rule n previous (find_indicator (input_1_connections n) previous).
Proof.
  pose proof (find_indicator_first previous (input_1_connections n)) as Hfirst.
  split; [apply (Hfirst true)|]. split; [apply (Hfirst false)|].
  split.
  - intros Hnone conn Hconn. split; intros Hport.
    + assert (find_indicator (input_1_connections n) previous = Some true) as Hb
        by (apply Hfirst; by exists conn).
      congruence.
    + assert (find_indicator (input_1_connections n) previous = Some false) as Hb
        by (apply Hfirst; by exists conn).
      congruence.
  - intros Hports.
    destruct (find_indicator (input_1_connections n) previous) as [b|]; [|done].
    destruct (proj1 (Hfirst b) eq_refl) as (conn & Hconn & Hport).
    destruct (Hports conn Hconn) as [H1 H2]. by destruct b.
Qed.

(** C6, as the code has it.  In every annotated path the first step has
    no indicator, and a later step has the indicator the first connection
    of its [input_1] port from the previous node of the path gives:
    [True] for [output_1], [False] for [output_2], [None] otherwise,
    whatever the type of the previous node. *)
Theorem get_formatted_details_indicator
    (all_paths_ids : list (list string)) (filtered_nodes : list node)
    (i k : nat) (annotated : list (option step)) (current : step) :
  get_formatted_details_for_all_paths all_paths_ids filtered_nodes !! i = Some annotated →
  annotated !! k = Some (Some current) →
  ∃ single_path_ids node_id n,
    all_paths_ids !! i = Some single_path_ids ∧
    single_path_ids !! k = Some node_id ∧
    index_nodes filtered_nodes !! node_id = Some n ∧
    (k = 0 → indicator current = None) ∧
    (∀ previous, 0 < k → single_path_ids !! (k - 1) = Some previous →
       indicator_rule n previous (indicator current)).
Proof.
  unfold get_formatted_details_for_all_paths. intros Hi Hk.
  assert ((λ single_path_ids,
             imap (format_node (index_nodes filtered_nodes) single_path_ids)
                  single_path_ids) <$> all_paths_ids !! i = Some annotated) as Hmap.
  { destruct all_paths_ids as [|p ps]; [done|].
    destruct filtered_nodes as [|n ns]; [done|].
    case_decide; [done|]. by rewrite <-list_lookup_fmap. }
  clear Hi. destruct (all_paths_ids !! i) as [single_path_ids|]; [|done].
  injection Hmap as <-. rewrite list_lookup_imap in Hk.
  destruct (single_path_ids !! k) as [node_id|] eqn:Hid; [|done].
  simpl in Hk. injection Hk as Hk. unfold format_node in Hk.
  destruct (index_nodes filtered_nodes !! node_id) as [n|] eqn:Hn; [|done].
  injection Hk as <-. exists single_path_ids, node_id, n. simpl.
  split; [done|]. split; [done|]. split; [done|]. split.
  - intros ->. done.
  - intros previous Hpos Hprev. rewrite decide_True by done. rewrite Hprev.
    apply find_indicator_rule.
Qed.

End annotator_facts.

(** ** VHDL generator *)

Section vhdl_generator_facts.
Import Py Sympy VhdlGenerator.

Lemma mapM_returns {A B} (f : A → outcome B) (l : list A) :
  Forall (λ a, returns (f a)) l → returns (mapM f l).
Proof.
  induction 1 as [|a l [b Hb] _ [bs Hbs]]; [by exists []|].
  exists (b :: bs). simpl. rewrite Hb. simpl. by rewrite Hbs.
Qed.

Lemma _get_state_bit_vhdl_returns symbol state_vars signal_name :
  returns (_get_state_bit_vhdl symbol state_vars signal_name).
Proof.
  unfold _get_state_bit_vhdl, index.
  destruct (list_find _ state_vars) as [[i s]|]; [by eexists|].
  rewrite decide_True by done. by eexists.
Qed.


(** With exactly one output name, [sympy.symbols] hands back a single
    symbol and the comprehension over it raises. *)
Lemma generate_vhdl_one_output entity_name inputs_list output_name outputs_list
    first_id first_code state_codes next_state_eqns output_eqns :
  remove_dups outputs_list = [output_name] →
  first_code ≠ "" →
  ¬ (next_state_eqns = ∅ ∧ output_eqns = ∅) →
  generate_vhdl entity_name inputs_list outputs_list
    ((first_id, first_code) :: state_codes) next_state_eqns output_eqns
  = Raise "TypeError".
Proof.
  intros Houtputs Hcode Heqns. unfold generate_vhdl.
  rewrite decide_False by done.
  rewrite decide_False by (by destruct first_code).
  by rewrite Houtputs.
Qed.

(** C8, what the code does.  Without inputs and outputs the port list
    ends in the [reset] port followed by a semicolon; two states wired to
    one another bring the pipeline there. *)
Theorem generate_vhdl_dangling_semicolon :
  ∃ vhdl_code,
    generate_vhdl "test" [] [] Scenarios.flip_state_codes
      {[ "Y0" := Not (Symbol "Y0") ]} ∅ = Ok vhdl_code ∧
    Main.save_drawflow_data Ok Scenarios.flip = Ok vhdl_code ∧
    contains Scenarios.dangling_semicolon vhdl_code = true.
Proof. eexists. repeat split; vm_compute; reflexivity. Qed.

End vhdl_generator_facts.

(** ** Graph normalizer *)

Section parser_facts.
Import Py Parser.

(** C5, what the code does.  A [drawflow] entry that is not an object, or
    a node whose [data] entry is not an object, makes
    [parse_drawflow_data] raise [AttributeError]; a document without the
    node collection gives the empty list. *)
Theorem parse_drawflow_data_raises (repr : json → string) :
  parse_drawflow_data repr Scenarios.scalar_drawflow = Raise "AttributeError" ∧
  parse_drawflow_data repr Scenarios.string_data = Raise "AttributeError" ∧
  parse_drawflow_data repr Scenarios.empty_document = Ok (Parsed [] []).
Proof. repeat split; reflexivity. Qed.

Lemma parse_node_keys repr acc key node_obj acc' :
  parse_node repr acc (key, node_obj) = Ok acc' →
  parsed_keys repr acc' = parsed_keys repr acc ∨
  parsed_keys repr acc' = parsed_keys repr acc ++ [key].
Proof.
  unfold parse_node. destruct node_obj as [| | | | | |items]; try (intros [= <-]; by left).
  destruct (forallb _ required_keys); [|intros [= <-]; by left].
  simpl. case_decide as Hid; [intros [= <-]; by left|].
  destruct (get _ "data" (JStr "")) as [content|]; [simpl|done].
  intros [= <-]. right. unfold parsed_keys. simpl.
  rewrite fmap_app. simpl. by rewrite Hid.
Qed.

(** The parser hands over nodes with pairwise distinct keys, the keys of
    the node collection being distinct. *)
Lemma parsed_keys_distinct repr items acc r :
  NoDup (parsed_keys repr acc ++ (fst <$> items)) →
  fold_outcome (parse_node repr) acc items = Ok r →
  NoDup (parsed_keys repr r).
Proof.
  revert acc; induction items as [|[key node_obj] items IH]; intros acc Hdistinct;
    cbn [fold_outcome].
  - intros [= <-]. by rewrite fmap_nil, app_nil_r in Hdistinct.
  - destruct (parse_node repr acc (key, node_obj)) as [acc'|] eqn:Hnode; [|done].
    apply IH. apply parse_node_keys in Hnode as [-> | ->].
    + apply NoDup_app in Hdistinct as (Hacc & Hdisjoint & [_ Hitems]%NoDup_cons).
      apply NoDup_app. split; [done|]. split; [|done].
      intros k Hk Hk'. apply (Hdisjoint k Hk). by right.
    + by rewrite <-(assoc_L (++)).
Qed.

End parser_facts.

(** ** The pipeline on the scenarios *)

Section pipeline_facts.
Import Py Sympy Main.

(** The steps of the handler, once the stages before the reducer have
    been evaluated. *)
Lemma save_drawflow_data_steps simplify_logic filtered link_path
    state_list input_list event_outputs state_outputs equation :
  PathFinder.find_link_paths filtered = Some link_path →
  TableMaker.prepare_table_elements filtered =
    TableMaker.Table4 state_list input_list event_outputs state_outputs →
  TableMaker.generate_boolean_equations
    (Annotator.get_formatted_details_for_all_paths link_path filtered)
    (TableMaker.assign_state_codes state_list) input_list event_outputs state_outputs
    = Ok equation →
  save_drawflow_data simplify_logic filtered =
  VhdlGenerator.generate_vhdl "test" input_list
    (mjoin (snd <$> state_outputs) ++ event_outputs)
    (TableMaker.assign_state_codes state_list)
    (simplify_equations simplify_logic equation.1)
    (simplify_equations simplify_logic equation.2).
Proof.
  intros Hpaths Htable Hequation. unfold save_drawflow_data.
  rewrite Hpaths. cbn [mbind outcome_bind Py.bind]. rewrite Htable, Hequation. done.
Qed.

Lemma simplify_equations_keeps simplify_logic (equations_dict : gmap string bexpr) :
  keeps_conjunctions simplify_logic →
  map_Forall (λ _ e, conjunction_of_literals e = true) equations_dict →
  simplify_equations simplify_logic equations_dict = equations_dict.
Proof.
  intros Hkeeps Hall. apply map_eq. intros key. unfold simplify_equations.
  rewrite lookup_fmap. destruct (equations_dict !! key) as [e|] eqn:He; [|done].
  simpl. by rewrite (Hkeeps e (Hall key e He)).
Qed.

Lemma simplify_equations_empty simplify_logic (equations_dict : gmap string bexpr) :
  simplify_equations simplify_logic equations_dict = ∅ → equations_dict = ∅.
Proof. apply fmap_empty_inv. Qed.

(** The equations of S2 before the reducer. *)
Lemma branch_equations :
  TableMaker.generate_boolean_equations
    (Annotator.get_formatted_details_for_all_paths
       [["1"; "4"; "2"]; ["1"; "4"; "3"]] Scenarios.branch)
    (TableMaker.assign_state_codes [1; 2; 3]%Z) ["x"] [] []
  = Ok ({[ "Y0" := And [Not (Symbol "Y0"); Not (Symbol "Y1"); Not (Symbol "x")];
           "Y1" := And [Symbol "x"; Not (Symbol "Y0"); Not (Symbol "Y1")] ]}, ∅).
Proof. vm_compute. reflexivity. Qed.

Lemma branch_text simplify_logic :
  keeps_conjunctions simplify_logic →
  save_drawflow_data simplify_logic Scenarios.branch = Ok Scenarios.branch_vhdl.
Proof.
  intros Hkeeps.
  rewrite (save_drawflow_data_steps simplify_logic Scenarios.branch
             [["1"; "4"; "2"]; ["1"; "4"; "3"]] [1; 2; 3]%Z ["x"] [] [] _
             eq_refl eq_refl branch_equations).
  rewrite !simplify_equations_keeps; [by vm_compute|done|by apply map_Forall_empty|done|].
  cbn [fst]. apply map_Forall_insert_2; [done|]. by apply map_Forall_singleton.
Qed.

(** C2, as the code has it.  For the S2 graph the codes are S0=00, S1=01,
    S2=10; a code is read by string index, so the branch to S1 (x true)
    sets state bit 1 and the branch to S2 (x false) sets state bit 0, and
    each operand of a conjunction is written in its own parentheses. *)
Theorem branch_vhdl_emitted (simplify_logic : bexpr → outcome bexpr) :
  keeps_conjunctions simplify_logic → Scenarios.branch_as_emitted simplify_logic.
Proof.
  intros Hkeeps. split; [done|]. split; [done|].
  exists Scenarios.branch_vhdl. split; [by apply branch_text|].
  split; vm_compute; reflexivity.
Qed.

Lemma branch_vhdl_emitted_witness :
  keeps_conjunctions Ok ∧ Scenarios.branch_as_emitted Ok.
Proof.
  assert (keeps_conjunctions Ok) as Hkeeps by (intros e _; reflexivity).
  split; [exact Hkeeps | exact (branch_vhdl_emitted Ok Hkeeps)].
Defined.

(** No reducer that returns conjunctions of literals unchanged makes the
    pipeline write the two assignments the specification expects for S2. *)
Lemma branch_vhdl_not_as_specified :
  ¬ ∃ simplify_logic,
      keeps_conjunctions simplify_logic ∧ Scenarios.branch_as_specified simplify_logic.
Proof.
  intros (simplify_logic & Hkeeps & _ & vhdl_code & Hvhdl & Hexpected & _).
  rewrite (branch_text simplify_logic Hkeeps) in Hvhdl. injection Hvhdl as <-.
  vm_compute in Hexpected. discriminate.
Qed.

(** The equations of S1 before the reducer. *)
Lemma toggle_equations :
  TableMaker.generate_boolean_equations
    (Annotator.get_formatted_details_for_all_paths
       [["1"; "3"; "2"]; ["2"; "4"; "1"]] Scenarios.toggle)
    (TableMaker.assign_state_codes [1; 2]%Z) [] ["tick"] []
  = Ok ({[ "Y0" := Not (Symbol "Y0") ]},
        {[ "tick" := Or [Symbol "Y0"; Not (Symbol "Y0")] ]}).
Proof. vm_compute. reflexivity. Qed.

(** C4, what the code does.  For the S1 graph [tick] is the only output
    name, so [generate_vhdl] raises [TypeError] where it iterates over
    [sympy.symbols('tick')], whatever the reducer returns: no VHDL is
    written. *)
Theorem toggle_raises (simplify_logic : bexpr → outcome bexpr) :
  save_drawflow_data simplify_logic Scenarios.toggle = Raise "TypeError".
Proof.
  rewrite (save_drawflow_data_steps simplify_logic Scenarios.toggle
             [["1"; "3"; "2"]; ["2"; "4"; "1"]] [1; 2]%Z [] ["tick"] [] _
             eq_refl eq_refl toggle_equations).
  apply (generate_vhdl_one_output "test" [] "tick" ["tick"]
           1%Z "0" [(2%Z, "1")]); [done|done|].
  intros [Hempty%simplify_equations_empty _]. cbn [fst] in Hempty.
  by apply map_non_empty_singleton in Hempty.
Qed.

End pipeline_facts.

(** ** The theorems at work on the scenarios *)

Section scenario_checks.
Import Py Sympy PathFinder Annotator TableMaker.

Lemma branch_distinct_ids : distinct_ids Scenarios.branch.
Proof. unfold distinct_ids. apply (bool_decide_unpack _). vm_compute. exact I. Qed.


Lemma find_link_paths_well_formed_witness :
  find_link_paths Scenarios.branch = Some [["1"; "4"; "2"]; ["1"; "4"; "3"]] ∧
  well_formed Scenarios.branch ["1"; "4"; "2"].
Proof.
  split; [reflexivity|].
  apply (find_link_paths_well_formed Scenarios.branch
           [["1"; "4"; "2"]; ["1"; "4"; "3"]] ["1"; "4"; "2"]).
  - exact branch_distinct_ids.
  - reflexivity.
  - left.
Defined.




Lemma get_formatted_details_indicator_witness :
  ∃ single_path_ids node_id n,
    [["1"; "4"; "2"]; ["1"; "4"; "3"]] !! 1 = Some single_path_ids ∧
    single_path_ids !! 2 = Some node_id ∧
    index_nodes Scenarios.branch !! node_id = Some n ∧
    (2 = 0 → indicator (Step (Some 3%Z) "" "state" (Some false)) = None) ∧
    (∀ previous, 0 < 2 → single_path_ids !! (2 - 1) = Some previous →
       indicator_rule n previous (indicator (Step (Some 3%Z) "" "state" (Some false)))).
Proof.
  apply (get_formatted_details_indicator [["1"; "4"; "2"]; ["1"; "4"; "3"]]
           Scenarios.branch 1 2
           [Some (Step (Some 1%Z) "" "state" None);
            Some (Step (Some 4%Z) "x" "decision" (Some true));
            Some (Step (Some 3%Z) "" "state" (Some false))]).
  - reflexivity.
  - reflexivity.
Defined.

(** In S2 the decision is reached from a state through [output_1], and its
    step carries the indicator [True]. *)
Lemma indicator_after_state :
  ¬ ∀ annotated,
      annotated ∈ get_formatted_details_for_all_paths
                    [["1"; "4"; "2"]; ["1"; "4"; "3"]] Scenarios.branch →
      none_after_non_decision annotated.
Proof.
  intros Hclaim.
  specialize (Hclaim [Some (Step (Some 1%Z) "" "state" None);
                      Some (Step (Some 4%Z) "x" "decision" (Some true));
                      Some (Step (Some 2%Z) "" "state" (Some true))]).
  specialize (Hclaim ltac:(left) 0 _ _ eq_refl eq_refl). simpl in Hclaim.
  by specialize (Hclaim ltac:(done)).
Qed.

Lemma flip_codes_uniform : uniform_codes Scenarios.flip_state_codes 1.
Proof.
  split; [lia|]. intros k code Hin.
  repeat (apply elem_of_cons in Hin as [[= -> ->]|Hin]; [done|]).
  by apply elem_of_nil in Hin.
Qed.



End scenario_checks.

(** * Further properties of the code *)

(** ** Path finder: the paths are the walks of the chart *)

Section path_finder_walks.
Import Py PathFinder Paths.
Context (nodes : list node) (m : gmap string node).
Hypothesis Hindex : ∀ k n, m !! k = Some n ↔ is_node nodes k n.
Implicit Types (visited : gset string) (st : search).

Lemma trail_end_snoc a l x : trail_end a (l ++ [x]) = x.
Proof. unfold trail_end. apply last_last. Qed.

Lemma trail_end_cons a y l : trail_end a (y :: l) = trail_end y l.
Proof.
  unfold trail_end. revert a y. induction l as [|z l IH]; intros a y; [done|].
  change (List.last (y :: z :: l) a) with (List.last (z :: l) a).
  by rewrite !IH.
Qed.

Lemma trail_snoc a l x :
  trail nodes a l → edge nodes (trail_end a l) x → intermediate_id nodes x →
  trail nodes a (l ++ [x]).
Proof.
  revert a; induction l as [|y l IH]; intros a; cbn [trail walk].
  - by intros _ Hedge Hx.
  - intros (Hedge & Hy & Htrail) Hlast Hx. split; [done|]. split; [done|].
    apply IH; [done| |done]. by rewrite <-(trail_end_cons a).
Qed.

Lemma trail_walk a l t :
  trail nodes a l → edge nodes (trail_end a l) t → walk nodes a l t.
Proof.
  revert a; induction l as [|y l IH]; intros a; cbn [trail walk].
  - by intros _ Hedge.
  - intros (Hedge & Hy & Htrail) Hlast. split; [done|]. split; [done|].
    apply IH; [done|]. by rewrite <-(trail_end_cons a).
Qed.

Lemma walk_trail a l t :
  walk nodes a l t → trail nodes a l ∧ edge nodes (trail_end a l) t.
Proof.
  revert a; induction l as [|y l IH]; intros a; cbn [trail walk].
  - by intros Hedge.
  - intros (Hedge & Hy & Hwalk). destruct (IH y Hwalk) as [Htrail Hlast].
    split; [done|]. by rewrite (trail_end_cons a).
Qed.

(** The loops over the outputs, with the connection known to belong to
    the node. *)
Lemma outputs_loop_inv_in (I : search → Prop) recurse cur path visited current_node st r :
  I st →
  (∀ output_port port_data conn st st',
     (output_port, port_data) ∈ outputs current_node →
     conn ∈ connections port_data → I st →
     visit_connection recurse m cur path visited conn st = Some st' → I st') →
  outputs_loop recurse m cur path visited current_node st = Some r → I r.
Proof.
  intros Hst Hbody. unfold outputs_loop.
  apply for_each_inv; [done|].
  intros [output_port port_data] st1 st1' Hport Hst1.
  apply for_each_inv; [done|].
  intros conn st2 st2' Hconn. by eapply Hbody.
Qed.

(** The search from a state [start] only appends walks of the chart, and
    only reports trails that come back to one of their own nodes. *)
Lemma dfs_trace (I : search → Prop) start :
  state_id nodes start →
  (∀ st p, I st → traced nodes p → I (found p st)) →
  (∀ st w, I st → revisits nodes w → I (report (CycleDetected w) st)) →
  (∀ st d, I st → (∀ w, d ≠ CycleDetected w) → I (report d st)) →
  ∀ depth l visited st r,
    trail nodes start l →
    (∀ x, x ∈ ({[trail_end start l]} ∪ visited : gset string) → x ∈ start :: l) →
    I st →
    _dfs_find_paths depth m (trail_end start l) (start :: l) visited st = Some r →
    I r.
Proof.
  intros Hstart Hfound Hcycle Hother. induction depth as [|depth IH];
    intros l visited st r Htrail Hseen Hst; [done|].
  rewrite dfs_unfold.
  destruct (m !! trail_end start l) as [current_node|] eqn:Hcur;
    [|intros [= <-]; by apply Hother].
  apply outputs_loop_inv_in; [done|].
  intros output_port port_data conn st1 st1' Hport Hconn Hst1.
  unfold visit_connection.
  destruct (c_node conn) as [target|] eqn:Hc; [|by intros [= <-]].
  case_decide; [by intros [= <-]|].
  destruct (m !! target) as [target_node|] eqn:Htarget;
    [|intros [= <-]; by apply Hother].
  assert (edge nodes (trail_end start l) target) as Hedge.
  { exists current_node, output_port, port_data, conn.
    split; [by apply Hindex|done]. }
  case_decide as Htype.
  { intros [= <-]. apply Hfound; [done|].
    exists start, l, target. split; [done|]. split; [done|].
    split; [by eapply lookup_state|]. by apply trail_walk. }
  assert (intermediate_id nodes target) as Hinter by by eapply lookup_intermediate.
  case_decide as Hvisited.
  { intros [= <-]. apply Hcycle; [done|].
    exists start, l, target. split; [done|]. split; [done|]. split; [done|].
    split; [done|].
    apply Hseen in Hvisited. apply elem_of_cons in Hvisited as [->|?]; [|done].
    by destruct (intermediate_not_state nodes m Hindex start). }
  change ((start :: l) ++ [target]) with (start :: (l ++ [target])).
  rewrite <-(trail_end_snoc start l target) at 1.
  apply IH; [by apply trail_snoc| |done].
  rewrite trail_end_snoc. intros x [->%elem_of_singleton|Hx]%elem_of_union.
  - right. apply elem_of_app. right. by left.
  - apply Hseen in Hx. apply elem_of_cons in Hx as [->|Hx]; [by left|].
    right. apply elem_of_app. by left.
Qed.

(** A trail that comes back to a node already on it is reported. *)
Lemma dfs_reports_cycle x :
  intermediate_id nodes x →
  ∀ l depth cur path visited st r,
    trail nodes cur l → edge nodes (trail_end cur l) x → NoDup l →
    (∀ y, y ∈ l → y ∉ ({[cur]} ∪ visited : gset string)) →
    x ∈ ({[cur]} ∪ visited : gset string) ∨ x ∈ l →
    _dfs_find_paths depth m cur path visited st = Some r →
    CycleDetected (path ++ l ++ [x]) ∈ diagnostics r.
Proof.
  intros (x_node & Hx & Hxtype).
  assert (x ≠ "") as Hnonempty by eauto using is_node_key_nonempty.
  apply Hindex in Hx.
  induction l as [|y l IH]; intros depth cur path visited st r Htrail Hlast Hdistinct
    Hfresh Hseen; (destruct depth as [|depth]; [done|]); rewrite dfs_unfold.
  - destruct Hseen as [Hseen|Hseen]; [|by apply elem_of_nil in Hseen].
    change (trail_end cur []) with cur in Hlast.
    apply (edge_lookup nodes m Hindex) in Hlast
      as (current_node & output_port & port_data & conn & -> & Hport & Hconn & Hc).
    apply (outputs_loop_reach m (λ st, CycleDetected (path ++ [x]) ∈ diagnostics st)
             _ _ _ _ _ output_port port_data conn); [done|done|..].
    + intros st1 st1'. unfold visit_connection. rewrite Hc.
      rewrite decide_False by done. rewrite Hx. rewrite decide_False by done.
      rewrite decide_True by done.
      intros [= <-]. simpl. apply elem_of_app. right. by left.
    + intros conn' st1 st1'.
      apply (visit_connection_keeps m
               (λ st, CycleDetected (path ++ [x]) ∈ diagnostics st)).
      * by intros st2 p Hst2.
      * intros st2 d Hst2. simpl. apply elem_of_app. by left.
  - destruct Htrail as (Hedge & (y_node & Hy & Hytype) & Htrail).
    assert (y ≠ "") as Hynonempty by eauto using is_node_key_nonempty.
    apply Hindex in Hy.
    apply (edge_lookup nodes m Hindex) in Hedge
      as (current_node & output_port & port_data & conn & -> & Hport & Hconn & Hc).
    apply NoDup_cons in Hdistinct as [Hyl Hdistinct].
    apply (outputs_loop_reach m
             (λ st, CycleDetected (path ++ (y :: l) ++ [x]) ∈ diagnostics st)
             _ _ _ _ _ output_port port_data conn); [done|done|..].
    + intros st1 st1'. unfold visit_connection. rewrite Hc.
      rewrite decide_False by done. rewrite Hy. rewrite decide_False by done.
      rewrite decide_False by (apply Hfresh; by left).
      intros Hrec. eapply IH in Hrec.
      * by rewrite <-(assoc_L (++)) in Hrec.
      * done.
      * by rewrite <-(trail_end_cons cur).
      * done.
      * intros z Hz [Hzy%elem_of_singleton|Hz']%elem_of_union; [congruence|].
        apply (Hfresh z); [by right | done].
      * destruct Hseen as [Hseen|[->|Hseen]%elem_of_cons].
        -- left. by apply elem_of_union_r.
        -- left. by apply elem_of_union_l, elem_of_singleton.
        -- by right.
    + intros conn' st1 st1'.
      apply (visit_connection_keeps m
               (λ st, CycleDetected (path ++ (y :: l) ++ [x]) ∈ diagnostics st)).
      * by intros st2 p Hst2.
      * intros st2 d Hst2. simpl. apply elem_of_app. by left.
Qed.

End path_finder_walks.

Section path_finder_walk_theorems.
Import Py PathFinder Paths.

Lemma trail_intermediate nodes a l x :
  trail nodes a l → x ∈ l → intermediate_id nodes x.
Proof.
  revert a; induction l as [|y l IH]; intros a; cbn [trail].
  - by intros _ Hx%elem_of_nil.
  - intros (_ & Hy & Htrail) [->|Hx]%elem_of_cons; [done|]. by eapply IH.
Qed.

Lemma seed_sees_itself (start x : string) :
  x ∈ ({[start]} ∪ ∅ : gset string) → x ∈ [start].
Proof.
  intros [->%elem_of_singleton|Hx]%elem_of_union; [by left|].
  by apply not_elem_of_empty in Hx.
Qed.

Lemma find_link_paths_walks (nodes : list node) (paths : list (list string))
    (p : list string) :
  distinct_ids nodes →
  find_link_paths nodes = Some paths →
  p ∈ paths →
  traced nodes p.
Proof.
  intros Hdistinct Hpaths Hp. unfold find_link_paths in Hpaths.
  destruct (find_link_paths_within (length nodes) nodes) as [r|] eqn:Hr; [|done].
  simpl in Hpaths. injection Hpaths as <-.
  pose proof (build_index_lookup nodes Hdistinct) as Hindex.
  assert (Forall (traced nodes) (link_paths r)) as Hall;
    [|by apply (proj1 (Forall_forall _ _) Hall)].
  clear p Hp.
  apply find_link_paths_within_cases in Hr as [[-> _]|Hr]; [by constructor|].
  revert Hr. apply (for_each_inv (λ st, Forall (traced nodes) (link_paths st)));
    [by constructor|].
  intros start st st' Hstart%build_index_seeds_spec Hst.
  apply (dfs_trace nodes _ Hindex (λ st, Forall (traced nodes) (link_paths st))
           start Hstart) with (l := []); [| | |done|apply seed_sees_itself|done].
  - intros st1 q Hst1 Hq. simpl. apply Forall_app. split; [done|].
    by apply Forall_singleton.
  - by intros st1 w Hst1 _.
  - by intros st1 d Hst1 _.
Qed.

(** X1.  Every returned path follows the output connections of the chart from
    a state, through nodes that are not states, to a state. *)
Theorem find_link_paths_traced (nodes : list node) (paths : list (list string))
    (p : list string) :
  distinct_ids nodes →
  find_link_paths nodes = Some paths →
  p ∈ paths →
  traced nodes p.
Proof. apply find_link_paths_walks. Qed.

(** X2.  Every walk of the chart from a state to a state through distinct
    nodes that are not states is returned. *)
Theorem find_link_paths_complete (nodes : list node) (s t : string) (l : list string) :
  distinct_ids nodes →
  state_id nodes s → state_id nodes t →
  walk nodes s l t → NoDup l →
  ∃ paths, find_link_paths nodes = Some paths ∧ s :: l ++ [t] ∈ paths.
Proof.
  intros Hdistinct Hs Ht Hwalk Hl.
  pose proof (build_index_lookup nodes Hdistinct) as Hindex.
  destruct (find_link_paths_within_returns (length nodes) nodes) as [r Hr]; [done|].
  exists (link_paths r). unfold find_link_paths. rewrite Hr. split; [done|].
  assert (s ∈ (build_index nodes).2) as Hseed by by apply build_index_seeds_spec.
  apply find_link_paths_within_cases in Hr as [[_ Hguard]|Hr].
  { exfalso. destruct Hguard as [->|[Hempty|Hempty]].
    - destruct Hs as (n & [Hn _] & _). by apply elem_of_nil in Hn.
    - destruct Hs as (n & Hn%Hindex & _). by rewrite Hempty, lookup_empty in Hn.
    - rewrite Hempty in Hseed. by apply elem_of_nil in Hseed. }
  revert Hr. apply (for_each_reach (λ st, [s] ++ l ++ [t] ∈ link_paths st) _ _ s);
    [done|..].
  - intros st st'. apply (dfs_complete nodes _ Hindex); [done..|].
    intros x Hx [->%elem_of_singleton|Hx']%elem_of_union.
    + apply walk_trail in Hwalk as [Htrail _].
      by destruct (intermediate_not_state nodes _ Hindex s);
        [eapply trail_intermediate|].
    + by apply not_elem_of_empty in Hx'.
  - intros start st st' _.
    apply (dfs_keeps _ (λ st, [s] ++ l ++ [t] ∈ link_paths st)).
    + intros st1 q Hst1. simpl. apply elem_of_app. by left.
    + by intros st1 d Hst1.
Qed.

(** X3.  A chart without a state node with an id has no path. *)
Theorem find_link_paths_no_state (nodes : list node) :
  (∀ n, n ∈ nodes → type n = "state" → id n = None) →
  find_link_paths nodes = Some [].
Proof.
  intros Hnone. unfold find_link_paths, find_link_paths_within.
  destruct nodes as [|n nodes]; [done|].
  assert ((build_index (n :: nodes)).2 = []) as Hseeds.
  { apply elem_of_nil_inv. intros k (n' & [Hin Hkey] & Htype)%build_index_seeds_spec.
    unfold node_key in Hkey. by rewrite (Hnone n' Hin Htype) in Hkey. }
  destruct (build_index (n :: nodes)) as [m seeds]. simpl in Hseeds. subst seeds.
  by case_decide.
Qed.

(** X4.  A cycle is only reported for a trail of the chart that starts at a
    state and comes back to one of its own intermediate nodes. *)
Theorem cycle_reports_are_cycles (nodes : list node) (depth : nat) (r : search)
    (w : list string) :
  distinct_ids nodes →
  find_link_paths_within depth nodes = Some r →
  CycleDetected w ∈ diagnostics r →
  revisits nodes w.
Proof.
  intros Hdistinct Hr Hw.
  pose proof (build_index_lookup nodes Hdistinct) as Hindex.
  assert (Forall (λ d, ∀ w, d = CycleDetected w → revisits nodes w) (diagnostics r))
    as Hall; [|exact (proj1 (Forall_forall _ _) Hall _ Hw w eq_refl)].
  clear w Hw.
  apply find_link_paths_within_cases in Hr as [[-> _]|Hr]; [by constructor|].
  revert Hr.
  apply (for_each_inv
           (λ st, Forall (λ d, ∀ w, d = CycleDetected w → revisits nodes w)
                         (diagnostics st))); [by constructor|].
  intros start st st' Hstart%build_index_seeds_spec Hst.
  apply (dfs_trace nodes _ Hindex
           (λ st, Forall (λ d, ∀ w, d = CycleDetected w → revisits nodes w)
                         (diagnostics st))
           start Hstart) with (l := []); [| | |done|apply seed_sees_itself|done].
  - by intros st1 q Hst1 _.
  - intros st1 w Hst1 Hw. simpl. apply Forall_app. split; [done|].
    apply Forall_singleton. by intros w' [= <-].
  - intros st1 d Hst1 Hd. simpl. apply Forall_app. split; [done|].
    apply Forall_singleton. intros w' ->. by destruct (Hd w').
Qed.

(** X5.  A trail from a state through distinct nodes whose last node has an
    output connection back to a node of the trail is reported as a cycle. *)
Theorem cycles_are_reported (nodes : list node) (s x : string) (l : list string) :
  distinct_ids nodes →
  state_id nodes s →
  trail nodes s l → NoDup l →
  edge nodes (trail_end s l) x → x ∈ l →
  ∃ r, find_link_paths_within (length nodes) nodes = Some r ∧
       CycleDetected (s :: l ++ [x]) ∈ diagnostics r.
Proof.
  intros Hdistinct Hs Htrail Hl Hedge Hx.
  pose proof (build_index_lookup nodes Hdistinct) as Hindex.
  destruct (find_link_paths_within_returns (length nodes) nodes) as [r Hr]; [done|].
  exists r. split; [done|].
  assert (s ∈ (build_index nodes).2) as Hseed by by apply build_index_seeds_spec.
  apply find_link_paths_within_cases in Hr as [[_ Hguard]|Hr].
  { exfalso. destruct Hguard as [->|[Hempty|Hempty]].
    - destruct Hs as (n & [Hn _] & _). by apply elem_of_nil in Hn.
    - destruct Hs as (n & Hn%Hindex & _). by rewrite Hempty, lookup_empty in Hn.
    - rewrite Hempty in Hseed. by apply elem_of_nil in Hseed. }
  revert Hr.
  apply (for_each_reach (λ st, CycleDetected ([s] ++ l ++ [x]) ∈ diagnostics st) _ _ s);
    [done|..].
  - intros st st'.
    apply (dfs_reports_cycle nodes _ Hindex x); [by eapply trail_intermediate|done..| |by right].
    intros y Hy [->%elem_of_singleton|Hy']%elem_of_union.
    + by destruct (intermediate_not_state nodes _ Hindex s);
        [eapply trail_intermediate|].
    + by apply not_elem_of_empty in Hy'.
  - intros start st st' _.
    apply (dfs_keeps _ (λ st, CycleDetected ([s] ++ l ++ [x]) ∈ diagnostics st)).
    + by intros st1 q Hst1.
    + intros st1 d Hst1. simpl. apply elem_of_app. by left.
Qed.

End path_finder_walk_theorems.

(** ** Path annotation: shape of the result *)

Section annotator_shape.
Import Py PathFinder Annotator.

Lemma index_nodes_snoc nodes n :
  index_nodes (nodes ++ [n]) =
  match id n with
  | Some node_id => <[str node_id := n]> (index_nodes nodes)
  | None => index_nodes nodes
  end.
Proof. unfold index_nodes. by rewrite foldl_app. Qed.

(** A node is indexed under the text of its own id. *)
Lemma index_nodes_key nodes k n :
  index_nodes nodes !! k = Some n → n ∈ nodes ∧ node_key n = Some k.
Proof.
  induction nodes as [|n' nodes IH] using rev_ind.
  { unfold index_nodes. simpl. by rewrite lookup_empty. }
  rewrite index_nodes_snoc, elem_of_app, list_elem_of_singleton.
  destruct (id n') as [i|] eqn:Hid; [|naive_solver].
  destruct (decide (str i = k)) as [<-|Hne].
  - rewrite lookup_insert_eq. intros [= <-]. split; [by right|].
    unfold node_key. by rewrite Hid.
  - rewrite lookup_insert_ne by done. naive_solver.
Qed.

Lemma index_nodes_bound nodes n i :
  n ∈ nodes → id n = Some i → is_Some (index_nodes nodes !! str i).
Proof.
  induction nodes as [|n' nodes IH] using rev_ind; [by intros ?%elem_of_nil|].
  rewrite index_nodes_snoc, elem_of_app, list_elem_of_singleton.
  intros [Hin| ->] Hid.
  - destruct (id n') as [i'|]; [|by apply IH].
    rewrite lookup_insert. case_decide; [done|]. by apply IH.
  - rewrite Hid. by rewrite lookup_insert_eq.
Qed.


End annotator_shape.

(** ** Dictionaries and sorting *)

Section dict_lemmas.
Import Py.
Context {K A : Type} `{EqDecision K}.
Implicit Types (d : list (K * A)).

Lemma dict_get_set_eq key a d : dict_get key (dict_set key a d) = Some a.
Proof.
  induction d as [|[k b] d IH]; simpl; [by rewrite decide_True|].
  destruct (decide (k = key)) as [->|Hne]; simpl.
  - by rewrite decide_True.
  - by rewrite decide_False.
Qed.

Lemma dict_get_set_ne key key' a d :
  key ≠ key' → dict_get key' (dict_set key a d) = dict_get key' d.
Proof.
  intros Hne. induction d as [|[k b] d IH]; simpl.
  - by rewrite decide_False.
  - destruct (decide (k = key)) as [->|Hk]; simpl.
    + by repeat case_decide.
    + by rewrite IH.
Qed.

Lemma dict_set_keys key a d :
  (dict_set key a d).*1 = if decide (key ∈ d.*1) then d.*1 else d.*1 ++ [key].
Proof.
  induction d as [|[k b] d IH]; [done|].
  cbn [dict_set]. destruct (decide (k = key)) as [->|Hk]; rewrite !fmap_cons; cbn [fst].
    + rewrite decide_True; [done|]. by left.
    + rewrite IH. destruct (decide (key ∈ d.*1)) as [Hin|Hin].
      * rewrite decide_True; [done|]. by right.
      * rewrite decide_False; [done|].
        intros [?|?]%elem_of_cons; by subst.
Qed.

Lemma dict_set_keys_NoDup key a d : NoDup d.*1 → NoDup (dict_set key a d).*1.
Proof.
  intros Hd. rewrite dict_set_keys. case_decide as Hin; [done|].
  apply NoDup_app. split; [done|]. split; [|apply NoDup_singleton].
  by intros k Hk ->%list_elem_of_singleton.
Qed.

Lemma dict_set_elem key a d k b :
  (k, b) ∈ dict_set key a d → (k = key ∧ b = a) ∨ (k, b) ∈ d.
Proof.
  induction d as [|[k' b'] d IH]; simpl.
  - intros [= -> ->]%list_elem_of_singleton. by left.
  - destruct (decide (k' = key)) as [->|Hk].
    + intros [[= -> ->]|Hin]%elem_of_cons; [by left|]. right. by right.
    + intros [[= -> ->]|Hin]%elem_of_cons; [right; by left|].
      destruct (IH Hin); [by left|]. right. by right.
Qed.

Lemma dict_get_keys key d : is_Some (dict_get key d) ↔ key ∈ d.*1.
Proof.
  induction d as [|[k b] d IH]; simpl.
  - split; [by intros [? ?]|by intros ?%elem_of_nil].
  - destruct (decide (k = key)) as [->|Hk].
    + split; [by left|by eauto].
    + rewrite IH. split; [by right|]. by intros [?|?]%elem_of_cons.
Qed.

Lemma dict_get_unique key a d : NoDup d.*1 → (key, a) ∈ d → dict_get key d = Some a.
Proof.
  induction d as [|[k b] d IH]; simpl; [by intros _ ?%elem_of_nil|].
  intros [Hk Hd]%NoDup_cons [[= <- <-]|Hin]%elem_of_cons.
  - by rewrite decide_True.
  - rewrite decide_False; [by apply IH|].
    intros ->. apply Hk. apply list_elem_of_fmap. by exists (key, a).
Qed.

End dict_lemmas.

Section sorted_lemmas.
Import Py.
Context {A : Type} (leb : A → A → bool) (R : relation A).
Hypothesis leb_true : ∀ a b, leb a b = true → R a b.
Hypothesis leb_false : ∀ a b, leb a b = false → R b a.

Lemma insert_sorted_perm a l : insert_sorted leb a l ≡ₚ a :: l.
Proof.
  induction l as [|b l IH]; simpl; [done|].
  destruct (leb a b); [done|]. rewrite IH. apply Permutation_swap.
Qed.

Lemma sorted_perm l : sorted leb l ≡ₚ l.
Proof.
  induction l as [|a l IH]; simpl; [done|].
  by rewrite insert_sorted_perm, IH.
Qed.

Lemma insert_sorted_Sorted a l : Sorted R l → Sorted R (insert_sorted leb a l).
Proof.
  induction 1 as [|b l Hl IH Hb]; simpl; [by repeat constructor|].
  destruct (leb a b) eqn:Hab.
  - constructor; [by constructor|]. constructor. by apply leb_true.
  - constructor; [done|].
    destruct Hb as [|c l' Hc]; simpl.
    + constructor. by apply leb_false.
    + destruct (leb a c); constructor; [by apply leb_false|done].
Qed.

Lemma sorted_Sorted l : Sorted R (sorted leb l).
Proof.
  induction l as [|a l IH]; simpl; [constructor|by apply insert_sorted_Sorted].
Qed.

End sorted_lemmas.

Lemma sorted_Z l : StronglySorted Z.le (Py.sorted Z.leb l) ∧ Py.sorted Z.leb l ≡ₚ l.
Proof.
  split; [|apply sorted_perm].
  apply Sorted_StronglySorted; [apply _|].
  apply sorted_Sorted.
  - intros a b. apply Z.leb_le.
  - intros a b Hab%Z.leb_gt. lia.
Qed.

Lemma sorted_str l :
  StronglySorted String.le (Py.sorted Py.str_leb l) ∧ Py.sorted Py.str_leb l ≡ₚ l.
Proof.
  split; [|apply sorted_perm].
  apply Sorted_StronglySorted; [apply _|].
  apply sorted_Sorted.
  - intros a b Hab. unfold String.le. change (String.leb a b) with (Py.str_leb a b).
    by rewrite Hab.
  - intros a b Hab. destruct (total String.le a b) as [Hle|Hle]; [|done].
    unfold String.le in Hle. change (String.leb a b) with (Py.str_leb a b) in Hle.
    by rewrite Hab in Hle.
Qed.

(** ** The table elements *)

Section table_elements.
Import Py PathFinder TableMaker Tables.

Lemma collect_states acc nodes :
  states (foldl collect acc nodes)
  = states acc ++ omap (λ n, if decide (type n = "state") then id n else None) nodes.
Proof.
  revert acc; induction nodes as [|n nodes IH]; intros acc; simpl.
  - by rewrite app_nil_r.
  - rewrite IH. unfold collect.
    destruct (decide (type n = "state")) as [Hs|Hs].
    + destruct (id n); simpl; [by rewrite <-app_assoc|done].
    + repeat case_decide; done.
Qed.

Lemma collect_texts (field : elements → list string) (ty : string) acc nodes :
  (field = unique_inputs ∧ ty = "decision") ∨ (field = event_outputs ∧ ty = "event") →
  field (foldl collect acc nodes)
  = field acc ++
    omap (λ n, if decide (type n = ty ∧ node_data n ≠ "") then Some (node_data n) else None)
      nodes.
Proof.
  intros Hfield. revert acc; induction nodes as [|n nodes IH]; intros acc.
  { simpl. by rewrite app_nil_r. }
  cbn [foldl omap list_omap]. rewrite IH. clear IH.
  destruct Hfield as [[-> ->]|[-> ->]];
    (match goal with |- context [decide (?P ∧ ?Q)] =>
       destruct (decide (P ∧ Q)) as [[Hty Hd]|Hnot] end); unfold collect;
    repeat case_decide; try destruct (id n); cbn [unique_inputs event_outputs];
    rewrite <-?app_assoc; try done; try congruence; tauto.
Qed.

Lemma texts_elem (ty : string) (nodes : list node) x :
  x ∈ omap (λ n, if decide (type n = ty ∧ node_data n ≠ "") then Some (node_data n)
                 else None) nodes
  ↔ x ≠ "" ∧ ∃ n, n ∈ nodes ∧ type n = ty ∧ node_data n = x.
Proof.
  rewrite list_elem_of_omap. split.
  - intros (n & Hn & Hx). case_decide as Hty; [|done]. injection Hx as <-.
    destruct Hty. eauto.
  - intros (Hx & n & Hn & Hty & <-). exists n. split; [done|].
    by rewrite decide_True.
Qed.

Lemma prepare_table_elements_unfold filtered_nodes :
  filtered_nodes ≠ [] →
  prepare_table_elements filtered_nodes
  = Table4 (sorted Z.leb (states (foldl collect (Elements [] [] [] []) filtered_nodes)))
      (sorted str_leb
         (remove_dups (unique_inputs (foldl collect (Elements [] [] [] []) filtered_nodes))))
      (sorted str_leb
         (remove_dups (event_outputs (foldl collect (Elements [] [] [] []) filtered_nodes))))
      (state_outputs (foldl collect (Elements [] [] [] []) filtered_nodes)).
Proof. by destruct filtered_nodes. Qed.

(** X7.  States.  Called with at least one node, [prepare_table_elements]
    returns four values; [states_list] is ascending and has one entry for
    each node of type ['state'] that has an id, a repeated id as often as
    it occurs. *)
Theorem prepare_table_elements_states filtered_nodes :
  filtered_nodes ≠ [] →
  ∃ states_list inputs_list event_outputs state_outputs,
    prepare_table_elements filtered_nodes
    = Table4 states_list inputs_list event_outputs state_outputs ∧
    StronglySorted Z.le states_list ∧
    states_list ≡ₚ
      omap (λ n, if decide (type n = "state") then id n else None) filtered_nodes.
Proof.
  intros Hnodes. unfold prepare_table_elements.
  destruct filtered_nodes as [|n nodes]; [done|].
  do 4 eexists. split; [reflexivity|].
  rewrite collect_states. cbn [states app]. apply sorted_Z.
Qed.

(** X8.  Inputs and event outputs.  [inputs_list] is ascending, has no
    duplicates and holds exactly the non-empty texts of the decision
    nodes; [event_outputs] is so for the event nodes. *)
Theorem prepare_table_elements_names filtered_nodes :
  filtered_nodes ≠ [] →
  ∃ states_list inputs_list event_outputs state_outputs,
    prepare_table_elements filtered_nodes
    = Table4 states_list inputs_list event_outputs state_outputs ∧
    (StronglySorted String.le inputs_list ∧ NoDup inputs_list ∧
     ∀ name, name ∈ inputs_list ↔
       name ≠ "" ∧ ∃ n, n ∈ filtered_nodes ∧ type n = "decision" ∧ node_data n = name) ∧
    (StronglySorted String.le event_outputs ∧ NoDup event_outputs ∧
     ∀ name, name ∈ event_outputs ↔
       name ≠ "" ∧ ∃ n, n ∈ filtered_nodes ∧ type n = "event" ∧ node_data n = name).
Proof.
  intros Hnodes. unfold prepare_table_elements.
  destruct filtered_nodes as [|n nodes]; [done|].
  do 4 eexists. split; [reflexivity|].
  rewrite (collect_texts unique_inputs "decision") by (by left).
  rewrite (collect_texts event_outputs "event") by (by right).
  cbn [unique_inputs event_outputs app].
  split.
  - split; [apply sorted_str|]. split.
    + rewrite (proj2 (sorted_str _)). apply NoDup_remove_dups.
    + intros name. rewrite (proj2 (sorted_str _)), elem_of_remove_dups.
      apply texts_elem.
  - split; [apply sorted_str|]. split.
    + rewrite (proj2 (sorted_str _)). apply NoDup_remove_dups.
    + intros name. rewrite (proj2 (sorted_str _)), elem_of_remove_dups.
      apply texts_elem.
Qed.

Lemma collect_state_outputs acc n :
  state_outputs (collect acc n)
  = match id n with
    | Some state_id =>
        if decide (type n = "state" ∧ node_data n ≠ "")
        then dict_set state_id (splitlines (node_data n)) (state_outputs acc)
        else state_outputs acc
    | None => state_outputs acc
    end.
Proof.
  unfold collect. destruct (id n) as [state_id|].
  - destruct (decide (_ ∧ _)) as [[Hty Hd]|Hnot];
      repeat case_decide; cbn [state_outputs]; try done; try congruence; tauto.
  - by repeat case_decide.
Qed.

Lemma collect_moore nodes :
  moore_table_of nodes (state_outputs (foldl collect (Elements [] [] [] []) nodes)).
Proof.
  induction nodes as [|n nodes IH] using rev_ind.
  - simpl. split; [constructor|]. split.
    + by intros ?? ?%elem_of_nil.
    + by intros ?? ?%elem_of_nil.
  - rewrite foldl_app. cbn [foldl]. set (acc := foldl collect _ nodes) in *.
    destruct IH as (Hkeys & Hfrom & Hto). rewrite collect_state_outputs.
    assert (∀ state_id output_list, (state_id, output_list) ∈ state_outputs acc →
              ∃ n0, n0 ∈ nodes ++ [n] ∧ type n0 = "state" ∧ id n0 = Some state_id ∧
                    node_data n0 ≠ "" ∧ output_list = splitlines (node_data n0))
      as Hfrom'.
    { intros sid l Hin. destruct (Hfrom sid l Hin) as (n' & Hn' & H').
      exists n'. split; [|done]. apply elem_of_app. by left. }
    destruct (id n) as [i|] eqn:Hi.
    + destruct (decide (_ ∧ _)) as [[Hty Hd]|Hnot].
      * split; [by apply dict_set_keys_NoDup|]. split.
        -- intros sid l [[-> ->]|Hin]%dict_set_elem; [|by apply Hfrom'].
           exists n. split; [apply elem_of_app; right; by left|done].
        -- intros n' sid [Hn' | ->%list_elem_of_singleton]%elem_of_app Hs' Hi' Hd'.
           ++ destruct (decide (i = sid)) as [->|Hne].
              ** rewrite dict_get_set_eq. eauto.
              ** rewrite dict_get_set_ne by done. by eapply Hto.
           ++ rewrite Hi in Hi'. injection Hi' as <-. rewrite dict_get_set_eq. eauto.
      * split; [done|]. split; [done|].
        intros n' sid [Hn' | ->%list_elem_of_singleton]%elem_of_app Hs' Hi' Hd';
          [by eapply Hto|tauto].
    + split; [done|]. split; [done|].
      intros n' sid [Hn' | ->%list_elem_of_singleton]%elem_of_app Hs' Hi' Hd';
        [by eapply Hto|congruence].
Qed.

(** X9.  The Moore table.  [state_outputs] has one entry per state id;
    each entry holds the lines of the text of a state node with that id
    and a non-empty text, and every such node has an entry. *)
Theorem prepare_table_elements_moore filtered_nodes :
  filtered_nodes ≠ [] →
  ∃ states_list inputs_list event_outputs state_outputs,
    prepare_table_elements filtered_nodes
    = Table4 states_list inputs_list event_outputs state_outputs ∧
    moore_table_of filtered_nodes state_outputs.
Proof.
  intros Hnodes. unfold prepare_table_elements.
  destruct filtered_nodes as [|n nodes]; [done|].
  do 4 eexists. split; [reflexivity|]. apply collect_moore.
Qed.

End table_elements.

(** ** The state codes *)

Section state_codes.
Import Py TableMaker Tables.

Lemma string_length_app (s1 s2 : string) :
  String.length (s1 +:+ s2) = String.length s1 + String.length s2.
Proof. induction s1 as [|c s1 IH]; simpl; [done|by rewrite IH]. Qed.

Lemma repeat_char_length c n : String.length (repeat_char c n) = n.
Proof. induction n as [|n IH]; simpl; [done|by rewrite IH]. Qed.

Lemma pos_binary_length p : String.length (pos_binary p) = Pos.size_nat p.
Proof.
  induction p as [p IH|p IH|]; simpl; [| |done];
    rewrite string_length_app, IH; simpl; lia.
Qed.

Lemma size_nat_le p w : Pos.to_nat p < 2 ^ w → Pos.size_nat p ≤ w.
Proof.
  revert w; induction p as [p IH|p IH|]; intros w Hp; simpl.
  - destruct w as [|w]; [simpl in Hp; lia|].
    apply le_n_S, IH. rewrite Pos2Nat.inj_xI in Hp. rewrite Nat.pow_succ_r' in Hp. lia.
  - destruct w as [|w]; [simpl in Hp; lia|].
    apply le_n_S, IH. rewrite Pos2Nat.inj_xO in Hp. rewrite Nat.pow_succ_r' in Hp. lia.
  - destruct w as [|w]; [simpl in Hp; lia|lia].
Qed.

Lemma binary_length i w : 0 < w → i < 2 ^ w → String.length (binary i) ≤ w.
Proof.
  intros Hw Hi. unfold binary. destruct (N.of_nat i) as [|p] eqn:Hp; [simpl; lia|].
  rewrite pos_binary_length. apply size_nat_le.
  assert (Pos.to_nat p = i) as -> by lia. done.
Qed.

Lemma format_binary_length i w :
  0 < w → i < 2 ^ w → String.length (format_binary i w) = w.
Proof.
  intros Hw Hi. unfold format_binary.
  rewrite string_length_app, repeat_char_length.
  pose proof (binary_length i w Hw Hi). lia.
Qed.

Lemma bits_for_spec n : 0 < bits_for n ∧ n ≤ 2 ^ bits_for n.
Proof.
  unfold bits_for. case_decide as Hn.
  - split; [by apply Nat.log2_up_pos|]. by apply Nat.log2_up_spec.
  - simpl. lia.
Qed.

Lemma int_of_binary_from_app acc s1 s2 :
  int_of_binary_from acc (s1 +:+ s2) = int_of_binary_from (int_of_binary_from acc s1) s2.
Proof. revert acc; induction s1 as [|c s1 IH]; intros acc; simpl; [done|apply IH]. Qed.

Lemma int_of_binary_zeros acc n : int_of_binary_from acc (repeat_char "0" n) = acc * 2 ^ n.
Proof.
  revert acc; induction n as [|n IH]; intros acc; simpl; [lia|].
  rewrite IH. lia.
Qed.

Lemma int_of_binary_pos p : int_of_binary_from 0 (pos_binary p) = Pos.to_nat p.
Proof.
  induction p as [p IH|p IH|]; simpl; [| |done];
    rewrite int_of_binary_from_app, IH; simpl; lia.
Qed.

Lemma int_of_binary_format i w : int_of_binary (format_binary i w) = i.
Proof.
  unfold int_of_binary, format_binary.
  rewrite int_of_binary_from_app, int_of_binary_zeros. simpl.
  unfold binary. destruct (N.of_nat i) as [|p] eqn:Hp; [simpl; lia|].
  rewrite int_of_binary_pos. lia.
Qed.

(** The loop of [assign_state_codes] at width [w]. *)
Local Abbreviation codes_of w l :=
  (foldl (λ state_codes '(i, state_id),
            dict_set state_id (format_binary i w) state_codes)
         [] (imap (λ i state_id, (i, state_id)) l)).

Lemma codes_of_snoc w (l : list Z) x :
  codes_of w (l ++ [x]) = dict_set x (format_binary (length l) w) (codes_of w l).
Proof.
  rewrite imap_app, foldl_app. simpl. by rewrite Nat.add_0_r.
Qed.

Lemma codes_of_elem w (l : list Z) k code :
  (k, code) ∈ codes_of w l → ∃ i, i < length l ∧ code = format_binary i w.
Proof.
  induction l as [|x l IH] using rev_ind; [by intros ?%elem_of_nil|].
  rewrite codes_of_snoc, length_app. simpl.
  intros [[-> ->]|Hin]%dict_set_elem.
  - exists (length l). split; [lia|done].
  - destruct (IH Hin) as (i & Hi & ->). exists i. split; [lia|done].
Qed.

Lemma codes_of_keys w (l : list Z) k : is_Some (dict_get k (codes_of w l)) ↔ k ∈ l.
Proof.
  induction l as [|x l IH] using rev_ind.
  - simpl. split; [by intros [? ?]|by intros ?%elem_of_nil].
  - rewrite codes_of_snoc, elem_of_app, list_elem_of_singleton, <-IH.
    destruct (decide (x = k)) as [->|Hne].
    + rewrite dict_get_set_eq. split; eauto.
    + rewrite dict_get_set_ne by done. split; [by left|]. by intros [?|?].
Qed.

Lemma codes_of_lookup w (l : list Z) i k :
  NoDup l → l !! i = Some k → dict_get k (codes_of w l) = Some (format_binary i w).
Proof.
  revert i. induction l as [|x l IH] using rev_ind; [done|].
  intros i [Hl [Hx _]]%NoDup_app Hi. rewrite codes_of_snoc.
  apply lookup_app_Some in Hi as [Hi|[Hlen Hi]].
  - rewrite dict_get_set_ne; [by apply IH|].
    intros ->. apply (Hx k); [by eapply list_elem_of_lookup_2|by left].
  - apply list_lookup_singleton_Some in Hi as [Hi ->].
    rewrite dict_get_set_eq. do 2 f_equal. lia.
Qed.

Lemma assign_state_codes_loop (states_list : list Z) :
  assign_state_codes states_list = codes_of (bits_for (length states_list)) states_list.
Proof. by destruct states_list. Qed.

Lemma assign_state_codes_width (states_list : list Z) :
  uniform_codes (assign_state_codes states_list) (bits_for (length states_list)).
Proof.
  rewrite assign_state_codes_loop.
  destruct (bits_for_spec (length states_list)) as [Hpos Hfits].
  split; [done|]. intros k code (i & Hi & ->)%codes_of_elem.
  apply format_binary_length; [done|lia].
Qed.

Lemma assign_state_codes_keys (states_list : list Z) state_id :
  is_Some (dict_get state_id (assign_state_codes states_list)) ↔ state_id ∈ states_list.
Proof. rewrite assign_state_codes_loop. apply codes_of_keys. Qed.

(** X10.  Every state of the list, and nothing else, gets a code, and all
    codes have the width [assign_state_codes] computed, which is not
    zero. *)
Theorem assign_state_codes_uniform (states_list : list Z) :
  uniform_codes (assign_state_codes states_list) (bits_for (length states_list)) ∧
  ∀ state_id,
    is_Some (dict_get state_id (assign_state_codes states_list)) ↔ state_id ∈ states_list.
Proof.
  split; [apply assign_state_codes_width|apply assign_state_codes_keys].
Qed.

(** X11.  The code of the state at index [i] of a duplicate-free list is
    the number [i] in binary, padded to the common width. *)
Theorem assign_state_codes_index (states_list : list Z) i state_id :
  NoDup states_list →
  states_list !! i = Some state_id →
  ∃ code,
    dict_get state_id (assign_state_codes states_list) = Some code ∧
    String.length code = bits_for (length states_list) ∧
    int_of_binary code = i.
Proof.
  intros Hnodup Hi. rewrite assign_state_codes_loop.
  exists (format_binary i (bits_for (length states_list))).
  split; [by apply codes_of_lookup|]. split; [|apply int_of_binary_format].
  destruct (bits_for_spec (length states_list)) as [Hpos Hfits].
  apply format_binary_length; [done|].
  apply lookup_lt_Some in Hi. lia.
Qed.

(** X12.  Two states of a duplicate-free list never share a code. *)
Theorem assign_state_codes_distinct (states_list : list Z) s1 s2 code1 code2 :
  NoDup states_list →
  s1 ≠ s2 →
  dict_get s1 (assign_state_codes states_list) = Some code1 →
  dict_get s2 (assign_state_codes states_list) = Some code2 →
  code1 ≠ code2.
Proof.
  intros Hnodup Hne. rewrite assign_state_codes_loop. intros H1 H2 <-.
  assert (∀ s, dict_get s (codes_of (bits_for (length states_list)) states_list)
               = Some code1 → states_list !! int_of_binary code1 = Some s) as Hindex.
  { intros s Hs.
    assert (s ∈ states_list) as [i Hi]%list_elem_of_lookup_1.
    { apply (codes_of_keys (bits_for (length states_list))). eauto. }
    rewrite (codes_of_lookup _ _ i s Hnodup Hi) in Hs. injection Hs as <-.
    by rewrite int_of_binary_format. }
  apply Hindex in H1, H2. congruence.
Qed.

End state_codes.

(** ** What the equations say *)

Section fold_outcome_prefix.
Context {A S : Type}.
Import Py.

(** An invariant that speaks of the part of the list already processed. *)
Lemma fold_outcome_prefix (P : list A → S → Prop) (body : S → A → outcome S) l s s' :
  P [] s →
  (∀ pre a s s', P pre s → body s a = Ok s' → P (pre ++ [a]) s') →
  fold_outcome body s l = Ok s' → P l s'.
Proof.
  intros Hs Hbody.
  assert (∀ pre s, P pre s → fold_outcome body s l = Ok s' → P (pre ++ l) s') as H;
    [|by apply (H [])].
  clear s Hs. induction l as [|a l IH]; intros pre s Hs; simpl.
  - intros [= <-]. by rewrite app_nil_r.
  - destruct (body s a) as [s1|] eqn:E; [|done].
    intros Hl. rewrite cons_middle, app_assoc. eapply IH; [|done]. by eapply Hbody.
Qed.

End fold_outcome_prefix.

Section equation_semantics.
Import Py Sympy Annotator TableMaker Tables.

Lemma add_input_condition_eval v path inputs path_condition i :
  eval v (add_input_condition path inputs path_condition i)
  = eval v path_condition && step_holds v path inputs i.
Proof.
  unfold add_input_condition, step_holds.
  destruct (path !! i) as [[cur|]|]; try by rewrite andb_true_r.
  destruct (path !! (i - 1)) as [[prev|]|]; try by rewrite andb_true_r.
  destruct (decide (s_type prev = "decision")) as [Hty|Hty].
  - destruct (decide (s_data prev ∈ inputs)) as [Hin|Hin].
    + rewrite decide_True by done.
      destruct (indicator cur) as [[|]|]; rewrite ?eval_py_And, ?andb_true_r; simpl;
        rewrite ?eval_py_Not; simpl; rewrite ?andb_true_r; try done;
        by destruct (v (s_data prev)).
    + rewrite decide_False by tauto. by rewrite andb_true_r.
  - rewrite decide_False by tauto. by rewrite andb_true_r.
Qed.

Lemma path_condition_eval v path inputs path_condition l :
  eval v (foldl (add_input_condition path inputs) path_condition l)
  = eval v path_condition && forallb (step_holds v path inputs) l.
Proof.
  revert path_condition; induction l as [|i l IH]; intros path_condition; simpl.
  - by rewrite andb_true_r.
  - by rewrite IH, add_input_condition_eval, andb_assoc.
Qed.

Lemma item_state_symbol_inv n i y :
  item (state_symbol_names n) i = Ok y → i < n ∧ y = "Y" +:+ pretty i.
Proof.
  unfold item. destruct (state_symbol_names n !! i) as [y'|] eqn:Hi; [|done].
  intros [= <-]. unfold state_symbol_names in Hi. rewrite list_lookup_fmap in Hi.
  destruct (seq 0 n !! i) as [j|] eqn:Hj; [|done].
  apply lookup_seq in Hj as [-> Hlt]. by injection Hi as <-.
Qed.

Lemma state_symbol_inj (i j : nat) : "Y" +:+ pretty i = "Y" +:+ pretty j → i = j.
Proof. intros H. simpl in H. injection H as H. by apply pretty_nat_inj in H. Qed.

Lemma bit_set_head bit rest : bit_set (String bit rest) 0 = bool_decide (bit = "1"%char).
Proof. done. Qed.

Lemma bit_set_tail bit rest i : bit_set (String bit rest) (S i) = bit_set rest i.
Proof. done. Qed.

Section codes.
Context (n : nat).
Local Abbreviation Y := (state_symbol_names n).

Lemma assign_next_state_eval code i path_condition d d' :
  assign_next_state Y i code path_condition d = Ok d' →
  dom d' = dom d ∧
  ∀ j e, d !! ("Y" +:+ pretty j) = Some e →
    ∃ e', d' !! ("Y" +:+ pretty j) = Some e' ∧
      ∀ v, eval v e'
           = eval v e || (bool_decide (i ≤ j) && bit_set code (j - i) && eval v path_condition).
Proof.
  revert i d; induction code as [|bit code IH]; intros i d; simpl.
  - intros [= <-]. split; [done|]. intros j e He. exists e. split; [done|]. intros v.
    unfold bit_set. destruct (j - i); simpl; by rewrite andb_false_r, orb_false_r.
  - assert (∀ j, bool_decide (i ≤ j) && bit_set (String bit code) (j - i)
                 = bool_decide (j = i) && bool_decide (bit = "1"%char)
                   || bool_decide (S i ≤ j) && bit_set code (j - S i)) as Hbits.
    { intros j. destruct (decide (j = i)) as [->|Hne].
      - rewrite Nat.sub_diag, bit_set_head.
        repeat case_bool_decide; try lia; try done; simpl; by rewrite ?orb_false_r.
      - destruct (decide (i ≤ j)) as [Hle|Hle].
        + replace (j - i) with (S (j - S i)) by lia. rewrite bit_set_tail.
          repeat case_bool_decide; try lia; done.
        + repeat case_bool_decide; try lia; done. }
    destruct (decide (bit = "1"%char)) as [Hbit|Hbit].
    + destruct (item Y i) as [y|] eqn:Hy; [simpl|done].
      apply item_state_symbol_inv in Hy as [Hi ->].
      unfold equation. destruct (d !! ("Y" +:+ pretty i)) as [old|] eqn:Hold; [simpl|done].
      intros [Hdom Hrest]%IH. split.
      { rewrite Hdom. apply dom_insert_lookup_L. eauto. }
      intros j e He.
      destruct (decide (j = i)) as [->|Hne].
      * destruct (Hrest i (py_Or [old; path_condition])) as (e' & He' & Heval);
          [by rewrite lookup_insert_eq|].
        exists e'. split; [done|]. intros v.
        rewrite He in Hold. injection Hold as <-.
        rewrite Heval, Hbits, eval_py_Or. simpl.
        repeat case_bool_decide; try lia; try done; simpl.
        by destruct (eval v e), (eval v path_condition).
      * destruct (Hrest j e) as (e' & He' & Heval).
        { rewrite lookup_insert_ne; [done|]. by intros ?%state_symbol_inj. }
        exists e'. split; [done|]. intros v. rewrite Heval, Hbits.
        by rewrite (bool_decide_eq_false_2 (j = i)) by done.
    + intros [Hdom Hrest]%IH. split; [done|]. intros j e He.
      destruct (Hrest j e He) as (e' & He' & Heval).
      exists e'. split; [done|]. intros v. rewrite Heval, Hbits.
      rewrite (bool_decide_eq_false_2 (bit = "1"%char)) by done.
      by rewrite andb_false_r.
Qed.

Lemma emits_cons events node_details path name :
  emits events (node_details :: path) name
  = bool_decide (name ∈ events) &&
    match node_details with
    | Some details => bool_decide (s_type details = "event" ∧ s_data details = name)
    | None => false
    end
    || emits events path name.
Proof. unfold emits. simpl. by rewrite andb_orb_distrib_r. Qed.

Lemma assign_event_eval events path_condition path d d' :
  fold_outcome (assign_event events path_condition) d path = Ok d' →
  dom d' = dom d ∧
  ∀ name e, d !! name = Some e →
    ∃ e', d' !! name = Some e' ∧
      ∀ v, eval v e' = eval v e || (emits events path name && eval v path_condition).
Proof.
  revert d; induction path as [|node_details path IH]; intros d; simpl.
  - intros [= <-]. split; [done|]. intros name e He. exists e. split; [done|].
    intros v. unfold emits. simpl. by rewrite andb_false_r, orb_false_r.
  - destruct (assign_event events path_condition d node_details) as [d1|] eqn:Hd1;
      [|done].
    intros [Hdom Hrest]%IH. unfold assign_event in Hd1.
    destruct node_details as [details|].
    + destruct (decide (s_type details = "event" ∧ s_data details ∈ events))
        as [[Hty Hin]|Hnot].
      * unfold equation in Hd1.
        destruct (d !! s_data details) as [old|] eqn:Hold; [|done].
        simpl in Hd1. injection Hd1 as <-. split.
        { rewrite Hdom. apply dom_insert_lookup_L. eauto. }
        intros name e He. destruct (decide (s_data details = name)) as [<-|Hne].
        -- destruct (Hrest (s_data details) (py_Or [old; path_condition]))
             as (e' & He' & Heval); [by rewrite lookup_insert_eq|].
           exists e'. split; [done|]. intros v.
           rewrite Heval, emits_cons, eval_py_Or. simpl.
           rewrite He in Hold. injection Hold as <-.
           rewrite !bool_decide_eq_true_2 by done. simpl.
           destruct (eval v e), (eval v path_condition),
             (emits events path (s_data details)); done.
        -- destruct (Hrest name e) as (e' & He' & Heval);
             [by rewrite lookup_insert_ne|].
           exists e'. split; [done|]. intros v. rewrite Heval, emits_cons.
           rewrite (bool_decide_eq_false_2 (_ ∧ _)) by tauto.
           by rewrite andb_false_r.
      * injection Hd1 as <-. split; [done|]. intros name e He.
        destruct (Hrest name e He) as (e' & He' & Heval).
        exists e'. split; [done|]. intros v. rewrite Heval, emits_cons.
        destruct (decide (name ∈ events)) as [Hin|Hin].
        -- rewrite (bool_decide_eq_false_2 (_ ∧ _)); [by rewrite andb_false_r|].
           intros [Hty <-]. tauto.
        -- rewrite (bool_decide_eq_false_2 (name ∈ events)) by done. done.
    + injection Hd1 as <-. split; [done|]. intros name e He.
      destruct (Hrest name e He) as (e' & He' & Heval).
      exists e'. split; [done|]. intros v. rewrite Heval, emits_cons.
      by rewrite andb_false_r.
Qed.

(** One turn of the loop over the paths adds the condition of the path
    to the equation of every bit the end state sets and of every event
    output the path passes. *)
Lemma process_path_eval state_codes inputs events eqns eqns' path :
  process_path Y state_codes inputs events eqns path = Ok eqns' →
  (dom eqns'.1 = dom eqns.1 ∧ dom eqns'.2 = dom eqns.2) ∧
  (∀ j e, eqns.1 !! ("Y" +:+ pretty j) = Some e →
     ∃ e', eqns'.1 !! ("Y" +:+ pretty j) = Some e' ∧
       ∀ v, eval v e'
            = eval v e || (sets_bit state_codes path j &&
                            path_holds v state_codes inputs path)) ∧
  (∀ name e, eqns.2 !! name = Some e →
     ∃ e', eqns'.2 !! name = Some e' ∧
       ∀ v, eval v e'
            = eval v e || (emits events path name &&
                            path_holds v state_codes inputs path)).
Proof.
  assert (transition state_codes path = None →
          process_path Y state_codes inputs events eqns path = Ok eqns' →
          (dom eqns'.1 = dom eqns.1 ∧ dom eqns'.2 = dom eqns.2) ∧
          (∀ j e, eqns.1 !! ("Y" +:+ pretty j) = Some e →
             ∃ e', eqns'.1 !! ("Y" +:+ pretty j) = Some e' ∧
               ∀ v, eval v e'
                    = eval v e || (sets_bit state_codes path j &&
                                    path_holds v state_codes inputs path)) ∧
          (∀ name e, eqns.2 !! name = Some e →
             ∃ e', eqns'.2 !! name = Some e' ∧
               ∀ v, eval v e'
                    = eval v e || (emits events path name &&
                                    path_holds v state_codes inputs path))) as Hskip.
  { intros Hnone Hsame.
    assert (eqns' = eqns) as ->.
    { revert Hsame Hnone. unfold process_path, transition.
      destruct path as [|[start_node_details|] path']; [by intros [= <-]| |by intros [= <-]].
      destruct (s_id start_node_details ≫= _) as [start_state_code|];
        [|by intros [= <-]].
      cbn [mbind option_bind].
      destruct (state_minterm Y start_state_code) as [present|]; [|done].
      cbn [mbind outcome_bind Py.bind].
      destruct (last _) as [[end_node_details|]|]; [|by intros [= <-]..].
      destruct (decide (s_type end_node_details = "state")); [|by intros [= <-]].
      destruct (s_id end_node_details ≫= _) as [end_state_code|]; [|by intros [= <-]].
      done. }
    unfold sets_bit, path_holds. rewrite Hnone. split; [done|]. split.
    - intros j e He. exists e. split; [done|]. intros v. by rewrite orb_false_r.
    - intros name e He. exists e. split; [done|]. intros v.
      by rewrite andb_false_r, orb_false_r. }
  destruct (transition state_codes path) as [[start_state_code end_state_code]|]
    eqn:Htransition; [clear Hskip|by apply Hskip].
  unfold sets_bit, path_holds. rewrite Htransition.
  revert Htransition. unfold process_path, transition.
  destruct path as [|[start_node_details|] path']; [done| |done].
  remember (Some start_node_details :: path') as path eqn:Hpath.
  destruct (s_id start_node_details ≫= _) as [start_code|]; [|done].
  cbn [mbind option_bind].
  destruct (last path) as [[end_node_details|]|]; [|done..].
  destruct (decide (s_type end_node_details = "state")); [|done].
  destruct (s_id end_node_details ≫= _) as [end_code|]; [|done].
  intros [= -> ->].
  destruct (state_minterm Y start_state_code) as [present|] eqn:Hpresent; [|done].
  cbn [mbind outcome_bind Py.bind].
  set (path_condition := foldl _ _ _).
  assert (∀ v, eval v path_condition
               = code_holds v 0 start_state_code &&
                 forallb (step_holds v path inputs) (seq 1 (length path - 1))) as Hcond.
  { intros v. unfold path_condition. rewrite path_condition_eval.
    unfold state_minterm in Hpresent.
    by rewrite (minterm_from_eval n v _ _ _ _ Hpresent). }
  destruct (assign_next_state Y 0 end_state_code path_condition eqns.1)
    as [next_state_eqns|] eqn:Hns; [|done].
  cbn [mbind outcome_bind Py.bind].
  destruct (fold_outcome _ _ _) as [output_eqns|] eqn:Hout; [|done].
  cbn [mbind outcome_bind Py.bind]. intros [= <-]. cbn [fst snd].
  apply assign_next_state_eval in Hns as [Hdom1 Hns].
  apply assign_event_eval in Hout as [Hdom2 Hout].
  split; [done|]. split.
  - intros j old Hold. destruct (Hns j old Hold) as (e' & He' & Heval).
    exists e'. split; [done|]. intros v.
    rewrite Heval, Hcond, Nat.sub_0_r. by rewrite bool_decide_eq_true_2 by lia.
  - intros name old Hold. destruct (Hout name old Hold) as (e' & He' & Heval).
    exists e'. split; [done|]. intros v. by rewrite Heval, Hcond.
Qed.

End codes.

End equation_semantics.

Section equation_theorems.
Import Py Sympy Annotator TableMaker Tables.

(** The state bits spell the code of [state_id]. *)
Local Abbreviation in_state v state_codes state_id :=
  (match dict_get state_id state_codes with
   | Some state_code => code_holds v 0 state_code
   | None => false
   end).

Lemma assign_moore_eval n state_codes outputs_sym state_id d d' output_name :
  uniform_codes state_codes n →
  output_name ∈ outputs_sym →
  assign_moore (state_symbol_names n) state_codes outputs_sym state_id d output_name
  = Ok d' →
  dom d' = dom d ∧
  ∀ name e, d !! name = Some e →
    ∃ e', d' !! name = Some e' ∧
      ∀ v, eval v e'
           = eval v e || (bool_decide (name = output_name) &&
                           in_state v state_codes state_id).
Proof.
  intros [Hwidth Hcodes] Hname. unfold assign_moore. rewrite decide_True by done.
  destruct (dict_get state_id state_codes) as [state_code|] eqn:Hcode.
  - assert (String.length state_code = n) as Hlen by eapply Hcodes, dict_get_elem, Hcode.
    rewrite decide_False by (intros ->; simpl in Hlen; lia).
    destruct (state_minterm _ state_code) as [minterm|] eqn:Hminterm; [|done].
    cbn [mbind outcome_bind Py.bind]. unfold equation.
    destruct (d !! output_name) as [old|] eqn:Hold; [|done].
    cbn [mbind outcome_bind Py.bind]. intros [= <-]. split.
    { apply dom_insert_lookup_L. eauto. }
    intros name e He. destruct (decide (name = output_name)) as [->|Hne].
    + rewrite lookup_insert_eq. eexists. split; [done|]. intros v.
      rewrite eval_py_Or. simpl. rewrite He in Hold. injection Hold as <-.
      unfold state_minterm in Hminterm.
      rewrite (minterm_from_eval n v _ _ _ _ Hminterm). simpl.
      rewrite bool_decide_eq_true_2 by done. by rewrite orb_false_r.
    + rewrite lookup_insert_ne by done. exists e. split; [done|]. intros v.
      rewrite bool_decide_eq_false_2 by done. by rewrite orb_false_r.
  - intros [= <-]. split; [done|]. intros name e He. exists e. split; [done|].
    intros v. by rewrite andb_false_r, orb_false_r.
Qed.

Lemma assign_moore_list_eval n state_codes outputs_sym state_id output_list d d' :
  uniform_codes state_codes n →
  (∀ name, name ∈ output_list → name ∈ outputs_sym) →
  fold_outcome (assign_moore (state_symbol_names n) state_codes outputs_sym state_id)
    d output_list = Ok d' →
  dom d' = dom d ∧
  ∀ name e, d !! name = Some e →
    ∃ e', d' !! name = Some e' ∧
      ∀ v, eval v e'
           = eval v e || (bool_decide (name ∈ output_list) &&
                           in_state v state_codes state_id).
Proof.
  intros Hcodes. revert d.
  induction output_list as [|output_name output_list IH]; intros d Hnames; simpl.
  - intros [= <-]. split; [done|]. intros name e He. exists e. split; [done|].
    intros v. try rewrite bool_decide_eq_false_2 by (by intros ?%elem_of_nil).
    simpl. by rewrite ?orb_false_r.
  - destruct (assign_moore _ _ _ _ d output_name) as [d1|] eqn:Hd1; [|done].
    apply assign_moore_eval in Hd1 as [Hdom1 Hd1];
      [|done|by apply Hnames; left].
    intros [Hdom Hrest]%IH; [|by intros name ?; apply Hnames; right].
    split; [congruence|]. intros name e He.
    destruct (Hd1 name e He) as (e1 & He1 & Heval1).
    destruct (Hrest name e1 He1) as (e' & He' & Heval).
    exists e'. split; [done|]. intros v. rewrite Heval, Heval1, <-orb_assoc. f_equal.
    rewrite <-andb_orb_distrib_l. f_equal.
    rewrite <-bool_decide_or. apply bool_decide_ext. by rewrite elem_of_cons.
Qed.

Lemma assign_moore_table_eval n state_codes outputs_sym state_outputs_dict d d' :
  uniform_codes state_codes n →
  (∀ state_id output_list name,
     (state_id, output_list) ∈ state_outputs_dict → name ∈ output_list →
     name ∈ outputs_sym) →
  fold_outcome
    (λ output_eqns '(state_id, output_list),
       fold_outcome (assign_moore (state_symbol_names n) state_codes outputs_sym state_id)
         output_eqns output_list)
    d state_outputs_dict = Ok d' →
  dom d' = dom d ∧
  ∀ name e, d !! name = Some e →
    ∃ e', d' !! name = Some e' ∧
      ∀ v, eval v e' = eval v e || moore_holds v state_codes state_outputs_dict name.
Proof.
  intros Hcodes. revert d.
  induction state_outputs_dict as [|[state_id output_list] table IH];
    intros d Hnames; simpl.
  - intros [= <-]. split; [done|]. intros name e He. exists e. split; [done|].
    intros v. by rewrite orb_false_r.
  - destruct (fold_outcome _ d output_list) as [d1|] eqn:Hd1; [|done].
    apply assign_moore_list_eval in Hd1 as [Hdom1 Hd1];
      [|done|by intros name ?; eapply Hnames; [left|]].
    intros [Hdom Hrest]%IH; [|by intros sid l name ? ?; eapply Hnames; [right|]].
    split; [congruence|]. intros name e He.
    destruct (Hd1 name e He) as (e1 & He1 & Heval1).
    destruct (Hrest name e1 He1) as (e' & He' & Heval).
    exists e'. split; [done|]. intros v.
    by rewrite Heval, Heval1, <-orb_assoc.
Qed.

Lemma initial_equations_lookup (names : list string) name :
  name ∈ names →
  foldl (λ d name, <[name := BFalse]> d) (∅ : gmap string bexpr) names !! name
  = Some BFalse.
Proof.
  assert (∀ d : gmap string bexpr,
            (d !! name = Some BFalse ∨ name ∈ names) →
            (∀ key e, d !! key = Some e → e = BFalse) →
            foldl (λ d name, <[name := BFalse]> d) d names !! name = Some BFalse) as H.
  { induction names as [|a names IH]; intros d Hname Hd; simpl.
    - destruct Hname as [?|?%elem_of_nil]; done.
    - apply IH.
      + destruct (decide (a = name)) as [->|Hne]; [left; by rewrite lookup_insert_eq|].
        destruct Hname as [?|[?|?]%elem_of_cons]; [left|done|by right].
        by rewrite lookup_insert_ne.
      + intros key e. destruct (decide (a = key)) as [->|Hne].
        * rewrite lookup_insert_eq. by intros [= <-].
        * rewrite lookup_insert_ne by done. apply Hd. }
  intros Hname. apply H; [by right|]. intros key e. by rewrite lookup_empty.
Qed.

Lemma initial_equations_dom (names : list string) :
  dom (foldl (λ d name, <[name := BFalse]> d) (∅ : gmap string bexpr) names)
  =@{gset string} list_to_set names.
Proof.
  assert (∀ d : gmap string bexpr,
            dom (foldl (λ d name, <[name := BFalse]> d) d names)
            =@{gset string} dom d ∪ list_to_set names) as H.
  { induction names as [|a names IH]; intros d; simpl.
    - set_solver.
    - rewrite IH, dom_insert_L. set_solver. }
  rewrite H, dom_empty_L. set_solver.
Qed.

(** What [generate_boolean_equations] returns on a call the pipeline can
    make: the keys of the two maps and the truth value of every
    equation. *)
Lemma generate_boolean_equations_eval
    (all_paths_formatted_details : list (list (option step)))
    (state_codes : list (Z * string)) (width : nat)
    (input_vars_list event_outputs_list : list string)
    (state_outputs_dict : list (Z * list string)) :
  all_paths_formatted_details ≠ [] →
  state_codes ≠ [] →
  uniform_codes state_codes width →
  ∃ eqns,
    generate_boolean_equations all_paths_formatted_details state_codes
      input_vars_list event_outputs_list state_outputs_dict = Ok eqns ∧
    (dom eqns.1 =@{gset string} list_to_set (state_symbol_names width) ∧
     dom eqns.2
     =@{gset string} list_to_set (all_output_names event_outputs_list state_outputs_dict)) ∧
    (∀ i, i < width →
       ∃ e, eqns.1 !! ("Y" +:+ pretty i) = Some e ∧
         ∀ v, eval v e
              = existsb (λ path, sets_bit state_codes path i &&
                                 path_holds v state_codes input_vars_list path)
                  all_paths_formatted_details) ∧
    (∀ name, name ∈ all_output_names event_outputs_list state_outputs_dict →
       ∃ e, eqns.2 !! name = Some e ∧
         ∀ v, eval v e
              = existsb (λ path, emits event_outputs_list path name &&
                                 path_holds v state_codes input_vars_list path)
                  all_paths_formatted_details
                || moore_holds v state_codes state_outputs_dict name).
Proof.
  intros Hpaths Hnonempty Hcodes. unfold generate_boolean_equations.
  destruct all_paths_formatted_details as [|path0 paths0]; [done|].
  remember (path0 :: paths0) as paths eqn:Hpaths0. clear Hpaths.
  destruct state_codes as [|[first_id first_code] codes]; [done|].
  remember ((first_id, first_code) :: codes) as state_codes eqn:Hstate_codes.
  assert (String.length first_code = width) as Hfirst.
  { apply (proj2 Hcodes first_id). rewrite Hstate_codes. by left. }
  rewrite Hpaths0, Hstate_codes. cbn [generate_boolean_equations].
  rewrite <-Hpaths0, <-Hstate_codes.
  rewrite Hfirst. rewrite decide_False by (destruct Hcodes; lia).
  set (outputs_sym := all_output_names event_outputs_list state_outputs_dict).
  set (Y := state_symbol_names width).
  set (init := (foldl (λ d y, <[y := BFalse]> d) ∅ Y,
                foldl (λ d out_name, <[out_name := BFalse]> d) ∅ outputs_sym)
               : equations).
  destruct (fold_outcome_total
              (λ eqns : equations, bound Y eqns.1 ∧ bound outputs_sym eqns.2)
              paths
              (process_path Y state_codes input_vars_list event_outputs_list) init)
    as (eqns & Heqns & Hns & Hout).
  { split; apply initial_equations_bound. }
  { intros eqns p _ [Hns Hout].
    apply (process_path_returns width state_codes input_vars_list event_outputs_list
             outputs_sym eqns p); [done| |done|done].
    intros name Hname. apply elem_of_app. by left. }
  rewrite Heqns. cbn [mbind outcome_bind Py.bind].
  destruct (assign_moore_table width state_codes outputs_sym state_outputs_dict eqns.2)
    as (d' & Hd' & _ & _); [done|by apply moore_output_name|done|].
  fold Y in Hd'. rewrite Hd'. cbn [mbind outcome_bind Py.bind].
  eexists. split; [reflexivity|]. cbn [fst snd].
  apply assign_moore_table_eval in Hd' as [Hdom' Hmoore];
    [|done|by apply moore_output_name].
  apply (fold_outcome_prefix
           (λ pre (eqns : equations),
              (dom eqns.1 = dom init.1 ∧ dom eqns.2 = dom init.2) ∧
              (∀ i, i < width →
                 ∃ e, eqns.1 !! ("Y" +:+ pretty i) = Some e ∧
                   ∀ v, eval v e
                        = existsb (λ path, sets_bit state_codes path i &&
                                           path_holds v state_codes input_vars_list path)
                            pre) ∧
              (∀ name, name ∈ outputs_sym →
                 ∃ e, eqns.2 !! name = Some e ∧
                   ∀ v, eval v e
                        = existsb (λ path, emits event_outputs_list path name &&
                                           path_holds v state_codes input_vars_list path)
                            pre))) in Heqns.
  - destruct Heqns as ((Hdom1 & Hdom2) & Hnext & Hevents). split; [|split].
    + split; [by rewrite Hdom1; apply initial_equations_dom|].
      rewrite Hdom', Hdom2. apply initial_equations_dom.
    + done.
    + intros name Hname. destruct (Hevents name Hname) as (e & He & Heval).
      destruct (Hmoore name e He) as (e' & He' & Heval').
      exists e'. split; [done|]. intros v. by rewrite Heval', Heval.
  - split; [done|]. split.
    + intros i Hi. exists BFalse. split; [|done]. apply initial_equations_lookup.
      apply state_symbol_elem. eauto.
    + intros name Hname. exists BFalse. split; [|done].
      by apply initial_equations_lookup.
  - intros pre path s s' ((Hdom1 & Hdom2) & Hnext & Hevents) Hstep.
    apply process_path_eval in Hstep as ((Hd1 & Hd2) & Hn & He).
    split; [split; congruence|]. split.
    + intros i Hi. destruct (Hnext i Hi) as (e & Hlookup & Heval).
      destruct (Hn i e Hlookup) as (e' & Hlookup' & Heval').
      exists e'. split; [done|]. intros v.
      rewrite Heval', Heval, existsb_app. simpl. by rewrite orb_false_r.
    + intros name Hname. destruct (Hevents name Hname) as (e & Hlookup & Heval).
      destruct (He name e Hlookup) as (e' & Hlookup' & Heval').
      exists e'. split; [done|]. intros v.
      rewrite Heval', Heval, existsb_app. simpl. by rewrite orb_false_r.
Qed.

(** X13.  The next-state equations.  On a call with at least one path and
    with codes of one non-zero width, the equation of bit [i] holds under
    a valuation exactly when the valuation lets the machine take a path
    that ends in a state whose code has ['1'] at index [i]. *)
Theorem generate_boolean_equations_next_state
    (all_paths_formatted_details : list (list (option step)))
    (state_codes : list (Z * string)) (width : nat)
    (input_vars_list event_outputs_list : list string)
    (state_outputs_dict : list (Z * list string)) :
  all_paths_formatted_details ≠ [] →
  state_codes ≠ [] →
  uniform_codes state_codes width →
  plain_names input_vars_list event_outputs_list state_outputs_dict →
  ∃ eqns,
    generate_boolean_equations all_paths_formatted_details state_codes
      input_vars_list event_outputs_list state_outputs_dict = Ok eqns ∧
    ∀ i, i < width →
      ∃ e, eqns.1 !! ("Y" +:+ pretty i) = Some e ∧
        ∀ v, eval v e = true ↔
             ∃ path, path ∈ all_paths_formatted_details ∧
                     sets_bit state_codes path i = true ∧
                     path_holds v state_codes input_vars_list path = true.
Proof.
  intros Hpaths Hnonempty Hcodes _.
  destruct (generate_boolean_equations_eval all_paths_formatted_details state_codes
              width input_vars_list event_outputs_list state_outputs_dict)
    as (eqns & Heqns & _ & Hnext & _); [done..|].
  exists eqns. split; [done|]. intros i Hi.
  destruct (Hnext i Hi) as (e & He & Heval). exists e. split; [done|].
  intros v. rewrite Heval, existsb_exists. split.
  - intros (path & Hin%list_elem_of_In & [? ?]%andb_true_iff). eauto.
  - intros (path & Hin%list_elem_of_In & Hbit & Hholds). exists path.
    by rewrite Hbit, Hholds.
Qed.

(** X14.  The output equations.  The equation of an output name holds under
    a valuation exactly when the valuation lets the machine take a path
    that passes an event node with that name, or the state bits spell the
    code of a state that lists the name among its Moore outputs. *)
Theorem generate_boolean_equations_outputs
    (all_paths_formatted_details : list (list (option step)))
    (state_codes : list (Z * string)) (width : nat)
    (input_vars_list event_outputs_list : list string)
    (state_outputs_dict : list (Z * list string)) :
  all_paths_formatted_details ≠ [] →
  state_codes ≠ [] →
  uniform_codes state_codes width →
  plain_names input_vars_list event_outputs_list state_outputs_dict →
  ∃ eqns,
    generate_boolean_equations all_paths_formatted_details state_codes
      input_vars_list event_outputs_list state_outputs_dict = Ok eqns ∧
    ∀ name, name ∈ all_output_names event_outputs_list state_outputs_dict →
      ∃ e, eqns.2 !! name = Some e ∧
        ∀ v, eval v e = true ↔
             (∃ path, path ∈ all_paths_formatted_details ∧
                      emits event_outputs_list path name = true ∧
                      path_holds v state_codes input_vars_list path = true) ∨
             moore_holds v state_codes state_outputs_dict name = true.
Proof.
  intros Hpaths Hnonempty Hcodes _.
  destruct (generate_boolean_equations_eval all_paths_formatted_details state_codes
              width input_vars_list event_outputs_list state_outputs_dict)
    as (eqns & Heqns & _ & _ & Hout); [done..|].
  exists eqns. split; [done|]. intros name Hname.
  destruct (Hout name Hname) as (e & He & Heval). exists e. split; [done|].
  intros v. rewrite Heval, orb_true_iff, existsb_exists. split.
  - intros [(path & Hin%list_elem_of_In & [? ?]%andb_true_iff)|?]; [left|by right].
    eauto.
  - intros [(path & Hin%list_elem_of_In & Hemits & Hholds)|?]; [left|by right].
    exists path. by rewrite Hemits, Hholds.
Qed.

(** X15.  The keys.  [next_state_eqns] has one equation per state bit and
    [output_eqns] one per output name, whatever the paths are. *)
Theorem generate_boolean_equations_keys
    (all_paths_formatted_details : list (list (option step)))
    (state_codes : list (Z * string)) (width : nat)
    (input_vars_list event_outputs_list : list string)
    (state_outputs_dict : list (Z * list string)) :
  all_paths_formatted_details ≠ [] →
  state_codes ≠ [] →
  uniform_codes state_codes width →
  plain_names input_vars_list event_outputs_list state_outputs_dict →
  ∃ eqns,
    generate_boolean_equations all_paths_formatted_details state_codes
      input_vars_list event_outputs_list state_outputs_dict = Ok eqns ∧
    (∀ key, is_Some (eqns.1 !! key) ↔ ∃ i, i < width ∧ key = "Y" +:+ pretty i) ∧
    (∀ key, is_Some (eqns.2 !! key) ↔
            key ∈ event_outputs_list ∨
            ∃ state_id output_list,
              (state_id, output_list) ∈ state_outputs_dict ∧ key ∈ output_list).
Proof.
  intros Hpaths Hnonempty Hcodes _.
  destruct (generate_boolean_equations_eval all_paths_formatted_details state_codes
              width input_vars_list event_outputs_list state_outputs_dict)
    as (eqns & Heqns & [Hdom1 Hdom2] & _ & _); [done..|].
  exists eqns. split; [done|]. split.
  - intros key. rewrite <-elem_of_dom, Hdom1, elem_of_list_to_set.
    apply state_symbol_elem.
  - intros key. rewrite <-elem_of_dom, Hdom2, elem_of_list_to_set.
    unfold all_output_names. rewrite elem_of_app, list_elem_of_join.
    split; (intros [?|Hmoore]; [by left|right]).
    + destruct Hmoore as (l & Hkey & ([sid l'] & -> & Hin)%list_elem_of_fmap). eauto.
    + destruct Hmoore as (sid & l & Hin & Hkey). exists l. split; [done|].
      apply list_elem_of_fmap. by exists (sid, l).
Qed.

End equation_theorems.

(** ** Binary padding *)

Section padded_binary_facts.
Import Py Tables PaddedBinary.

Lemma min_width_fits (number width : Z) :
  (0 < number)%Z → (Z.log2_up (number + 1) ≤ width ↔ number < 2 ^ width)%Z.
Proof.
  intros Hpos. rewrite <-Z.log2_up_le_pow2 by lia. lia.
Qed.

Lemma to_nat_fits (number width : Z) :
  (0 ≤ number)%Z → (0 ≤ width)%Z → (number < 2 ^ width)%Z →
  Z.to_nat number < 2 ^ Z.to_nat width.
Proof.
  intros Hn Hw Hfits. apply Nat2Z.inj_lt.
  rewrite Nat2Z.inj_pow, !Z2Nat.id by lia. done.
Qed.

(** X16.  A number that fits comes back as [width] binary digits that
    spell it. *)
Theorem padded_binary_round_trip (number width : Z) :
  (0 ≤ number < 2 ^ 32)%Z → (1 ≤ width)%Z → (number < 2 ^ width)%Z →
  ∃ s, padded_binary number width = Ok s ∧
       String.length s = Z.to_nat width ∧
       int_of_binary s = Z.to_nat number.
Proof.
  intros [Hn _] Hw Hfits. unfold padded_binary.
  rewrite decide_False by lia.
  rewrite decide_False.
  2:{ case_decide; [|lia]. apply Z.le_ngt. by apply min_width_fits. }
  eexists. split; [reflexivity|].
  change (zfill (binary (Z.to_nat number)) width)
    with (format_binary (Z.to_nat number) (Z.to_nat width)).
  split; [|apply int_of_binary_format].
  apply format_binary_length; [lia|]. apply to_nat_fits; lia.
Qed.


End padded_binary_facts.

(** ** Equation simplification *)

Section reducer_facts.
Import Py Sympy Main.

(** X18.  [simplify_equations] keeps the keys, and with a reducer that
    returns an equivalent expression whenever it returns, every equation
    keeps its truth value under every valuation, an equation the reducer
    raises on included. *)
Theorem simplify_equations_sound (simplify_logic : bexpr → outcome bexpr)
    (equations_dict : gmap string bexpr) :
  (∀ e e', simplify_logic e = Ok e' → ∀ v, eval v e' = eval v e) →
  dom (simplify_equations simplify_logic equations_dict) = dom equations_dict ∧
  ∀ key e, equations_dict !! key = Some e →
    ∃ e', simplify_equations simplify_logic equations_dict !! key = Some e' ∧
          ∀ v, eval v e' = eval v e.
Proof.
  intros Hsound. unfold simplify_equations. split; [apply dom_fmap_L|].
  intros key e He. rewrite lookup_fmap, He. simpl. eexists. split; [done|].
  intros v. destruct (simplify_logic e) as [e'|exc] eqn:Hs; [|done].
  by apply Hsound.
Qed.

End reducer_facts.

(** ** VHDL generator: symbols, ports and errors *)

Section vhdl_generator_returns.
Import Py Sympy VhdlGenerator Rendering.

Lemma state_symbols_find n i :
  i < n →
  list_find (λ s, eqb (Symbol ("Y" +:+ pretty i)) s = true) (state_symbols n)
  = Some (i, Symbol ("Y" +:+ pretty i)).
Proof.
  intros Hi. apply list_find_Some. split; [|split].
  - unfold state_symbols, state_symbol_names.
    rewrite !list_lookup_fmap, lookup_seq_lt by done. done.
  - simpl. by rewrite bool_decide_eq_true_2.
  - intros j y Hj Hlt. unfold state_symbols, state_symbol_names in Hj.
    rewrite !list_lookup_fmap in Hj.
    destruct (seq 0 n !! j) as [k|] eqn:Hk; [|done].
    apply lookup_seq in Hk as [-> _]. injection Hj as <-.
    cbn [eqb]. rewrite bool_decide_eq_false_2; [done|].
    intros ?%state_symbol_inj. lia.
Qed.

Lemma state_symbols_existsb n name :
  existsb (eqb (Symbol name)) (state_symbols n) = true ↔ name ∈ state_symbol_names n.
Proof.
  rewrite existsb_exists. unfold state_symbols. split.
  - intros (s & Hin%list_elem_of_In & Heq). apply list_elem_of_fmap in Hin as (y & -> & Hy).
    cbn [eqb] in Heq. by apply bool_decide_eq_true in Heq as ->.
  - intros Hname. exists (Symbol name). split.
    + apply list_elem_of_In, list_elem_of_fmap. eauto.
    + cbn [eqb]. by rewrite bool_decide_eq_true_2.
Qed.

(** X19.  A state bit [Yi] is written as bit [i] of the state signal, any
    other symbol as its name. *)
Theorem sympy_expr_to_vhdl_symbol (n : nat) (state_signal_name : string) :
  (∀ i, i < n →
     sympy_expr_to_vhdl (Symbol ("Y" +:+ pretty i)) (state_symbols n) state_signal_name
     = Ok (state_signal_name +:+ "(" +:+ pretty i +:+ ")")) ∧
  (∀ name, name ∉ state_symbol_names n →
     sympy_expr_to_vhdl (Symbol name) (state_symbols n) state_signal_name = Ok name).
Proof.
  split.
  - intros i Hi. cbn [sympy_expr_to_vhdl].
    rewrite (proj2 (state_symbols_existsb n _)) by (apply state_symbol_elem; eauto).
    unfold _get_state_bit_vhdl, index. by rewrite state_symbols_find.
  - intros name Hname. cbn [sympy_expr_to_vhdl].
    destruct (existsb _ _) eqn:Hex; [|done].
    by apply state_symbols_existsb in Hex.
Qed.

Lemma sympy_expr_to_vhdl_returns expr state_vars state_signal_name :
  returns (sympy_expr_to_vhdl expr state_vars state_signal_name).
Proof.
  induction expr as [| |name|arg [s Hs]|args IH|args IH|type_name]
    using bexpr_induction; simpl.
  - by eexists.
  - by eexists.
  - destruct (existsb _ state_vars); [|by eexists].
    apply _get_state_bit_vhdl_returns.
  - rewrite Hs. by eexists.
  - destruct (mapM_returns
      (λ arg, s ← sympy_expr_to_vhdl arg state_vars state_signal_name;
              Ok ("(" +:+ s +:+ ")")) args) as [args_vhdl ->]; [|by eexists].
    eapply Forall_impl; [exact IH|]. intros arg [s Hs]. simpl. rewrite Hs. by eexists.
  - destruct (mapM_returns
      (λ arg, s ← sympy_expr_to_vhdl arg state_vars state_signal_name;
              Ok ("(" +:+ s +:+ ")")) args) as [args_vhdl ->]; [|by eexists].
    eapply Forall_impl; [exact IH|]. intros arg [s Hs]. simpl. rewrite Hs. by eexists.
  - by eexists.
Qed.

Lemma next_state_logic_returns num_bits Y eqns vhdl_code :
  returns (next_state_logic num_bits Y eqns vhdl_code).
Proof.
  unfold next_state_logic. case_decide; [|by eexists].
  destruct (fold_outcome_total (λ _, True) (seq 0 num_bits)
    (λ code i,
       next_state_var ← item (state_symbol_names num_bits) i;
       match eqns !! next_state_var with
       | Some eqn =>
           eqn_str ← sympy_expr_to_vhdl eqn Y "current_state";
           Ok (code +:+ "        next_state(" +:+ pretty i +:+ ") <= " +:+
               eqn_str +:+ ";" +:+ nl)
       | None =>
           Ok (code +:+ "        next_state(" +:+ pretty i +:+
               ") <= '0'; -- Default/missing equation for Y_next" +:+
               pretty i +:+ nl)
       end) vhdl_code) as (code & Hcode & _); [done| |by exists code].
  intros code i [_ Hi]%elem_of_seq _.
  rewrite item_state_symbol by lia. cbn [mbind outcome_bind Py.bind].
  destruct (eqns !! _) as [eqn|]; [|by eexists].
  destruct (sympy_expr_to_vhdl_returns eqn Y "current_state") as [s ->]. by eexists.
Qed.

Lemma output_logic_returns outputs_list outputs_sym_map Y eqns vhdl_code :
  returns (output_logic outputs_list outputs_sym_map Y eqns vhdl_code).
Proof.
  unfold output_logic. destruct outputs_list as [|name names]; [by eexists|].
  destruct (fold_outcome_total (λ _, True) (name :: names)
    (λ code output_name,
       match (if decide (output_name ∈ outputs_sym_map)
              then eqns !! output_name else None) with
       | Some eqn =>
           eqn_str ← sympy_expr_to_vhdl eqn Y "current_state";
           Ok (code +:+ "        " +:+ output_name +:+ " <= " +:+ eqn_str +:+ ";" +:+ nl)
       | None =>
           Ok (code +:+ "        " +:+ output_name +:+
               " <= '0'; -- Default/missing equation for " +:+ output_name +:+ nl)
       end) vhdl_code) as (code & Hcode & _); [done| |by exists code].
  intros code output_name _ _.
  destruct (if decide _ then _ else _) as [eqn|]; [|by eexists].
  destruct (sympy_expr_to_vhdl_returns eqn Y "current_state") as [s ->]. by eexists.
Qed.

Lemma generate_vhdl_cases entity_name inputs_list outputs_list state_codes
    next_state_eqns output_eqns :
  (reaches_template state_codes next_state_eqns output_eqns ∧
   length (remove_dups outputs_list) = 1 ∧
   generate_vhdl entity_name inputs_list outputs_list state_codes
     next_state_eqns output_eqns = Raise "TypeError") ∨
  (¬ (reaches_template state_codes next_state_eqns output_eqns ∧
      length (remove_dups outputs_list) = 1) ∧
   returns (generate_vhdl entity_name inputs_list outputs_list state_codes
              next_state_eqns output_eqns)).
Proof.
  unfold generate_vhdl, reaches_template.
  destruct state_codes as [|[first_id first_code] rest].
  { right. split; [|by eexists]. by intros [[_ (? & ? & ? & ? & _)] _]. }
  case_decide as Heqns.
  { right. split; [|by eexists]. by intros [[? _] _]. }
  case_decide as Hbits.
  { right. split; [|by eexists]. intros [[_ (? & c & ? & [= _ <- _] & Hc)] _].
    by destruct first_code. }
  assert (first_code ≠ "") as Hcode by (by intros ->).
  cbv zeta.
  destruct (remove_dups outputs_list) as [|name [|name' names]] eqn:Houtputs.
  - right. split; [by intros [_ [=]]|].
    cbn [mbind outcome_bind Py.bind].
    match goal with |- context [next_state_logic ?n ?Y ?e ?code] =>
      destruct (next_state_logic_returns n Y e code) as [code1 ->] end.
    cbn [mbind outcome_bind Py.bind].
    match goal with |- context [output_logic ?l ?m ?Y ?e ?code] =>
      destruct (output_logic_returns l m Y e code) as [code2 ->] end.
    by eexists.
  - left. split; [|done]. split; [done|]. eauto.
  - right. split; [by intros [_ [=]]|].
    cbn [symbols mbind outcome_bind Py.bind].
    match goal with |- context [next_state_logic ?n ?Y ?e ?code] =>
      destruct (next_state_logic_returns n Y e code) as [code1 ->] end.
    cbn [mbind outcome_bind Py.bind].
    match goal with |- context [output_logic ?l ?m ?Y ?e ?code] =>
      destruct (output_logic_returns l m Y e code) as [code2 ->] end.
    by eexists.
Qed.

End vhdl_generator_returns.

Section vhdl_generator_theorems.
Import Py Sympy VhdlGenerator Rendering.


Lemma string_app_assoc (a b c : string) : (a +:+ b) +:+ c = a +:+ b +:+ c.
Proof.
  induction a as [|x a IH]; [done|].
  change (String x ((a +:+ b) +:+ c) = String x (a +:+ b +:+ c)). by rewrite IH.
Qed.

Lemma string_app_nonempty (a b : string) : b ≠ "" → a +:+ b ≠ "".
Proof. by destruct a. Qed.

Lemma rstrip_app (a b : string) : rstrip b ≠ "" → rstrip (a +:+ b) = a +:+ rstrip b.
Proof.
  intros Hb. induction a as [|c a IH]; [done|].
  change (String c a +:+ b) with (String c (a +:+ b)).
  change (String c a +:+ rstrip b) with (String c (a +:+ rstrip b)).
  cbn [rstrip]. rewrite IH.
  rewrite bool_decide_eq_false_2 by (by apply string_app_nonempty). done.
Qed.

Lemma removesuffix_semicolon_app (a b : string) :
  b ≠ "" → removesuffix_semicolon (a +:+ b) = a +:+ removesuffix_semicolon b.
Proof.
  intros Hb. induction a as [|c a IH]; [done|].
  change (String c a +:+ b) with (String c (a +:+ b)).
  change (String c a +:+ removesuffix_semicolon b)
    with (String c (a +:+ removesuffix_semicolon b)).
  cbn [removesuffix_semicolon]. rewrite IH.
  rewrite bool_decide_eq_false_2 by (by apply string_app_nonempty). done.
Qed.

Lemma inputs_loop_last (code : string) (l : list string) (x : string) :
  ∃ code', foldl (λ code input_name,
                    code +:+ "        " +:+ ljust input_name 8 +:+
                    ": in  std_logic;" +:+ nl) code (l ++ [x])
           = code' +:+ ": in  std_logic;" +:+ nl.
Proof.
  rewrite foldl_app. cbn [foldl]. eexists.
  rewrite <-(string_app_assoc _ "        "), <-(string_app_assoc _ (ljust x 8)).
  reflexivity.
Qed.

Lemma outputs_loop_last (code : string) (n : nat) (l : list string) (x : string) :
  n = length (l ++ [x]) →
  ∃ code', foldl (λ code '(i, output_name),
                    code +:+ "        " +:+ ljust output_name 8 +:+ ": out std_logic" +:+
                    (if decide (i < n - 1) then ";" +:+ nl else nl))
                 code (imap (λ i output_name, (i, output_name)) (l ++ [x]))
           = code' +:+ "std_logic" +:+ nl.
Proof.
  intros ->. rewrite imap_app, foldl_app. cbn [imap foldl].
  rewrite decide_False by (rewrite length_app; simpl; lia).
  eexists.
  rewrite <-(string_app_assoc _ "        "), <-(string_app_assoc _ (ljust x 8)).
  change (": out std_logic" +:+ nl) with (": out " +:+ "std_logic" +:+ nl).
  rewrite <-(string_app_assoc _ ": out "). reflexivity.
Qed.

Lemma list_snoc_inv {A} (l : list A) : l ≠ [] → ∃ l' x, l = l' ++ [x].
Proof.
  intros Hl. destruct l as [|a l] using rev_ind; [done|]. eauto.
Qed.

(** X21.  The last port.  With at least one input or output, the port list
    ends in a port declaration that no semicolon follows. *)
Theorem port_list_last_port (entity_name : string) (inputs_list outputs_list : list string) :
  inputs_list ≠ [] ∨ outputs_list ≠ [] →
  ∃ vhdl_code,
    port_list entity_name inputs_list outputs_list = vhdl_code +:+ "std_logic" +:+ nl.
Proof.
  intros Hports. unfold port_list.
  destruct outputs_list as [|o outputs'].
  - destruct Hports as [Hin|?]; [|done].
    destruct inputs_list as [|i inputs']; [done|].
    destruct (list_snoc_inv (i :: inputs')) as (l & x & ->); [done|].
    match goal with |- context [foldl ?f ?code (l ++ [x])] =>
      destruct (inputs_loop_last code l x) as [code' ->] end.
    exists (code' +:+ ": in  ").
    rewrite rstrip_app by (by vm_compute).
    rewrite removesuffix_semicolon_app by (by vm_compute).
    change (removesuffix_semicolon (rstrip (": in  std_logic;" +:+ nl)))
      with (": in  " +:+ "std_logic").
    by rewrite !string_app_assoc.
  - destruct (list_snoc_inv (o :: outputs')) as (l & x & Hl); [done|].
    cbv beta iota zeta. rewrite Hl.
    match goal with |- context [foldl _ ?code (imap _ (l ++ [x]))] =>
      destruct (outputs_loop_last code (length (l ++ [x])) l x) as [code' Hcode'];
        [done|]
    end.
    exists code'. exact Hcode'.
Qed.

End vhdl_generator_theorems.

(** ** Graph normalizer: documents it accepts *)

Section parser_returns.
Import Py Parser.
Context (repr : json → string).

Lemma parse_node_count acc key node_obj acc' :
  parse_node repr acc (key, node_obj) = Ok acc' →
  length (filtered_nodes acc') + length (warnings acc')
  = S (length (filtered_nodes acc) + length (warnings acc)).
Proof.
  unfold parse_node.
  destruct node_obj as [| | | | | |fields];
    try (intros [= <-]; cbn [filtered_nodes warnings]; rewrite length_app; simpl; lia).
  destruct (forallb _ required_keys);
    [|intros [= <-]; cbn [filtered_nodes warnings]; rewrite length_app; simpl; lia].
  cbn [get mbind outcome_bind Py.bind].
  case_decide as Hid;
    [intros [= <-]; cbn [filtered_nodes warnings]; rewrite length_app; simpl; lia|].
  destruct (get _ "data" (JStr "")) as [content|]; [|done].
  cbn [mbind outcome_bind Py.bind].
  intros [= <-]; cbn [filtered_nodes warnings]; rewrite length_app; simpl; lia.
Qed.

Lemma parse_node_returns acc key node_obj :
  (∀ fields data, node_obj = JDict fields → dict_get "data" fields = Some data →
     ∃ content, data = JDict content) →
  returns (parse_node repr acc (key, node_obj)).
Proof.
  intros Hdata. unfold parse_node.
  destruct node_obj as [| | | | | |fields]; try by eexists.
  destruct (forallb _ required_keys) eqn:Hkeys; [|by eexists].
  cbn [get mbind outcome_bind Py.bind].
  case_decide as Hid; [by eexists|].
  assert (is_Some (dict_get "data" fields)) as [data Hfield].
  { unfold required_keys in Hkeys. cbn [forallb] in Hkeys.
    repeat (apply andb_true_iff in Hkeys as [? Hkeys]).
    match goal with
    | H : bool_decide (is_Some (dict_get "data" _)) = true |- _ =>
        by apply bool_decide_eq_true in H
    end. }
  rewrite Hfield. destruct (Hdata fields data eq_refl Hfield) as [content ->].
  cbn [get mbind outcome_bind Py.bind]. by eexists.
Qed.

(** X22.  Documents the parser accepts.  When the node collection is an
    object and the [data] entry of every node object is an object,
    [parse_drawflow_data] returns; every entry of the collection is
    either kept or reported, and the kept nodes come in the order of the
    document, under the keys of their entries. *)
Theorem parse_drawflow_data_returns (drawflow_data drawflow home : json)
    (items : list (string * json)) :
  get drawflow_data "drawflow" (JDict []) = Ok drawflow →
  get drawflow "Home" (JDict []) = Ok home →
  get home "data" (JDict []) = Ok (JDict items) →
  (∀ key fields data, (key, JDict fields) ∈ items →
     dict_get "data" fields = Some data → ∃ content, data = JDict content) →
  ∃ r, parse_drawflow_data repr drawflow_data = Ok r ∧
       length (filtered_nodes r) + length (warnings r) = length items ∧
       parsed_keys repr r `sublist_of` items.*1.
Proof.
  intros Hdrawflow Hhome Hdata Hnodes. unfold parse_drawflow_data.
  rewrite Hdrawflow. cbn [mbind outcome_bind Py.bind].
  rewrite Hhome. cbn [mbind outcome_bind Py.bind].
  rewrite Hdata. cbn [mbind outcome_bind Py.bind].
  destruct (fold_outcome_total (λ _, True) items (parse_node repr) (Parsed [] []))
    as (r & Hr & _); [done| |].
  { intros acc [key node_obj] Hin _.
    destruct (parse_node_returns acc key node_obj) as [acc' ->]; [|by eauto].
    intros fields data ->. by apply (Hnodes key). }
  exists r. split; [done|].
  apply (fold_outcome_prefix
           (λ pre acc,
              length (filtered_nodes acc) + length (warnings acc) = length pre ∧
              parsed_keys repr acc `sublist_of` pre.*1)) in Hr; [done|done|].
  intros pre [key node_obj] acc acc' [Hcount Hkeys] Hstep.
  rewrite length_app, fmap_app. cbn [length fmap list_fmap fst]. split.
  - apply parse_node_count in Hstep. lia.
  - apply parse_node_keys in Hstep as [-> | ->].
    + by apply sublist_inserts_r.
    + by apply sublist_app.
Qed.

End parser_returns.

(** ** The request handler: when the pipeline returns *)

Section pipeline_outcomes.
Import Py Sympy PathFinder Annotator TableMaker VhdlGenerator Rendering Main.
Context (simplify_logic : bexpr → outcome bexpr).


(** Only a chart with a state node that has an id has link paths. *)
Lemma find_link_paths_seed nodes paths :
  find_link_paths nodes = Some paths → paths ≠ [] →
  ∃ n i, n ∈ nodes ∧ type n = "state" ∧ id n = Some i.
Proof.
  unfold find_link_paths.
  destruct (find_link_paths_within _ nodes) as [r|] eqn:Hr; [|done].
  intros [= <-] Hpaths.
  destruct ((build_index nodes).2) as [|seed seeds] eqn:Hseeds.
  { apply find_link_paths_within_cases in Hr as [[-> _]|Hr]; [done|].
    rewrite Hseeds in Hr. simpl in Hr. by injection Hr as <-. }
  assert (state_id nodes seed) as (n & [Hn Hkey] & Hstate).
  { apply build_index_seeds_spec. rewrite Hseeds. by left. }
  unfold node_key in Hkey. destruct (id n) as [i|] eqn:Hid; [|done]. eauto.
Qed.


(** X23.  A chart without a link path.  When no state of a non-empty chart
    leads to a state, the pipeline returns the error comment of the VHDL
    generator instead of a design. *)
Theorem save_drawflow_data_no_paths (filtered : list node) :
  filtered ≠ [] →
  find_link_paths filtered = Some [] →
  save_drawflow_data simplify_logic filtered
  = Ok "-- VHDL Generation Error: Missing state codes or equations.".
Proof.
  intros Hnodes Hpaths. unfold save_drawflow_data. rewrite Hpaths.
  cbn [mbind outcome_bind Py.bind].
  destruct filtered as [|n nodes]; [done|].
  cbn [prepare_table_elements get_formatted_details_for_all_paths
       generate_boolean_equations mbind outcome_bind Py.bind fst snd].
  unfold simplify_equations. rewrite !fmap_empty. unfold generate_vhdl.
  destruct (assign_state_codes _) as [|[first_id first_code] state_codes]; [done|].
  by rewrite decide_True.
Qed.


(** X25.  A single output name.  On a chart with at least one link path and
    exactly one distinct output name, an identifier, the pipeline raises
    [TypeError] and no VHDL is written. *)
Theorem save_drawflow_data_single_output (filtered : list node) link_path
    states_list inputs_list event_outputs state_outputs output_name :
  find_link_paths filtered = Some link_path →
  link_path ≠ [] →
  prepare_table_elements filtered
  = Table4 states_list inputs_list event_outputs state_outputs →
  plain_names inputs_list event_outputs state_outputs →
  remove_dups (mjoin (snd <$> state_outputs) ++ event_outputs) = [output_name] →
  save_drawflow_data simplify_logic filtered = Raise "TypeError".
Proof.
  intros Hpaths Hnonempty Htable _ Houtputs. unfold save_drawflow_data.
  rewrite Hpaths. cbn [mbind outcome_bind Py.bind]. rewrite Htable.
  destruct (find_link_paths_seed filtered link_path Hpaths Hnonempty)
    as (n & i & Hn & Hstate & Hid).
  assert (i ∈ states_list) as Hi.
  { rewrite prepare_table_elements_unfold in Htable
      by (intros ->; by apply elem_of_nil in Hn).
    injection Htable as <- _ _ _.
    rewrite (proj2 (sorted_Z _)), collect_states. cbn [states app].
    apply list_elem_of_omap. exists n. split; [done|]. by rewrite decide_True. }
  pose proof (assign_state_codes_width states_list) as Hcodes.
  assert (assign_state_codes states_list ≠ []) as Hsome.
  { intros Hempty. apply assign_state_codes_keys in Hi as [code Hcode].
    by rewrite Hempty in Hcode. }
  assert (get_formatted_details_for_all_paths link_path filtered ≠ []) as Hannotated.
  { unfold get_formatted_details_for_all_paths.
    destruct link_path as [|p ps]; [done|].
    destruct filtered as [|n' nodes]; [by apply elem_of_nil in Hn|].
    rewrite decide_False; [done|].
    intros Hempty. destruct (index_nodes_bound (n' :: nodes) n i Hn Hid) as [x Hx].
    by rewrite Hempty, lookup_empty in Hx. }
  destruct (generate_boolean_equations_eval
              (get_formatted_details_for_all_paths link_path filtered)
              (assign_state_codes states_list) (bits_for (length states_list))
              inputs_list event_outputs state_outputs)
    as (equation & -> & [Hdom _] & _); [done..|].
  cbn [mbind outcome_bind Py.bind].
  match goal with |- generate_vhdl ?e ?i ?o ?c ?n ?d = _ =>
    destruct (generate_vhdl_cases e i o c n d) as [(_ & _ & Hraise)|[Hnot _]]
  end; [done|].
  exfalso. apply Hnot. split; [|by rewrite Houtputs]. split.
  - intros [Hempty _]. apply fmap_empty_inv in Hempty.
    rewrite Hempty, dom_empty_L in Hdom.
    destruct Hcodes as [Hwidth _].
    assert ("Y" +:+ pretty 0 ∈ (list_to_set (state_symbol_names
              (bits_for (length states_list))) : gset string)) as Hin.
    { apply elem_of_list_to_set, state_symbol_elem. eauto. }
    rewrite <-Hdom in Hin. by apply not_elem_of_empty in Hin.
  - destruct (assign_state_codes states_list) as [|[first_id first_code] rest] eqn:Hassign;
      [done|].
    exists first_id, first_code, rest. split; [done|].
    intros ->. destruct Hcodes as [Hwidth Hlen].
    specialize (Hlen first_id "" ltac:(left)). simpl in Hlen. lia.
Qed.

End pipeline_outcomes.

(** ** From link paths to transitions *)

Section paths_to_transitions.
Import Py PathFinder Paths Annotator TableMaker Tables.

(** With distinct ids the annotator finds every node under its key. *)
Lemma index_nodes_lookup nodes k n :
  distinct_ids nodes → is_node nodes k n → index_nodes nodes !! k = Some n.
Proof.
  intros Hdistinct Hnode.
  destruct Hnode as [Hin Hkey]. destruct (node_key_inv n k Hkey) as (i & Hid & ->).
  destruct (index_nodes_bound nodes n i Hin Hid) as [n' Hn'].
  rewrite Hn'. f_equal.
  apply index_nodes_key in Hn' as Hnode'.
  pose proof (build_index_lookup nodes Hdistinct) as Hindex.
  assert ((build_index nodes).1 !! str i = Some n) as Hl by (by apply Hindex).
  assert ((build_index nodes).1 !! str i = Some n') as Hl' by (by apply Hindex).
  congruence.
Qed.

Lemma state_has_code nodes states_list inputs_list event_outputs state_outputs k :
  prepare_table_elements nodes
  = Table4 states_list inputs_list event_outputs state_outputs →
  state_id nodes k →
  ∃ n i, is_node nodes k n ∧ type n = "state" ∧ id n = Some i ∧
         is_Some (dict_get i (assign_state_codes states_list)).
Proof.
  intros Htable (n & [Hin Hkey] & Hstate).
  destruct (node_key_inv n k Hkey) as (i & Hid & ->).
  exists n, i. split; [done|]. split; [done|]. split; [done|].
  apply assign_state_codes_keys.
  rewrite prepare_table_elements_unfold in Htable
    by (intros ->; by apply elem_of_nil in Hin).
  injection Htable as <- _ _ _.
  rewrite (proj2 (sorted_Z _)), collect_states. cbn [states app].
  apply list_elem_of_omap. exists n. split; [done|]. by rewrite decide_True.
Qed.

Lemma imap_ends {A B} (f : nat → A → B) (s : A) (l : list A) (t : A) :
  imap f (s :: l ++ [t]) = f 0 s :: imap (f ∘ S) (l ++ [t]) ∧
  last (imap f (s :: l ++ [t])) = Some (f (S (length l)) t).
Proof.
  split; [done|]. rewrite app_comm_cons, imap_app. cbn [imap].
  by rewrite last_snoc, Nat.add_0_r.
Qed.

(** X26.  No link path is skipped.  On a chart with distinct ids, every path
    the path finder returns is annotated into a path that starts and
    ends in states that have codes: the loop of
    [generate_boolean_equations] processes each of them. *)
Theorem link_paths_are_transitions (nodes : list node) (paths : list (list string))
    states_list inputs_list event_outputs state_outputs
    (annotated : list (option step)) :
  distinct_ids nodes →
  find_link_paths nodes = Some paths →
  prepare_table_elements nodes
  = Table4 states_list inputs_list event_outputs state_outputs →
  annotated ∈ get_formatted_details_for_all_paths paths nodes →
  is_Some (transition (assign_state_codes states_list) annotated).
Proof.
  intros Hdistinct Hpaths Htable. unfold get_formatted_details_for_all_paths.
  destruct paths as [|p0 ps] eqn:Hps; [by intros ?%elem_of_nil|]. rewrite <-Hps in *.
  destruct nodes as [|n0 ns] eqn:Hns; [by intros ?%elem_of_nil|]. rewrite <-Hns in *.
  clear Hps Hns. case_decide as Hempty; [by intros ?%elem_of_nil|].
  intros (p & -> & Hp)%list_elem_of_fmap.
  destruct (find_link_paths_walks nodes paths p Hdistinct Hpaths Hp)
    as (s & l & t & -> & Hs & Ht & _).
  destruct (state_has_code _ _ _ _ _ s Htable Hs)
    as (ns' & i_s & Hnode_s & Htype_s & Hid_s & [code_s Hcode_s]).
  destruct (state_has_code _ _ _ _ _ t Htable Ht)
    as (nt' & i_t & Hnode_t & Htype_t & Hid_t & [code_t Hcode_t]).
  apply (index_nodes_lookup nodes s ns' Hdistinct) in Hnode_s.
  apply (index_nodes_lookup nodes t nt' Hdistinct) in Hnode_t.
  unfold transition.
  destruct (imap_ends (format_node (index_nodes nodes) (s :: l ++ [t])) s l t)
    as [Hfirst Hlast].
  rewrite Hlast, Hfirst.
  unfold format_node at 1. rewrite Hnode_s. cbn [s_id mbind option_bind].
  rewrite Hid_s. cbn [mbind option_bind]. rewrite Hcode_s. cbn [mbind option_bind].
  unfold format_node at 1. rewrite Hnode_t. cbn [s_type s_id].
  rewrite decide_True by done. rewrite Hid_t. cbn [mbind option_bind].
  rewrite Hcode_t. by eexists.
Qed.

End paths_to_transitions.

(** ** The further properties on examples *)

Section further_checks.
Import Py Sympy PathFinder Paths Annotator TableMaker Tables VhdlGenerator Rendering.
Import Parser Main PaddedBinary Examples.

Lemma cyclic_distinct_ids : distinct_ids Cyclic.chart.
Proof. unfold distinct_ids. apply (bool_decide_unpack _). vm_compute. exact I. Qed.

Lemma branch_state_1 : state_id Scenarios.branch "1".
Proof. eexists. split; [split; [left|reflexivity]|reflexivity]. Qed.

Lemma branch_state_2 : state_id Scenarios.branch "2".
Proof. eexists. split; [split; [right; left|reflexivity]|reflexivity]. Qed.

Lemma branch_walk : walk Scenarios.branch "1" ["4"] "2".
Proof.
  split; [|split].
  - eexists _, "output_1", _, (Scenarios.to "4").
    split; [split; [left|reflexivity]|]. split; [left|]. split; [left|reflexivity].
  - eexists. split; [split; [right; right; right; left|reflexivity]|done].
  - eexists _, "output_1", _, (Scenarios.to "2").
    split; [split; [right; right; right; left|reflexivity]|].
    split; [left|]. split; [left|reflexivity].
Qed.

Lemma cyclic_state_1 : state_id Cyclic.chart "1".
Proof. eexists. split; [split; [left|reflexivity]|reflexivity]. Qed.

Lemma cyclic_trail : trail Cyclic.chart "1" ["2"; "3"].
Proof.
  split; [|split; [|split; [|split; [|done]]]].
  - eexists _, "output_1", _, (Scenarios.to "2").
    split; [split; [left|reflexivity]|]. split; [left|]. split; [left|reflexivity].
  - eexists. split; [split; [right; left|reflexivity]|done].
  - eexists _, "output_1", _, (Scenarios.to "3").
    split; [split; [right; left|reflexivity]|]. split; [left|].
    split; [left|reflexivity].
  - eexists. split; [split; [right; right; left|reflexivity]|done].
Qed.

Lemma cyclic_back_edge : edge Cyclic.chart (trail_end "1" ["2"; "3"]) "2".
Proof.
  eexists _, "output_1", _, (Scenarios.to "2").
  split; [split; [right; right; left|reflexivity]|]. split; [left|].
  split; [left|reflexivity].
Qed.

Lemma find_link_paths_traced_witness : traced Scenarios.branch ["1"; "4"; "2"].
Proof.
  apply (find_link_paths_traced Scenarios.branch
           [["1"; "4"; "2"]; ["1"; "4"; "3"]] ["1"; "4"; "2"]).
  - exact branch_distinct_ids.
  - reflexivity.
  - left.
Defined.

Lemma find_link_paths_complete_witness :
  ∃ paths, find_link_paths Scenarios.branch = Some paths ∧ "1" :: ["4"] ++ ["2"] ∈ paths.
Proof.
  apply (find_link_paths_complete Scenarios.branch "1" "2" ["4"]).
  - exact branch_distinct_ids.
  - exact branch_state_1.
  - exact branch_state_2.
  - exact branch_walk.
  - apply (bool_decide_unpack _). vm_compute. exact I.
Defined.

Lemma find_link_paths_no_state_witness : find_link_paths lone_decision = Some [].
Proof.
  apply (find_link_paths_no_state lone_decision).
  intros n ->%list_elem_of_singleton. simpl. discriminate.
Defined.

Lemma cycle_reports_are_cycles_witness : revisits Cyclic.chart ["1"; "2"; "3"; "2"].
Proof.
  apply (cycle_reports_are_cycles Cyclic.chart 4
           (Search [["1"; "2"; "3"; "4"]; ["1"; "2"; "4"]]
                   [CycleDetected ["1"; "2"; "3"; "2"]])
           ["1"; "2"; "3"; "2"]).
  - exact cyclic_distinct_ids.
  - vm_compute. reflexivity.
  - left.
Defined.

Lemma cycles_are_reported_witness :
  ∃ r, find_link_paths_within (length Cyclic.chart) Cyclic.chart = Some r ∧
       CycleDetected ("1" :: ["2"; "3"] ++ ["2"]) ∈ diagnostics r.
Proof.
  apply (cycles_are_reported Cyclic.chart "1" "2" ["2"; "3"]).
  - exact cyclic_distinct_ids.
  - exact cyclic_state_1.
  - exact cyclic_trail.
  - apply (bool_decide_unpack _). vm_compute. exact I.
  - exact cyclic_back_edge.
  - left.
Defined.


Lemma prepare_table_elements_states_witness :
  ∃ states_list inputs_list event_outputs state_outputs,
    prepare_table_elements Scenarios.branch
    = Table4 states_list inputs_list event_outputs state_outputs ∧
    StronglySorted Z.le states_list ∧
    states_list ≡ₚ
      omap (λ n, if decide (type n = "state") then id n else None) Scenarios.branch.
Proof. apply (prepare_table_elements_states Scenarios.branch). discriminate. Defined.

Lemma prepare_table_elements_names_witness :
  ∃ states_list inputs_list event_outputs state_outputs,
    prepare_table_elements Scenarios.toggle
    = Table4 states_list inputs_list event_outputs state_outputs ∧
    (StronglySorted String.le inputs_list ∧ NoDup inputs_list ∧
     ∀ name, name ∈ inputs_list ↔
       name ≠ "" ∧
       ∃ n, n ∈ Scenarios.toggle ∧ type n = "decision" ∧ node_data n = name) ∧
    (StronglySorted String.le event_outputs ∧ NoDup event_outputs ∧
     ∀ name, name ∈ event_outputs ↔
       name ≠ "" ∧
       ∃ n, n ∈ Scenarios.toggle ∧ type n = "event" ∧ node_data n = name).
Proof. apply (prepare_table_elements_names Scenarios.toggle). discriminate. Defined.

Lemma prepare_table_elements_moore_witness :
  ∃ states_list inputs_list event_outputs state_outputs,
    prepare_table_elements [Node (Some 1%Z) "state" [] [] "led"]
    = Table4 states_list inputs_list event_outputs state_outputs ∧
    moore_table_of [Node (Some 1%Z) "state" [] [] "led"] state_outputs.
Proof.
  apply (prepare_table_elements_moore [Node (Some 1%Z) "state" [] [] "led"]).
  discriminate.
Defined.

Lemma assign_state_codes_index_witness :
  ∃ code,
    dict_get 2%Z (assign_state_codes [1; 2; 3]%Z) = Some code ∧
    String.length code = bits_for (length [1; 2; 3]%Z) ∧
    int_of_binary code = 1.
Proof.
  apply (assign_state_codes_index [1; 2; 3]%Z 1 2%Z).
  - apply (bool_decide_unpack _). vm_compute. exact I.
  - reflexivity.
Defined.

Lemma assign_state_codes_distinct_witness :
  dict_get 1%Z (assign_state_codes [1; 2; 3]%Z) = Some "00" ∧
  dict_get 2%Z (assign_state_codes [1; 2; 3]%Z) = Some "01" ∧
  "00" ≠ "01".
Proof.
  split; [reflexivity|]. split; [reflexivity|].
  apply (assign_state_codes_distinct [1; 2; 3]%Z 1%Z 2%Z "00" "01").
  - apply (bool_decide_unpack _). vm_compute. exact I.
  - discriminate.
  - reflexivity.
  - reflexivity.
Defined.

Lemma branch_codes_uniform : uniform_codes branch_codes 2.
Proof. exact (assign_state_codes_width [1; 2; 3]%Z). Qed.

Lemma branch_plain_names : plain_names ["x"] [] [].
Proof. unfold plain_names. simpl. repeat constructor. Qed.

Lemma generate_boolean_equations_next_state_witness :
  ∃ eqns,
    generate_boolean_equations branch_paths branch_codes ["x"] [] [] = Ok eqns ∧
    ∀ i, i < 2 →
      ∃ e, eqns.1 !! ("Y" +:+ pretty i) = Some e ∧
        ∀ v, eval v e = true ↔
             ∃ path, path ∈ branch_paths ∧
                     sets_bit branch_codes path i = true ∧
                     path_holds v branch_codes ["x"] path = true.
Proof.
  apply (generate_boolean_equations_next_state branch_paths branch_codes 2 ["x"] [] []).
  - discriminate.
  - discriminate.
  - exact branch_codes_uniform.
  - exact branch_plain_names.
Defined.

Lemma led_plain_names : plain_names [] [] [(2%Z, ["led"])].
Proof. unfold plain_names. simpl. repeat constructor. Qed.

Lemma generate_boolean_equations_outputs_witness :
  ∃ eqns,
    generate_boolean_equations [[]] Scenarios.flip_state_codes [] [] [(2%Z, ["led"])]
    = Ok eqns ∧
    ∀ name, name ∈ all_output_names [] [(2%Z, ["led"])] →
      ∃ e, eqns.2 !! name = Some e ∧
        ∀ v, eval v e = true ↔
             (∃ path, path ∈ [[]] ∧
                      emits [] path name = true ∧
                      path_holds v Scenarios.flip_state_codes [] path = true) ∨
             moore_holds v Scenarios.flip_state_codes [(2%Z, ["led"])] name = true.
Proof.
  apply (generate_boolean_equations_outputs [[]] Scenarios.flip_state_codes 1
           [] [] [(2%Z, ["led"])]).
  - discriminate.
  - discriminate.
  - exact flip_codes_uniform.
  - exact led_plain_names.
Defined.

Lemma generate_boolean_equations_keys_witness :
  ∃ eqns,
    generate_boolean_equations branch_paths branch_codes ["x"] [] [] = Ok eqns ∧
    (∀ key, is_Some (eqns.1 !! key) ↔ ∃ i, i < 2 ∧ key = "Y" +:+ pretty i) ∧
    (∀ key, is_Some (eqns.2 !! key) ↔
            key ∈ [] ∨
            ∃ state_id output_list,
              (state_id, output_list) ∈ ([] : list (Z * list string)) ∧
              key ∈ output_list).
Proof.
  apply (generate_boolean_equations_keys branch_paths branch_codes 2 ["x"] [] []).
  - discriminate.
  - discriminate.
  - exact branch_codes_uniform.
  - exact branch_plain_names.
Defined.

Lemma simplify_equations_sound_witness :
  dom (simplify_equations Ok {[ "Y0" := Not (Symbol "Y0") ]})
  = dom ({[ "Y0" := Not (Symbol "Y0") ]} : gmap string bexpr) ∧
  ∀ key e, ({[ "Y0" := Not (Symbol "Y0") ]} : gmap string bexpr) !! key = Some e →
    ∃ e', simplify_equations Ok {[ "Y0" := Not (Symbol "Y0") ]} !! key = Some e' ∧
          ∀ v, eval v e' = eval v e.
Proof.
  apply (simplify_equations_sound Ok {[ "Y0" := Not (Symbol "Y0") ]}).
  intros e e' [= <-] v. reflexivity.
Defined.


Lemma port_list_last_port_witness :
  ∃ vhdl_code, port_list "test" ["x"] [] = vhdl_code +:+ "std_logic" +:+ nl.
Proof. apply (port_list_last_port "test" ["x"] []). left. discriminate. Defined.

Lemma parse_drawflow_data_returns_witness :
  ∃ r, parse_drawflow_data (λ _, "") one_state_document = Ok r ∧
       length (filtered_nodes r) + length (warnings r) = length one_state_items ∧
       parsed_keys (λ _, "") r `sublist_of` one_state_items.*1.
Proof.
  apply (parse_drawflow_data_returns (λ _, "") one_state_document
           one_state_drawflow one_state_home one_state_items).
  - reflexivity.
  - reflexivity.
  - reflexivity.
  - intros key fields data [= _ ->]%list_elem_of_singleton [= <-]. by eexists.
Defined.

Lemma padded_binary_round_trip_witness :
  ∃ s, padded_binary 5 4 = Ok s ∧
       String.length s = Z.to_nat 4 ∧ int_of_binary s = Z.to_nat 5.
Proof. apply (padded_binary_round_trip 5 4); lia. Defined.


Lemma save_drawflow_data_no_paths_witness :
  save_drawflow_data Ok lone_decision
  = Ok "-- VHDL Generation Error: Missing state codes or equations.".
Proof.
  apply (save_drawflow_data_no_paths Ok lone_decision).
  - discriminate.
  - reflexivity.
Defined.


Lemma tick_plain_names : plain_names [] ["tick"] [].
Proof. unfold plain_names. simpl. repeat constructor. Qed.

Lemma save_drawflow_data_single_output_witness :
  save_drawflow_data Ok Scenarios.toggle = Raise "TypeError".
Proof.
  apply (save_drawflow_data_single_output Ok Scenarios.toggle
           [["1"; "3"; "2"]; ["2"; "4"; "1"]] [1; 2]%Z [] ["tick"] [] "tick").
  - reflexivity.
  - discriminate.
  - reflexivity.
  - exact tick_plain_names.
  - reflexivity.
Defined.

Lemma link_paths_are_transitions_witness :
  is_Some (transition (assign_state_codes [1; 2; 3]%Z)
             [Some (Step (Some 1%Z) "" "state" None);
              Some (Step (Some 4%Z) "x" "decision" (Some true));
              Some (Step (Some 2%Z) "" "state" (Some true))]).
Proof.
  apply (link_paths_are_transitions Scenarios.branch
           [["1"; "4"; "2"]; ["1"; "4"; "3"]] [1; 2; 3]%Z ["x"] [] []).
  - exact branch_distinct_ids.
  - reflexivity.
  - reflexivity.
  - left.
Defined.

End further_checks.
